(** * nav.go: navigation and caching core of the file browser

    A shallow embedding of [nav.go] and the properties of its listing sort,
    cursor arithmetic, loaders and mark set.

    Conventions of the embedding.
    - Go's [int] is a 64-bit two's complement integer: it is a [Z] and every
      addition and subtraction of the source goes through [wrap].
    - A Go slice is a [list]; where two slices share one backing array (as
      [dir.fi] and [dir.all] do) the sharing is written out at the place
      where the source writes through one of them.
    - The owner thread's side effects (goroutines started, map writes that a
      property talks about, channel sends, log lines) are returned in program
      order as a list of [act].
    - A run-time panic is an outcome of its own, distinct from a Go [error]. *)

From Stdlib Require Import ZArith List Bool Ascii String Lia Permutation Sorted.
From Stdlib Require Import OrderedTypeEx.
From stdpp Require Import base option list gmap strings sorting.

Local Open Scope string_scope.
Local Open Scope list_scope.
Local Open Scope Z_scope.

(** ** Go primitives *)

Definition intMax : Z := 2 ^ 63 - 1.
Definition intMin : Z := - 2 ^ 63.

(** Two's complement wrap-around of a 64-bit [int]. *)
Definition wrap (x : Z) : Z := (x + 2 ^ 63) mod 2 ^ 64 - 2 ^ 63.

Definition addi (x y : Z) : Z := wrap (x + y).
Definition subi (x y : Z) : Z := wrap (x - y).

Definition isInt (x : Z) : Prop := intMin <= x <= intMax.

(** Modelled from the spec: the helpers [min] and [max] on [int] are used by
    [nav.go] but declared in another file of the repository; the spec uses
    them with their usual meaning ([pos <= min(ind, height-1)]). *)
Definition min (a b : Z) : Z := if a <? b then a else b.
Definition max (a b : Z) : Z := if a <? b then b else a.

(** [len(s)] of a slice, as an [int]. *)
Definition len {A : Type} (s : list A) : Z := Z.of_nat (List.length s).

(** The result of a call that may return a Go [error] or panic. *)
Inductive res (A : Type) : Type :=
| Ok (a : A)
| Err (e : string)
| Panic (msg : string).
Arguments Ok {A} a.
Arguments Err {A} e.
Arguments Panic {A} msg.

(** Error numbers of the system calls, with the text of their [Error()]. *)
Inductive errno : Type :=
| ENOENT
| ENOTDIR
| EACCES
| EIO.

Definition errnoText (e : errno) : string :=
  match e with
  | ENOENT => "no such file or directory"
  | ENOTDIR => "not a directory"
  | EACCES => "permission denied"
  | EIO => "input/output error"
  end.

(** A Go [error] as [nav.go] meets it. [os.Open], [os.Lstat], [os.Stat]
    and [os.Chdir] return a [*os.PathError], whose text is
    [Op + " " + Path + ": " + Err.Error()]. Of the errors of other calls
    ([Readdirnames], [StdoutPipe], [Start]) the source uses the text
    only. *)
Inductive oserror : Type :=
| PathError (op path : string) (err : errno)
| OtherError (msg : string).

(** [os.IsNotExist]. *)
Definition IsNotExist (e : option oserror) : bool :=
  match e with
  | Some (PathError _ _ ENOENT) => true
  | _ => false
  end.

(** [err.Error()], what [%s] prints of an error. *)
Definition Error (e : oserror) : string :=
  match e with
  | PathError op path err => op +:+ " " +:+ path +:+ ": " +:+ errnoText err
  | OtherError msg => msg
  end.

(** [os.FileMode] bits used by the source. *)
Definition ModeDir : Z := Z.shiftl 1 31.
Definition ModeSymlink : Z := Z.shiftl 1 27.

(** [os.FileInfo]: what [Lstat] and [Stat] return. [ModTime] is an instant
    on the time line; [Before] and [After] compare instants. *)
Record os_FileInfo : Type := mkInfo {
  Name : string;
  Size : Z;
  Mode : Z;
  ModTime : Z
}.

Definition IsDir (s : os_FileInfo) : bool :=
  negb (Z.land (Mode s) ModeDir =? 0).

(** Functions that [nav.go] calls and that are not in it: two of Go's
    standard library, and [naturalLess], a helper of this repository declared
    in another file. They are parameters of the whole development. *)
Class Extern : Type := {
  ToLower : string -> string;
  naturalLess : string -> string -> bool;
  Join : string -> string -> string
}.

(** The fields of the global [gOpts] that [nav.go] reads. *)
Record opts : Type := mkOpts {
  sortby : string;
  reverse : bool;
  dirfirst : bool;
  hidden : bool;
  scrolloff : Z;
  previewer : string
}.

(** ** Files *)

Inductive linkState : Type :=
| notLink
| working
| broken.

Module file.

Record t : Type := mk {
  FileInfo : os_FileInfo;
  linkState : linkState;
  path : string;
  count : Z
}.

(* Methods promoted from the embedded [os.FileInfo]. *)
Definition Name (f : t) : string := Name (FileInfo f).
Definition Size (f : t) : Z := Size (FileInfo f).
Definition ModTime (f : t) : Z := ModTime (FileInfo f).
Definition IsDir (f : t) : bool := IsDir (FileInfo f).

(** [f.Name()[0] == '.']; indexing an empty name panics in Go, which
    [dir.sort] below accounts for before it uses this test. *)
Definition dot (f : t) : bool :=
  match Name f with
  | String c _ => Ascii.eqb c "."
  | EmptyString => false
  end.

Definition named (f : t) : bool :=
  match Name f with
  | String _ _ => true
  | EmptyString => false
  end.

End file.

(** ** Sorting with Go's [sort] package *)

(** A [less(i, j)] closure of the source reads the slice at [i] and [j]; here
    it receives the two indices together with the entries found there. *)
Definition lessfn (A : Type) : Type := nat -> A -> nat -> A -> bool.

(** One round of the inner loop of Go's insertion sort,
    [for j := i; j > a && Less(j, j-1); j-- { Swap(j, j-1) }]:
    [sorted] is the already sorted [data[a:i]] with its last entry first, and
    [x] is [data[i]] on its way down. *)
Fixpoint insertBack {A : Type} (less : lessfn A) (x : A) (sorted : list A)
  : list A :=
  match sorted with
  | [] => [x]
  | y :: rest =>
      if less (S (List.length rest)) x (List.length rest) y
      then y :: insertBack less x rest
      else x :: sorted
  end.

Definition insertionSort {A : Type} (less : lessfn A) (data : list A)
  : list A :=
  rev (fold_left (fun sorted x => insertBack less x sorted) data []).

(** [sortFilesStable] hands the slice to [sort.Stable] of Go's library, which
    sorts in place. On up to 20 entries [sort.Stable] is exactly the
    insertion sort above; on more it sorts blocks of 20 this way and merges
    them, calling [Less] on a later and an earlier index as here, and is
    specified to leave the same order (equal entries keep their order). *)
Definition sortFilesStable (files : list file.t) (less : lessfn file.t)
  : list file.t :=
  insertionSort less files.

(** The loop at the end of [dir.sort]: the slice from the first entry whose
    name does not start with a dot, or the empty tail when there is none. *)
Fixpoint dropHidden (s : list file.t) : list file.t :=
  match s with
  | [] => []
  | f :: rest => if file.dot f then dropHidden rest else s
  end.

(** [s[i]] for an [int] index; [None] stands for the index-out-of-range
    panic. *)
Definition index {A : Type} (s : list A) (i : Z) : option A :=
  if i <? 0 then None else s !! Z.to_nat i.

(** ** The operating system, as far as [nav.go] calls it *)

Inductive statres : Type :=
| StatOk (s : os_FileInfo)
| StatErr (e : oserror).

(** The answers of [os.Open], [Readdirnames], [os.Lstat], [os.Stat] and
    [os.Chdir]. A directory entry that vanished between enumeration and
    [Lstat] is a name of [fs_names] for which [fs_lstat] answers with an
    error that [os.IsNotExist] recognises. *)
Record filesys : Type := mkFs {
  fs_open : string -> option oserror;
  fs_names : string -> list string * option oserror;
  fs_lstat : string -> statres;
  fs_stat : string -> statres;
  fs_chdir : string -> option oserror
}.

Definition statErr (r : statres) : option oserror :=
  match r with
  | StatOk _ => None
  | StatErr e => Some e
  end.

Section Readdir.

Context {E : Extern}.
Variable fs : filesys.

(** The body of the [for _, filename := range names] loop of [readdir]:
    [fi] is the slice built so far, [err] the error of [Readdirnames],
    returned when the loop runs to its end. The third component collects
    the lines written with [log.Printf]. *)
Fixpoint scan (path : string) (names : list string) (err : option oserror)
  (fi : list file.t) (logs : list string)
  : list file.t * option oserror * list string :=
  match names with
  | [] => (fi, err, logs)
  | filename :: names' =>
      let fpath := Join path filename in
      match fs_lstat fs fpath with
      | StatErr lerr =>
          if IsNotExist (Some lerr) then scan path names' err fi logs
          else (fi, Some lerr, logs)
      | StatOk lstat =>
          if negb (Z.land (Mode lstat) ModeSymlink =? 0) then
            match fs_stat fs fpath with
            | StatOk stat =>
                scan path names' err
                  (fi ++ [file.mk stat working fpath (-1)]) logs
            | StatErr serr =>
                scan path names' err
                  (fi ++ [file.mk lstat broken fpath (-1)])
                  (logs ++ ["getting link destination info: " +:+ Error serr])
            end
          else
            scan path names' err
              (fi ++ [file.mk lstat notLink fpath (-1)]) logs
      end
  end.

Definition readdir (path : string)
  : list file.t * option oserror * list string :=
  match fs_open fs path with
  | Some err => ([], Some err, [])
  | None =>
      let '(names, err) := fs_names fs path in
      scan path names err [] []
  end.

End Readdir.

(** ** Listings *)

Module dir.

Record t : Type := mk {
  loading : bool;
  loadTime : Z;
  ind : Z;
  pos : Z;
  path : string;
  fi : list file.t;
  all : list file.t
}.

Definition setCursor (d : t) (i p : Z) : t :=
  mk (loading d) (loadTime d) i p (path d) (fi d) (all d).

Definition setFiles (d : t) (fi' all' : list file.t) : t :=
  mk (loading d) (loadTime d) (ind d) (pos d) (path d) fi' all'.

Definition setLoadTime (d : t) (time : Z) : t :=
  mk (loading d) time (ind d) (pos d) (path d) (fi d) (all d).

Section Methods.

Context {E : Extern}.

(** [newDir]: [fi] and [all] are one and the same slice. *)
Definition newDir (fs : filesys) (time : Z) (path : string)
  : t * list string :=
  let '(fi, err, logs) := readdir fs path in
  let logs' :=
    match err with
    | Some e => logs ++ ["reading directory: " +:+ Error e]
    | None => logs
    end in
  (mk false time 0 0 path fi fi, logs').

(** The four [less] closures of the sort keys. *)
Definition lessNatural : lessfn file.t := fun _ x _ y =>
  naturalLess (ToLower (file.Name x)) (ToLower (file.Name y)).
Definition lessName : lessfn file.t := fun _ x _ y =>
  String.ltb (ToLower (file.Name x)) (ToLower (file.Name y)).
Definition lessSize : lessfn file.t := fun _ x _ y =>
  file.Size x <? file.Size y.
Definition lessTime : lessfn file.t := fun _ x _ y =>
  file.ModTime x <? file.ModTime y.

(** The closures of the directories-first and of the hidden pass: on
    a tie they answer [i < j]. *)
Definition lessDirFirst : lessfn file.t := fun i x j y =>
  if Bool.eqb (file.IsDir x) (file.IsDir y) then (i <? j)%nat
  else file.IsDir x.
Definition lessHidden : lessfn file.t := fun i x j y =>
  if file.dot x && file.dot y then (i <? j)%nat
  else file.dot x.

(** The [switch gOpts.sortby]; an unknown key only writes a log line and
    leaves the slice as it is. *)
Definition sortByKey (key : string) (s : list file.t) : list file.t :=
  if String.eqb key "natural" then sortFilesStable s lessNatural
  else if String.eqb key "name" then sortFilesStable s lessName
  else if String.eqb key "size" then sortFilesStable s lessSize
  else if String.eqb key "time" then sortFilesStable s lessTime
  else s.

(** The passes of [dir.sort] up to the hidden filter, on the array that
    [dir.fi] and [dir.all] share. *)
Definition arrange (o : opts) (s : list file.t) : list file.t :=
  let s1 := sortByKey (sortby o) s in
  let s2 := if reverse o then rev s1 else s1 in
  if dirfirst o then sortFilesStable s2 lessDirFirst else s2.

(** [dir.sort]. The first statement, [dir.fi = dir.all], makes [dir.fi]
    the very slice [dir.all] (same array, same length), and every pass
    sorts [dir.fi] in place: what the passes do to the array is seen
    through [dir.all] as well. Only the last step, [dir.fi = dir.fi[i:]],
    moves [dir.fi] alone. With [hidden] off the first byte of a name is
    read ([Name()[0]]), which panics on an empty name: [None]. *)
Definition sort (o : opts) (d : t) : option t :=
  let s := arrange o (all d) in
  if hidden o then Some (setFiles d s s)
  else if forallb file.named s then
    let s' := sortFilesStable s lessHidden in
    Some (setFiles d (dropHidden s') s')
  else None.

End Methods.

(** The [for i, f := range dir.fi] search of [dir.find]: the index of the
    first entry called [name], counting from [i]. *)
Fixpoint lookFor (name : string) (s : list file.t) (i : Z) : option Z :=
  match s with
  | [] => None
  | f :: rest =>
      if String.eqb (file.Name f) name then Some i
      else lookFor name rest (i + 1)
  end.

(** [dir.find]. *)
Definition find (o : opts) (name : string) (height : Z) (d : t) : res t :=
  if len (fi d) =? 0 then Ok (setCursor d 0 0)
  else
    let ind1 := min (ind d) (subi (len (fi d)) 1) in
    match index (fi d) ind1 with
    | None => Panic "index out of range"
    | Some f =>
        let ind2 :=
          if negb (String.eqb (file.Name f) name) then
            match lookFor name (fi d) 0 with
            | Some i => i
            | None => ind1
            end
          else ind1 in
        let edge := min (scrolloff o) (subi (subi (len (fi d)) ind2) 1) in
        Ok (setCursor d ind2 (min ind2 (subi (subi height edge) 1)))
    end.

(** [dir.name]. *)
Definition name (d : t) : res string :=
  if len (fi d) =? 0 then Ok ""
  else
    match index (fi d) (ind d) with
    | Some f => Ok (file.Name f)
    | None => Panic "index out of range"
    end.

(** [dir.renew]: the listing is read again, and [fi] and [all] are again one
    slice; the cursor is left where it was. *)
Definition renew {E : Extern} (fs : filesys) (d : t) : t * list string :=
  let '(fi, err, logs) := readdir fs (path d) in
  let logs' :=
    match err with
    | Some e => logs ++ ["reading directory: " +:+ Error e]
    | None => logs
    end in
  (setFiles d fi fi, logs').

End dir.

(** ** Preview registers *)

Module reg.

Record t : Type := mk {
  path : string;
  lines : list string
}.

End reg.

(** ** Effects of the owner thread and of the workers *)

(** The goroutines [nav.go] starts: the closure of [loadDir] (with the path
    it captures), the closure of [renew] (with the [*dir] it is given) and
    [nav.preview]. *)
Inductive worker : Type :=
| LoadDirWorker (path : string)
| RenewWorker (d : nat)
| PreviewWorker.

Inductive act : Type :=
| Go (w : worker)
| PutDirCache (path : string)
| PutRegCache (path : string)
| SendDir (d : dir.t)
| SendReg (r : reg.t)
| Log (msg : string)
| Chdir (path : string).

(** What a [bufio.Scanner] finds on a reader: the lines, and the error it
    ends with, if any. *)
Record stream : Type := mkStream {
  st_lines : list string;
  st_err : option string
}.

(** A run of [exec.Command(previewer, path, height)]: the errors of
    [StdoutPipe] and [Start], and what can be read from the pipe (after a
    failed [Start] the pipe is closed, and a read from it is an error). *)
Record cmdrun : Type := mkRun {
  run_pipe : option oserror;
  run_start : option oserror;
  run_out : stream
}.

(** What the system answers to [nav.preview]: the run of a previewer on a
    path with a height, the error of [os.Open] on a path, and what can be
    read from the file at a path. *)
Record previewsys : Type := mkPv {
  pv_cmd : string -> string -> Z -> cmdrun;
  pv_open : string -> option oserror;
  pv_file : string -> stream
}.

Definition esc : string := String "027"%char "".

(** ** Searching and path functions *)

(** [filepath.Dir] and [filepath.Match] of Go's library, which the rest of
    [nav.go] calls; [Match] returns [(matched, err)], with an error on a
    malformed pattern. *)
Class Filepath : Type := {
  Dir : string -> string;
  Match : string -> string -> bool * option string
}.

(** [strings.Contains]: [substr] occurs in [s]. *)
Fixpoint Contains (s substr : string) : bool :=
  String.prefix substr s ||
  match s with
  | EmptyString => false
  | String _ rest => Contains rest substr
  end.

(** The search flags of the global [gOpts]. *)
Record searchopts : Type := mkSearch {
  ignorecase : bool;
  smartcase : bool;
  globsearch : bool;
  wrapscan : bool
}.

(** ** The navigation state *)

Module nav.

(** A [*dir] is an index into [heap]: the listings on the stack and in the
    cache are shared objects. The two channels are the [SendDir] and
    [SendReg] acts. *)
Record t : Type := mk {
  heap : list dir.t;
  dirs : list nat;
  dirCache : gmap string nat;
  regCache : gmap string reg.t;
  saves : gmap string bool;
  marks : gmap string Z;
  markInd : Z;
  height : Z;
  search : string
}.

Definition setHeap (n : t) (h : list dir.t) : t :=
  mk h (dirs n) (dirCache n) (regCache n) (saves n) (marks n) (markInd n)
     (height n) (search n).
Definition setDirs (n : t) (ds : list nat) : t :=
  mk (heap n) ds (dirCache n) (regCache n) (saves n) (marks n) (markInd n)
     (height n) (search n).
Definition setDirCache (n : t) (c : gmap string nat) : t :=
  mk (heap n) (dirs n) c (regCache n) (saves n) (marks n) (markInd n)
     (height n) (search n).
Definition setRegCache (n : t) (c : gmap string reg.t) : t :=
  mk (heap n) (dirs n) (dirCache n) c (saves n) (marks n) (markInd n)
     (height n) (search n).
Definition setMarks (n : t) (m : gmap string Z) (i : Z) : t :=
  mk (heap n) (dirs n) (dirCache n) (regCache n) (saves n) m i
     (height n) (search n).
Definition setHeight (n : t) (h : Z) : t :=
  mk (heap n) (dirs n) (dirCache n) (regCache n) (saves n) (marks n)
     (markInd n) h (search n).

(** [nav.currDir]: [nav.dirs[len(nav.dirs)-1]]; [None] is the panic on an
    empty stack. *)
Definition currDir (n : t) : option dir.t :=
  match last (dirs n) with
  | Some p => heap n !! p
  | None => None
  end.

(** [nav.currFile]. *)
Definition currFile (n : t) : res file.t :=
  match currDir n with
  | None => Panic "index out of range"
  | Some last =>
      if len (dir.fi last) =? 0 then Err "empty directory"
      else
        match index (dir.fi last) (dir.ind last) with
        | Some f => Ok f
        | None => Panic "index out of range"
        end
  end.

(** [nav.loadDir]: on a miss the [go] statement comes first, then the
    placeholder is made and stored. *)
Definition loadDir (path : string) (n : t) : nat * t * list act :=
  match dirCache n !! path with
  | None =>
      let d := dir.mk true 0 0 0 path [] [] in
      let p := List.length (heap n) in
      (p,
       setDirCache (setHeap n (heap n ++ [d])) (<[path := p]> (dirCache n)),
       [Go (LoadDirWorker path); PutDirCache path])
  | Some p => (p, n, [])
  end.

(** [nav.open]. *)
Definition open (fs : filesys) (n : t) : res unit * t * list act :=
  match currFile n with
  | Panic msg => (Panic msg, n, [])
  | Err e => (Err ("open: " +:+ e), n, [])
  | Ok curr =>
      let path := file.path curr in
      let '(d, n1, acts) := loadDir path n in
      let n2 := setDirs n1 (dirs n1 ++ [d]) in
      match fs_chdir fs path with
      | Some e => (Err ("open: " +:+ Error e), n2, acts)
      | None => (Ok tt, n2, acts ++ [Chdir path])
      end
  end.

(** The cursor operations work on [dir := nav.currDir()]. *)
Definition onCurrDir (f : dir.t -> dir.t) (n : t) : res t :=
  match last (dirs n) with
  | None => Panic "index out of range"
  | Some p =>
      match heap n !! p with
      | None => Panic "invalid memory address or nil pointer dereference"
      | Some d => Ok (setHeap n (<[p := f d]> (heap n)))
      end
  end.

Definition upOn (o : opts) (dist : Z) (d : dir.t) : dir.t :=
  if dir.ind d =? 0 then d
  else
    let ind1 := max 0 (subi (dir.ind d) dist) in
    let pos1 := subi (dir.pos d) dist in
    let edge := min (scrolloff o) ind1 in
    dir.setCursor d ind1 (max pos1 edge).

Definition downOn (o : opts) (height dist : Z) (d : dir.t) : dir.t :=
  let maxind := subi (len (dir.fi d)) 1 in
  if maxind <=? dir.ind d then d
  else
    let ind1 := min maxind (addi (dir.ind d) dist) in
    let pos1 := addi (dir.pos d) dist in
    let edge := min (scrolloff o) (subi maxind ind1) in
    let edge' :=
      min edge (subi (addi (Z.quot height 2) (Z.rem height 2)) 1) in
    let pos2 := min pos1 (subi (subi height edge') 1) in
    dir.setCursor d ind1 (min pos2 maxind).

Definition topOn (d : dir.t) : dir.t := dir.setCursor d 0 0.

Definition botOn (height : Z) (d : dir.t) : dir.t :=
  let ind1 := subi (len (dir.fi d)) 1 in
  dir.setCursor d ind1 (min ind1 (subi height 1)).

Definition up (o : opts) (dist : Z) (n : t) : res t :=
  onCurrDir (upOn o dist) n.
Definition down (o : opts) (dist : Z) (n : t) : res t :=
  onCurrDir (downOn o (height n) dist) n.
Definition top (n : t) : res t := onCurrDir topOn n.
Definition bot (n : t) : res t := onCurrDir (botOn (height n)) n.

(** [nav.toggleMark]. *)
Definition toggleMark (path : string) (n : t) : t :=
  match marks n !! path with
  | Some _ =>
      let m := delete path (marks n) in
      setMarks n m (if Nat.eqb (size m) 0 then 0 else markInd n)
  | None =>
      setMarks n (<[path := markInd n]> (marks n)) (addi (markInd n) 1)
  end.

Definition unmark (n : t) : t := setMarks n ∅ 0.

(** [indexedMarks.Less]. *)
Definition lessIndex : lessfn (string * Z) := fun _ x _ y => x.2 <? y.2.

(** [nav.currMarks]. [ranged] is the sequence in which the
    [for path, index := range nav.marks] loop meets the entries of the map,
    which Go leaves unspecified. [sort.Sort] is Go's library sort; it is
    only specified up to the order of entries that compare equal, and is
    modelled by the insertion sort it runs on short slices. *)
Definition currMarks (ranged : list (string * Z)) : list string :=
  (insertionSort lessIndex ranged).*1.

(** The orders in which [range] may go through the marks. *)
Definition ranges (n : t) (ranged : list (string * Z)) : Prop :=
  ranged ≡ₚ map_to_list (marks n).

(** [nav.loadReg] (its [ui] argument is not used). *)
Definition loadReg (path : string) (n : t) : reg.t * t * list act :=
  match regCache n !! path with
  | None =>
      let r := reg.mk path [esc +:+ "[1mloading..." +:+ esc +:+ "[0m"] in
      (r, setRegCache n (<[path := r]> (regCache n)),
       [Go PreviewWorker; PutRegCache path])
  | Some r => (r, n, [])
  end.

(** [r == 0] for some rune of the line. *)
Fixpoint hasNul (text : string) : bool :=
  match text with
  | EmptyString => false
  | String c rest => Ascii.eqb c "000"%char || hasNul rest
  end.

(** The [for i := 0; i < nav.height && buf.Scan(); i++] loop of
    [nav.preview]: [n] rounds are left, [rd] are the lines still to come
    and [err] the error the scanner would end with. The result is the
    lines kept ([None] when a NUL made the file binary) and [buf.Err()]. *)
Fixpoint readLines (n : nat) (rd : list string) (err : option string)
  (acc : list string) : option (list string) * option string :=
  match n with
  | O => (Some acc, None)
  | S n' =>
      match rd with
      | [] => (Some acc, err)
      | text :: rd' =>
          if hasNul text then (None, None)
          else readLines n' rd' err (acc ++ [text])
      end
  end.

(** The [if len(gOpts.previewer) != 0 { ... } else { ... }] of
    [nav.preview], up to [reader = ...]: the reader for [path], and the
    lines logged on the way. [None] is the nil interface [out] that a
    failed [StdoutPipe] returns; the nil [*os.File] of a failed [os.Open]
    answers every read with [os.ErrInvalid]. *)
Definition previewReader (o : opts) (sys : previewsys) (path : string)
  (height : Z) : option stream * list act :=
  if negb (len (list_ascii_of_string (previewer o)) =? 0) then
    let run := pv_cmd sys (previewer o) path height in
    let l1 := match run_pipe run with
              | Some e => [Log ("previewing file: " +:+ Error e)]
              | None => []
              end in
    let l2 := match run_start run with
              | Some e => [Log ("previewing file: " +:+ Error e)]
              | None => []
              end in
    let rd := match run_pipe run with
              | Some _ => None
              | None => Some (run_out run)
              end in
    (rd, l1 ++ l2)
  else
    match pv_open sys path with
    | Some e => (Some (mkStream [] (Some "invalid argument")),
                 [Log ("opening file: " +:+ Error e)])
    | None => (Some (pv_file sys path), [])
    end.

(** [nav.preview], run by a worker on the navigation state [n] it finds.
    With the nil [out] of a failed [StdoutPipe], [defer out.Close()] is a
    method value of a nil interface: the panic comes there, before
    anything is read or sent. *)
Definition preview (o : opts) (sys : previewsys) (n : t)
  : res unit * list act :=
  match currFile n with
  | Panic msg => (Panic msg, [])
  | Err _ => (Ok tt, [])
  | Ok curr =>
      let '(reader, logs) :=
        previewReader o sys (file.path curr) (height n) in
      match reader with
      | None =>
          (Panic "invalid memory address or nil pointer dereference", logs)
      | Some st =>
          match readLines (Z.to_nat (height n)) (st_lines st) (st_err st) []
          with
          | (None, _) =>
              (Ok tt,
               logs ++ [SendReg (reg.mk (file.path curr)
                                   [esc +:+ "[1mbinary" +:+ esc +:+ "[0m"])])
          | (Some ls, e) =>
              (Ok tt,
               logs ++
               match e with
               | Some msg => [Log ("loading file: " +:+ msg)]
               | None => []
               end ++ [SendReg (reg.mk (file.path curr) ls)])
          end
      end
  end.

Section Workers.

Context {E : Extern}.

(** The goroutine of [nav.loadDir]. *)
Definition loadDirWorker (fs : filesys) (o : opts) (time : Z)
  (path : string) : res unit * list act :=
  let '(d, logs) := dir.newDir fs time path in
  match dir.sort o d with
  | None => (Panic "index out of range", Log <$> logs)
  | Some d' => (Ok tt, (Log <$> logs) ++ [SendDir (dir.setCursor d' 0 0)])
  end.

(** The goroutine of [nav.renew] for the listing [d]; [time1] and
    [time2] are the two readings of [time.Now()]. After a failed
    [os.Stat], [s] is nil and [s.ModTime()] is a call on nil. *)
Definition renewWorker (fs : filesys) (o : opts) (time1 time2 : Z)
  (d : nat) (n : t) : res t * list act :=
  match heap n !! d with
  | None => (Panic "invalid memory address or nil pointer dereference", [])
  | Some dd =>
      match fs_stat fs (dir.path dd) with
      | StatErr err =>
          (Panic "invalid memory address or nil pointer dereference",
           [Log ("getting directory info: " +:+ Error err)])
      | StatOk s =>
          if ModTime s <? dir.loadTime dd then (Ok n, [])
          else
            let n1 := setHeap n (<[d := dir.setLoadTime dd time1]> (heap n)) in
            let '(nd, logs) := dir.newDir fs time2 (dir.path dd) in
            match dir.sort o nd with
            | None => (Panic "index out of range", Log <$> logs)
            | Some nd' => (Ok n1, (Log <$> logs) ++ [SendDir nd'])
            end
      end
  end.

End Workers.

(** [nav.renew], the part run by the owner thread. *)
Definition renew (fs : filesys) (height : Z) (n : t) : t * list act :=
  let cache :=
    fold_left
      (fun c d => match heap n !! d with
                  | Some dd => <[dir.path dd := d]> c
                  | None => c
                  end)
      (dirs n) ∅ in
  let live :=
    filter (fun m : string * Z => IsNotExist (statErr (fs_stat fs m.1)) = false)
           (marks n) in
  let n1 := setHeight (setDirCache n cache) height in
  (setMarks n1 live (if Nat.eqb (size live) 0 then 0 else markInd n),
   (fun d => Go (RenewWorker d)) <$> dirs n).

(** [nav.sort]: the body of the loop, on one listing of the stack. *)
Definition sortOne {E : Extern} (o : opts) (height : Z) (d : dir.t)
  : res dir.t :=
  match dir.name d with
  | Ok name =>
      match dir.sort o d with
      | Some d' => dir.find o name height d'
      | None => Panic "index out of range"
      end
  | Err e => Err e
  | Panic msg => Panic msg
  end.

(** The loop [for _, d := range nav.dirs] of [nav.sort], on the heap. *)
Fixpoint sortEach {E : Extern} (o : opts) (height : Z) (ds : list nat)
  (h : list dir.t) : res (list dir.t) :=
  match ds with
  | [] => Ok h
  | d :: rest =>
      match h !! d with
      | None => Panic "invalid memory address or nil pointer dereference"
      | Some dd =>
          match sortOne o height dd with
          | Ok dd' => sortEach o height rest (<[d := dd']> h)
          | Err e => Err e
          | Panic msg => Panic msg
          end
      end
  end.

(** [nav.sort]. *)
Definition sort {E : Extern} (o : opts) (n : t) : res t :=
  match sortEach o (height n) (dirs n) (heap n) with
  | Ok h => Ok (setHeap n h)
  | Err e => Err e
  | Panic msg => Panic msg
  end.

(** [nav.updir]: the top level is taken off the stack before [os.Chdir] is
    called. *)
Definition updir {P : Filepath} (fs : filesys) (n : t)
  : res unit * t * list act :=
  if len (dirs n) <=? 1 then (Ok tt, n, [])
  else
    match currDir n with
    | None =>
        (Panic "invalid memory address or nil pointer dereference", n, [])
    | Some d =>
        let n1 := setDirs n (take (List.length (dirs n) - 1) (dirs n)) in
        match fs_chdir fs (Dir (dir.path d)) with
        | Some e => (Err ("updir: " +:+ Error e), n1, [])
        | None => (Ok tt, n1, [Chdir (Dir (dir.path d))])
        end
    end.

(** [nav.toggle]. *)
Definition toggle (o : opts) (n : t) : res t :=
  match currFile n with
  | Ok curr => down o 1 (toggleMark (file.path curr) n)
  | Err _ => Ok n
  | Panic msg => Panic msg
  end.

(** [nav.invert]. *)
Definition invert {E : Extern} (n : t) : res t :=
  match currDir n with
  | None => Panic "index out of range"
  | Some last =>
      Ok (fold_left
            (fun n f => toggleMark (Join (dir.path last) (file.Name f)) n)
            (dir.fi last) n)
  end.

(** [match]. *)
Definition match_ {E : Extern} {P : Filepath} (so : searchopts)
  (pattern name : string) : res bool :=
  let lpattern := ToLower pattern in
  let fold :=
    ignorecase so && (negb (smartcase so) || String.eqb lpattern pattern) in
  let pattern' := if fold then lpattern else pattern in
  let name' := if fold then ToLower name else name in
  if globsearch so then
    match Match pattern' name' with
    | (_, Some err) => Err err
    | (matched, None) => Ok matched
    end
  else Ok (Contains name' pattern').

(** A loop [for i := ...; i < bound; i++] of [nav.searchNext] that looks at
    [last.fi[i]]: [rest] is [last.fi[i:]]. The answer is the first index
    whose name matches, if any; running off the slice is a panic. *)
Fixpoint seek {E : Extern} {P : Filepath} (so : searchopts)
  (pattern : string) (rest : list file.t) (i bound : Z) : res (option Z) :=
  match rest with
  | [] => if bound <=? i then Ok None else Panic "index out of range"
  | f :: rest' =>
      if bound <=? i then Ok None
      else
        match match_ so pattern (file.Name f) with
        | Ok true => Ok (Some i)
        | Ok false => seek so pattern rest' (i + 1) bound
        | Err e => Err e
        | Panic msg => Panic msg
        end
  end.

(** A loop [for i := ...; i > lower; i--] of [nav.searchPrev]: [before] is
    [last.fi[:i+1]] with its last entry first. *)
Fixpoint seekBack {E : Extern} {P : Filepath} (so : searchopts)
  (pattern : string) (before : list file.t) (i lower : Z)
  : res (option Z) :=
  match before with
  | [] => if i <=? lower then Ok None else Panic "index out of range"
  | f :: before' =>
      if i <=? lower then Ok None
      else
        match match_ so pattern (file.Name f) with
        | Ok true => Ok (Some i)
        | Ok false => seekBack so pattern before' (i - 1) lower
        | Err e => Err e
        | Panic msg => Panic msg
        end
  end.

(** [nav.searchNext]. *)
Definition searchNext {E : Extern} {P : Filepath} (o : opts)
  (so : searchopts) (n : t) : res t :=
  match currDir n with
  | None => Panic "index out of range"
  | Some last =>
      let i0 := addi (dir.ind last) 1 in
      let ahead :=
        if i0 <? 0 then
          if i0 <? len (dir.fi last) then Panic "index out of range"
          else Ok None
        else seek so (search n) (drop (Z.to_nat i0) (dir.fi last)) i0
                  (len (dir.fi last)) in
      match ahead with
      | Ok (Some i) => down o (subi i (dir.ind last)) n
      | Ok None =>
          if wrapscan so then
            match seek so (search n) (dir.fi last) 0 (dir.ind last) with
            | Ok (Some i) => up o (subi (dir.ind last) i) n
            | Ok None => Ok n
            | Err e => Err e
            | Panic msg => Panic msg
            end
          else Ok n
      | Err e => Err e
      | Panic msg => Panic msg
      end
  end.

(** [nav.searchPrev]. *)
Definition searchPrev {E : Extern} {P : Filepath} (o : opts)
  (so : searchopts) (n : t) : res t :=
  match currDir n with
  | None => Panic "index out of range"
  | Some last =>
      let i0 := subi (dir.ind last) 1 in
      let behind :=
        if i0 <? 0 then Ok None
        else if len (dir.fi last) <=? i0 then Panic "index out of range"
        else seekBack so (search n)
                      (rev (take (Z.to_nat i0 + 1) (dir.fi last))) i0 (-1) in
      match behind with
      | Ok (Some i) => up o (subi (dir.ind last) i) n
      | Ok None =>
          if wrapscan so then
            match seekBack so (search n) (rev (dir.fi last))
                           (subi (len (dir.fi last)) 1) (dir.ind last) with
            | Ok (Some i) => down o (subi i (dir.ind last)) n
            | Ok None => Ok n
            | Err e => Err e
            | Panic msg => Panic msg
            end
          else Ok n
      | Err e => Err e
      | Panic msg => Panic msg
      end
  end.

End nav.

(** ** Vocabulary of the statements *)

(** A [less] closure that only looks at the two entries. *)
Definition byElems {A : Type} (lt : A -> A -> bool) : lessfn A :=
  fun _ x _ y => lt x y.

(** [less] answers as [lt] whenever it is asked about a later and an earlier
    index, which is how the sort asks. *)
Definition agrees {A : Type} (less : lessfn A) (lt : A -> A -> bool) : Prop :=
  forall i x j y, (j < i)%nat -> less i x j y = lt x y.

(** A strict weak order, as [sort.Stable] expects of [Less]. *)
Definition strictWeak {A : Type} (lt : A -> A -> bool) : Prop :=
  (forall x y, lt x y = true -> lt y x = false) /\
  (forall x y z, lt x y = false -> lt y z = false -> lt x z = false).

(** No entry is below an earlier one. *)
Definition ascending {A : Type} (lt : A -> A -> bool) (s : list A) : Prop :=
  StronglySorted (fun x y => lt y x = false) s.
Definition descending {A : Type} (lt : A -> A -> bool) (s : list A) : Prop :=
  StronglySorted (fun x y => lt x y = false) s.

(** The stable partition of a slice: the entries with [p] first. *)
Definition part {A : Type} (p : A -> bool) (s : list A) : list A :=
  List.filter p s ++ List.filter (fun x => negb (p x)) s.

(** The comparison behind the directories-first and the hidden pass. *)
Definition ahead {A : Type} (p : A -> bool) : A -> A -> bool :=
  fun x y => p x && negb (p y).

(** Any two different entries are strictly ordered, one way or the other. *)
Definition noTies {A : Type} (lt : A -> A -> bool) (s : list A) : Prop :=
  forall x y, In x s -> In y s -> x = y \/ lt x y = true \/ lt y x = true.

(** The comparison of two entries under a sort key of [gOpts.sortby]; under
    an unknown key no entry is below another. *)
Definition keyLess {E : Extern} (key : string) : file.t -> file.t -> bool :=
  if String.eqb key "natural" then
    fun x y => naturalLess (ToLower (file.Name x)) (ToLower (file.Name y))
  else if String.eqb key "name" then
    fun x y => String.ltb (ToLower (file.Name x)) (ToLower (file.Name y))
  else if String.eqb key "size" then
    fun x y => file.Size x <? file.Size y
  else if String.eqb key "time" then
    fun x y => file.ModTime x <? file.ModTime y
  else fun _ _ => false.

(** Every entry of the listing has a name, as every [os.FileInfo] has. *)
Definition wellNamed (d : dir.t) : Prop :=
  Forall (fun f => file.named f = true) (dir.all d).

(** The array that [dir.fi] and [dir.all] share, after all passes of
    [dir.sort]. *)
Definition arrayAfterSort {E : Extern} (o : opts) (s : list file.t)
  : list file.t :=
  let s' := dir.arrange o s in
  if hidden o then s' else sortFilesStable s' dir.lessHidden.

(** The invariants of a listing's cursor under a viewport of [height] rows:
    [0 <= ind < len(fi)] (or [ind = pos = 0] when [fi] is empty) and
    [0 <= pos <= min(ind, height-1)]. *)
Definition cursorInv (height : Z) (d : dir.t) : Prop :=
  (dir.fi d = [] -> dir.ind d = 0 /\ dir.pos d = 0) /\
  (dir.fi d <> [] -> 0 <= dir.ind d < len (dir.fi d)) /\
  0 <= dir.pos d <= Z.min (dir.ind d) (height - 1).

(** A cursor operation of [nav] returned, and the listing on top of the
    stack satisfies the invariants. *)
Definition keepsCursor (r : res nav.t) : Prop :=
  exists n' d',
    r = Ok n' /\ nav.currDir n' = Some d' /\ cursorInv (nav.height n') d'.

(** [a] comes before [b] in a sequence of acts. *)
Definition precedes (a b : act) (acts : list act) : Prop :=
  exists l1 l2 l3, acts = l1 ++ a :: l2 ++ b :: l3.

(** A run of [nav.loadDir] requests, one after the other. *)
Fixpoint requests (paths : list string) (n : nav.t) : nav.t * list act :=
  match paths with
  | [] => (n, [])
  | path :: rest =>
      let '(_, n1, acts1) := nav.loadDir path n in
      let '(n2, acts2) := requests rest n1 in
      (n2, acts1 ++ acts2)
  end.

(** The number of [loadDir] goroutines for [path] among the acts. *)
Definition started (path : string) (acts : list act) : nat :=
  List.length
    (List.filter (fun a => match a with
                           | Go (LoadDirWorker q) => String.eqb q path
                           | _ => false
                           end) acts).

(** Marks toggled one after the other. *)
Definition toggles (paths : list string) (n : nav.t) : nav.t :=
  fold_left (fun n path => nav.toggleMark path n) paths n.

(** What a scan makes of one name: the entry it appends, if any, and the
    [Lstat] error other than not-found that makes it stop, if any. *)
Definition entryOf {E : Extern} (fs : filesys) (path name : string)
  : option file.t :=
  let fpath := Join path name in
  match fs_lstat fs fpath with
  | StatErr _ => None
  | StatOk lstat =>
      if negb (Z.land (Mode lstat) ModeSymlink =? 0) then
        match fs_stat fs fpath with
        | StatOk stat => Some (file.mk stat working fpath (-1))
        | StatErr _ => Some (file.mk lstat broken fpath (-1))
        end
      else Some (file.mk lstat notLink fpath (-1))
  end.

Definition stopsAt {E : Extern} (fs : filesys) (path name : string)
  : option oserror :=
  match fs_lstat fs (Join path name) with
  | StatErr e => if IsNotExist (Some e) then None else Some e
  | StatOk _ => None
  end.

(** The lines a scan logs for one name: one line for a symbolic link whose
    target [Stat] cannot examine, and none for any other name. *)
Definition logOf {E : Extern} (fs : filesys) (path name : string)
  : list string :=
  let fpath := Join path name in
  match fs_lstat fs fpath with
  | StatErr _ => []
  | StatOk lstat =>
      if negb (Z.land (Mode lstat) ModeSymlink =? 0) then
        match fs_stat fs fpath with
        | StatOk _ => []
        | StatErr serr =>
            ["getting link destination info: " +:+ Error serr]
        end
      else []
  end.

(** What [nav.preview] shows of a stream under a viewport of [height]
    rows: its first [height] lines, or the one line "binary" when one of
    these holds a NUL. *)
Definition binary : list string := [esc +:+ "[1mbinary" +:+ esc +:+ "[0m"].

Definition shown (height : Z) (st : stream) : list string :=
  let ls := take (Z.to_nat height) (st_lines st) in
  if existsb nav.hasNul ls then binary else ls.

(** The stream behind the preview of [path]: the output of the previewer
    when one is configured, else the file, which gives nothing when it
    cannot be opened. *)
Definition previewed (o : opts) (sys : previewsys) (path : string)
  (height : Z) : stream :=
  if String.eqb (previewer o) "" then
    match pv_open sys path with
    | Some _ => mkStream [] (Some "invalid argument")
    | None => pv_file sys path
    end
  else run_out (pv_cmd sys (previewer o) path height).

(** The pipe to the previewer could be made, where a previewer is
    configured. *)
Definition piped (o : opts) (sys : previewsys) (path : string) (height : Z)
  : Prop :=
  previewer o = "" \/
  run_pipe (pv_cmd sys (previewer o) path height) = None.

(** ** Vocabulary of further statements *)

(** The marks carry different indices, none negative and all below the
    counter. *)
Definition marksInv (n : nav.t) : Prop :=
  0 <= nav.markInd n /\
  (forall p i, nav.marks n !! p = Some i -> 0 <= i < nav.markInd n) /\
  (forall p q i, nav.marks n !! p = Some i -> nav.marks n !! q = Some i ->
                 p = q).

(** A call returned, with or without an error: it did not panic. *)
Definition returns {A : Type} (r : res A) : Prop :=
  match r with
  | Panic _ => False
  | _ => True
  end.

(** The cursor of a listing is on one of its entries; on an empty listing
    it is at [0], or at [-1] where [bot] leaves it. *)
Definition cursorOn (d : dir.t) : Prop :=
  len (dir.fi d) <= intMax /\
  ((dir.fi d = [] /\ -1 <= dir.ind d <= 0) \/
   0 <= dir.ind d < len (dir.fi d)).

(** A navigation state as the commands keep it: a stack that is not empty,
    every [*dir] of the stack and of the cache in the heap, and every
    cursor on an entry. *)
Definition sound (n : nav.t) : Prop :=
  nav.dirs n <> [] /\
  Forall cursorOn (nav.heap n) /\
  (forall p, In p (nav.dirs n) -> (p < List.length (nav.heap n))%nat) /\
  (forall path p, nav.dirCache n !! path = Some p ->
                  (p < List.length (nav.heap n))%nat).

(** What [readdir] says of an entry [f] it returns, given the names [N] of
    the directory. *)
Definition scanned {E : Extern} (fs : filesys) (path : string) (N : list string)
  (f : file.t) : Prop :=
  exists name lstat,
    In name N /\ fs_lstat fs (Join path name) = StatOk lstat /\
    file.path f = Join path name /\ file.count f = -1 /\
    match file.linkState f with
    | notLink =>
        Z.land (Mode lstat) ModeSymlink = 0 /\ file.FileInfo f = lstat
    | working =>
        Z.land (Mode lstat) ModeSymlink <> 0 /\
        fs_stat fs (Join path name) = StatOk (file.FileInfo f)
    | broken =>
        Z.land (Mode lstat) ModeSymlink <> 0 /\ file.FileInfo f = lstat /\
        exists e, fs_stat fs (Join path name) = StatErr e
    end.

(** A listing [nav.sort] can work on: entries with names, and the cursor on
    an entry (or at [0] on an empty listing). *)
Definition sortable (d : dir.t) : Prop :=
  wellNamed d /\ len (dir.all d) <= intMax /\ 0 <= dir.ind d /\
  (dir.fi d = [] \/ dir.ind d < len (dir.fi d)).

(** [d'] holds the entries of [d], and its cursor is on an entry with the
    name of the entry [d]'s cursor was on, if such an entry is visible in
    [d']. *)
Definition sameCursorName (d d' : dir.t) : Prop :=
  dir.all d' ≡ₚ dir.all d /\ dir.path d' = dir.path d /\
  forall f0,
    dir.fi d <> [] -> index (dir.fi d) (dir.ind d) = Some f0 ->
    (exists f, In f (dir.fi d') /\ file.Name f = file.Name f0) ->
    exists f', index (dir.fi d') (dir.ind d') = Some f' /\
               file.Name f' = file.Name f0.

(** [match] answers yes, or no, for the name of [f]. *)
Definition matches {E : Extern} {P : Filepath} (so : searchopts)
  (pattern : string) (f : file.t) : Prop :=
  nav.match_ so pattern (file.Name f) = Ok true.

Definition misses {E : Extern} {P : Filepath} (so : searchopts)
  (pattern : string) (f : file.t) : Prop :=
  nav.match_ so pattern (file.Name f) = Ok false.

(** The current listing of [n] shows the files [fi] with the cursor on
    row [i]. *)
Definition cursorAt (n : nav.t) (fi : list file.t) (i : Z) : Prop :=
  exists d, nav.currDir n = Some d /\ dir.fi d = fi /\ dir.ind d = i.

(** The entries [dir.sort] shows: all of them with [hidden] on, else those
    whose name does not start with a dot. *)
Definition visible (o : opts) (f : file.t) : bool :=
  hidden o || negb (file.dot f).

(** In the order of the sort key, or in the opposite order under
    [reverse]. *)
Definition inOrder {E : Extern} (o : opts) (s : list file.t) : Prop :=
  if reverse o then descending (keyLess (sortby o)) s
  else ascending (keyLess (sortby o)) s.

(** [y] has the rank of [x] for [dir.sort]: neither is below the other
    under the sort key and, with [dirfirst], both are directories or
    neither is. *)
Definition sameRank {E : Extern} (o : opts) (x y : file.t) : bool :=
  negb (keyLess (sortby o) x y) && negb (keyLess (sortby o) y x) &&
  (negb (dirfirst o) || Bool.eqb (file.IsDir x) (file.IsDir y)).

(** The paths [nav.invert] toggles. *)
Definition visiblePaths {E : Extern} (d : dir.t) : list string :=
  (fun f => Join (dir.path d) (file.Name f)) <$> dir.fi d.

(** ** A concrete setting for the examples *)

Definition lowerByte (c : ascii) : ascii :=
  let n := nat_of_ascii c in
  if ((65 <=? n) && (n <=? 90))%nat then ascii_of_nat (n + 32) else c.

Fixpoint lowerASCII (s : string) : string :=
  match s with
  | EmptyString => EmptyString
  | String c rest => String (lowerByte c) (lowerASCII rest)
  end.

(** Names of ASCII letters, compared byte by byte where the natural order
    is asked for, and paths joined with a slash. *)
Definition posix : Extern :=
  {| ToLower := lowerASCII;
     naturalLess := String.ltb;
     Join := fun d name => d +:+ "/" +:+ name |}.

Definition regular (name : string) (size time : Z) : file.t :=
  file.mk (mkInfo name size 420 time) notLink ("/home/" +:+ name) (-1).

Definition folder (name : string) (time : Z) : file.t :=
  file.mk (mkInfo name 4096 (Z.lor ModeDir 493) time) notLink
          ("/home/" +:+ name) (-1).

Definition listing (path : string) (s : list file.t) (ind pos : Z) : dir.t :=
  dir.mk false 0 ind pos path s s.

Definition bySize (rev : bool) : opts := mkOpts "size" rev false true 0 "".
Definition byName (hid : bool) : opts := mkOpts "name" false false hid 0 "".
Definition natural : opts := mkOpts "natural" true true false 0 "".

Definition margin (scrolloff : Z) : opts :=
  mkOpts "name" false false true scrolloff "".

(** Ten entries [a] to [j]. *)
Definition ten : list file.t :=
  (fun c => regular (String c "") 1 1) <$> list_ascii_of_string "abcdefghij".

(** The ten entries with the cursor on the ninth, in the third row. *)
Definition shelf : dir.t := listing "/home" ten 8 2.

(** A navigation state with one listing on the stack. *)
Definition browsing (d : dir.t) (height : Z) : nav.t :=
  nav.mk [d] [0%nat] {[dir.path d := 0%nat]} ∅ ∅ ∅ 0 height "".

(** A directory [/home] with a regular file, a name that is gone by the
    time of [Lstat], a symbolic link to nowhere, an entry whose [Lstat]
    fails, and a subdirectory; [/gone] does not exist. *)
Definition diskLstat (p : string) : os_FileInfo + errno :=
  if String.eqb p "/home" then
    inl (mkInfo "home" 4096 (Z.lor ModeDir 493) 4)
  else if String.eqb p "/home/a.txt" then
    inl (mkInfo "a.txt" 12 420 7)
  else if String.eqb p "/home/dangling" then
    inl (mkInfo "dangling" 9 (Z.lor ModeSymlink 511) 8)
  else if String.eqb p "/home/locked" then inr EIO
  else if String.eqb p "/home/sub" then
    inl (mkInfo "sub" 4096 (Z.lor ModeDir 493) 5)
  else inr ENOENT.

Definition diskStat (p : string) : os_FileInfo + errno :=
  if String.eqb p "/home/dangling" then inr ENOENT else diskLstat p.

(** The answer of the call [op] on [p]: an error is a [*os.PathError] with
    the name of the call and the path. *)
Definition answer (op p : string) (r : os_FileInfo + errno) : statres :=
  match r with
  | inl s => StatOk s
  | inr e => StatErr (PathError op p e)
  end.

Definition disk : filesys :=
  {| fs_open := fun p =>
       match diskStat p with
       | inl _ => None
       | inr e => Some (PathError "open" p e)
       end;
     fs_names := fun p =>
       if String.eqb p "/home"
       then (["a.txt"; "ghost"; "dangling"; "locked"; "sub"], None)
       else
         match diskStat p with
         | inl s => if IsDir s then ([], None)
                    else ([], Some (PathError "readdirent" p ENOTDIR))
         | inr e => ([], Some (PathError "readdirent" p e))
         end;
     fs_lstat := fun p => answer "lstat" p (diskLstat p);
     fs_stat := fun p => answer "stat" p (diskStat p);
     fs_chdir := fun p =>
       match diskStat p with
       | inl s => if IsDir s then None
                  else Some (PathError "chdir" p ENOTDIR)
       | inr e => Some (PathError "chdir" p e)
       end |}.

(** [/home] as listed, with the cursor on the regular file [a.txt]. *)
Definition desk : dir.t :=
  listing "/home" [regular "a.txt" 12 7; folder "sub" 5] 0 0.

(** The same with the cursor on the directory [sub]. *)
Definition deskSub : dir.t :=
  listing "/home" [regular "a.txt" 12 7; folder "sub" 5] 1 1.

(** A listing of a directory that has been removed since. *)
Definition gone : dir.t := listing "/gone" [] 0 0.

(** A system where the output pipe of a previewer cannot be made, the
    process having too many files open; the previewer itself starts. *)
Definition noPipe : previewsys :=
  mkPv (fun _ _ _ => mkRun (Some (OtherError "pipe2: too many open files"))
                           None (mkStream [] None))
       (fun _ => None) (fun _ => mkStream [] None).
Definition withPreviewer : opts := mkOpts "name" false false true 0 "pv".

(** A system where [/home/a.txt] holds three lines and [/home/sub], a
    directory, can be opened but not read; a previewer prints nothing. *)
Definition files : previewsys :=
  mkPv (fun _ _ _ => mkRun None None (mkStream [] None))
       (fun p => match diskStat p with
                 | inl _ => None
                 | inr e => Some (PathError "open" p e)
                 end)
       (fun p => if String.eqb p "/home/a.txt"
                 then mkStream ["one"; "two"; "three"] None
                 else mkStream [] (Some ("read " +:+ p +:+ ": is a directory"))).

(** The parent of a clean absolute path, and the matching of a pattern
    without metacharacters (a lone bracket being malformed): what
    [filepath.Dir] and [filepath.Match] give on such arguments. *)
Fixpoint dropLast (s : string) : string :=
  match s with
  | EmptyString => EmptyString
  | String c rest =>
      if Contains rest "/" then String c (dropLast rest) else EmptyString
  end.

Definition plain : Filepath :=
  {| Dir := fun p => match dropLast p with
                     | EmptyString => "/"
                     | parent => parent
                     end;
     Match := fun pattern name =>
       if String.eqb pattern "[" then (false, Some "syntax error in pattern")
       else (String.eqb pattern name, None) |}.

(** The entries [b.txt], [a.txt], [.hidden], as scanned. *)
Definition home : dir.t :=
  listing "/home"
    [regular "b.txt" 2 10; regular "a.txt" 1 20; regular ".hidden" 3 30] 0 0.

(** Two entries of the same size. *)
Definition twins : dir.t :=
  listing "/home" [regular "a" 1 10; regular "b" 1 20] 0 0.

(** The ten entries [a] to [j] with the cursor on row [ind], after a search
    for [pattern]. *)
Definition searching (pattern : string) (ind : Z) : nav.t :=
  nav.mk [listing "/home" ten ind 0] [0%nat] {["/home" := 0%nat]} ∅ ∅ ∅ 0 5
         pattern.

(** A search for a substring that wraps around. *)
Definition literal : searchopts := mkSearch false false false true.

(** ** Insertion sort *)

Section InsertionSort.

Context {A : Type}.
Implicit Types (lt : A -> A -> bool) (less : lessfn A) (s l : list A).

Local Abbreviation ins lt acc l :=
  (fold_left (fun s x => insertBack (byElems lt) x s) l acc).

Lemma insertBack_agrees less lt x s :
  agrees less lt -> insertBack less x s = insertBack (byElems lt) x s.
Proof.
  intros Hag. induction s as [|y s IH]; simpl; [reflexivity|].
  rewrite Hag by lia. unfold byElems at 1. now rewrite IH.
Qed.

Lemma insertionSort_agrees less lt l :
  agrees less lt -> insertionSort less l = insertionSort (byElems lt) l.
Proof.
  intros Hag. unfold insertionSort. f_equal.
  generalize (@nil A) as acc.
  induction l as [|x l IH]; intros acc; simpl; [reflexivity|].
  now rewrite (insertBack_agrees less lt), IH.
Qed.

Lemma insertBack_Permutation less x s : insertBack less x s ≡ₚ x :: s.
Proof.
  induction s as [|y s IH]; simpl; [reflexivity|].
  destruct (less _ _ _ _); [|reflexivity].
  rewrite IH. apply perm_swap.
Qed.

Lemma insertionSort_Permutation less l : insertionSort less l ≡ₚ l.
Proof.
  unfold insertionSort. rewrite <- Permutation_rev.
  assert (H : forall acc,
             fold_left (fun s x => insertBack less x s) l acc ≡ₚ acc ++ l).
  { induction l as [|x l IH]; intros acc; simpl.
    - now rewrite app_nil_r.
    - rewrite IH, insertBack_Permutation. simpl.
      apply Permutation_middle. }
  apply (H []).
Qed.

Lemma ins_snoc lt acc l x :
  ins lt acc (l ++ [x]) = insertBack (byElems lt) x (ins lt acc l).
Proof. now rewrite fold_left_app. Qed.

(** [x] stays where it is when the entry before it is not above it. *)
Lemma insertBack_stay lt x s :
  (forall y, head s = Some y -> lt x y = false) ->
  insertBack (byElems lt) x s = x :: s.
Proof.
  destruct s as [|y s]; simpl; [reflexivity|].
  intros H. unfold byElems. now rewrite (H y eq_refl).
Qed.

Lemma insertBack_descending lt x s :
  strictWeak lt -> descending lt s ->
  descending lt (insertBack (byElems lt) x s).
Proof.
  intros [Hasym Hneg] Hs. induction Hs as [|y s Hs IH Hy]; simpl.
  - repeat constructor.
  - unfold byElems at 1. destruct (lt x y) eqn:Hxy.
    + constructor; [exact IH|].
      rewrite insertBack_Permutation. constructor; [|exact Hy].
      now apply Hasym.
    + constructor; [now constructor|].
      constructor; [exact Hxy|].
      eapply Forall_impl; [exact Hy|]. intros z Hz. now apply (Hneg x y z).
Qed.

Lemma ins_descending lt l :
  strictWeak lt -> descending lt (ins lt [] l).
Proof.
  intros Hsw. induction l as [|x l IH] using rev_ind.
  - constructor.
  - rewrite ins_snoc. now apply insertBack_descending.
Qed.

Lemma descending_rev lt s : descending lt s -> ascending lt (rev s).
Proof.
  intros Hs. induction Hs as [|y s Hs IH Hy]; simpl; [constructor|].
  apply StronglySorted_app; split_and!; [|exact IH|repeat constructor].
  intros x1 x2 H1 H2. apply list_elem_of_singleton in H2. subst x2.
  rewrite Forall_forall in Hy. apply Hy.
  now apply list_elem_of_In, in_rev, list_elem_of_In.
Qed.

Lemma ascending_rev lt s : ascending lt s -> descending lt (rev s).
Proof.
  intros Hs. induction Hs as [|y s Hs IH Hy]; simpl; [constructor|].
  apply StronglySorted_app; split_and!; [|exact IH|repeat constructor].
  intros x1 x2 H1 H2. apply list_elem_of_singleton in H2. subst x2.
  rewrite Forall_forall in Hy. apply Hy.
  now apply list_elem_of_In, in_rev, list_elem_of_In.
Qed.

Lemma insertionSort_ascending lt l :
  strictWeak lt -> ascending lt (insertionSort (byElems lt) l).
Proof. intros Hsw. now apply descending_rev, ins_descending. Qed.

(** A slice in order is left as it is. *)
Lemma insertionSort_sorted lt l :
  ascending lt l -> insertionSort (byElems lt) l = l.
Proof.
  intros Hl. unfold insertionSort.
  enough (ins lt [] l = rev l) as -> by apply rev_involutive.
  induction l as [|x l IH] using rev_ind; [reflexivity|].
  rewrite ins_snoc, rev_unit.
  apply StronglySorted_app in Hl as (Hx & Hl & _).
  rewrite (IH Hl). apply insertBack_stay.
  intros y Hy. apply Hx.
  - apply list_elem_of_In, in_rev, list_elem_of_In.
    destruct (rev l); simplify_eq/=. left.
  - left.
Qed.

Lemma insertionSort_idem lt l :
  strictWeak lt ->
  insertionSort (byElems lt) (insertionSort (byElems lt) l)
  = insertionSort (byElems lt) l.
Proof. intros Hsw. now apply insertionSort_sorted, insertionSort_ascending. Qed.

End InsertionSort.

(** ** A stable sort and the filters *)

Section SortFilter.

Context {A : Type}.
Implicit Types (lt : A -> A -> bool) (p q : A -> bool) (s l : list A).

Lemma insertBack_filter_out less p x s :
  p x = false ->
  List.filter p (insertBack less x s) = List.filter p s.
Proof.
  intros Hp. induction s as [|y s IH]; simpl.
  - now rewrite Hp.
  - destruct (less _ _ _ _); simpl; [now rewrite IH|now rewrite Hp].
Qed.

Lemma insertBack_filter lt p x s :
  strictWeak lt -> descending lt s -> p x = true ->
  List.filter p (insertBack (byElems lt) x s)
  = insertBack (byElems lt) x (List.filter p s).
Proof.
  intros [Hasym Hneg] Hs Hp. unfold byElems.
  induction Hs as [|y s Hs IH Hy]; simpl.
  - now rewrite Hp.
  - destruct (lt x y) eqn:Hxy; simpl.
    + destruct (p y); simpl; [|exact IH]. now rewrite Hxy, IH.
    + rewrite Hp. destruct (p y); simpl.
      * now rewrite Hxy.
      * symmetry. apply (insertBack_stay lt). intros z Hz.
        apply (Hneg x y z Hxy).
        rewrite Forall_forall in Hy. apply Hy.
        apply list_elem_of_In, (proj1 (List.filter_In p z s)).
        destruct (List.filter p s); simplify_eq/=. now left.
Qed.

(** Sorting the entries that pass a filter is filtering the sorted
    slice. *)
Lemma insertionSort_filter lt p l :
  strictWeak lt ->
  List.filter p (insertionSort (byElems lt) l)
  = insertionSort (byElems lt) (List.filter p l).
Proof.
  intros Hsw. unfold insertionSort. rewrite List.filter_rev. f_equal.
  induction l as [|x l IH] using rev_ind; [reflexivity|].
  rewrite List.filter_app, !fold_left_app. simpl.
  destruct (p x) eqn:Hp; simpl.
  - rewrite insertBack_filter; auto using ins_descending.
    now rewrite IH.
  - rewrite insertBack_filter_out by exact Hp.
    now rewrite IH.
Qed.

Lemma ahead_strictWeak p : strictWeak (ahead p).
Proof.
  unfold ahead. split.
  - intros x y. destruct (p x), (p y); simpl; congruence.
  - intros x y z. destruct (p x), (p y), (p z); simpl; congruence.
Qed.

Lemma filter_ascending p l : ascending (ahead p) (List.filter p l).
Proof.
  induction l as [|x l IH]; simpl; [constructor|].
  destruct (p x) eqn:Hx; [|exact IH].
  constructor; [exact IH|].
  apply Forall_forall. intros y Hy.
  unfold ahead. now rewrite Hx, andb_false_r.
Qed.

Lemma filter_not_ascending p l :
  ascending (ahead p) (List.filter (fun x => negb (p x)) l).
Proof.
  induction l as [|x l IH]; simpl; [constructor|].
  destruct (p x) eqn:Hx; simpl; [exact IH|].
  constructor; [exact IH|].
  apply Forall_forall. intros y Hy.
  apply list_elem_of_In, List.filter_In in Hy as [_ Hy].
  apply negb_true_iff in Hy. unfold ahead. now rewrite Hy.
Qed.

Lemma part_ascending p s : ascending (ahead p) (part p s).
Proof.
  unfold part, ascending. apply StronglySorted_app; split_and!.
  - intros x y Hx Hy.
    apply list_elem_of_In, List.filter_In in Hy as [_ Hy].
    apply negb_true_iff in Hy. unfold ahead. now rewrite Hy.
  - apply filter_ascending.
  - apply filter_not_ascending.
Qed.

Lemma ascending_part p s : ascending (ahead p) s -> part p s = s.
Proof.
  unfold part. intros Hs.
  induction Hs as [|x s Hs IH Hx]; simpl; [reflexivity|].
  destruct (p x) eqn:Hpx; simpl; [now rewrite IH|].
  assert (Hnone : List.filter p s = []).
  { clear IH Hs. induction s as [|y s IH]; simpl; [reflexivity|].
    apply Forall_cons in Hx as [Hy Hx]. unfold ahead in Hy.
    rewrite Hpx in Hy. simpl in Hy. rewrite andb_true_r in Hy.
    rewrite Hy. now apply IH. }
  rewrite Hnone in *. simpl in *. now rewrite IH.
Qed.

Lemma filter_part_same p s : List.filter p (part p s) = List.filter p s.
Proof.
  unfold part. rewrite List.filter_app.
  rewrite (forallb_filter_id p (List.filter p s)) by apply forallb_filter.
  enough (List.filter p (List.filter (fun x => negb (p x)) s) = []) as ->
      by apply app_nil_r.
  induction s as [|x s IH]; simpl; [reflexivity|].
  destruct (p x) eqn:Hx; simpl; [exact IH|]. now rewrite Hx.
Qed.

Lemma filter_part_other p s :
  List.filter (fun x => negb (p x)) (part p s)
  = List.filter (fun x => negb (p x)) s.
Proof.
  unfold part. rewrite List.filter_app.
  rewrite (forallb_filter_id (fun x => negb (p x))
             (List.filter (fun x => negb (p x)) s)) by apply forallb_filter.
  enough (List.filter (fun x => negb (p x)) (List.filter p s) = []) as ->
      by reflexivity.
  induction s as [|x s IH]; simpl; [reflexivity|].
  destruct (p x) eqn:Hx; simpl; [|exact IH]. now rewrite Hx.
Qed.

Lemma filter_comm p q s :
  List.filter p (List.filter q s) = List.filter q (List.filter p s).
Proof.
  induction s as [|x s IH]; simpl; [reflexivity|].
  destruct (p x) eqn:Hp, (q x) eqn:Hq; simpl; rewrite ?Hp, ?Hq, IH; reflexivity.
Qed.

Lemma filter_part p q s :
  List.filter p (part q s) = part q (List.filter p s).
Proof.
  unfold part. now rewrite List.filter_app, !(filter_comm p).
Qed.

Lemma part_Permutation p s : part p s ≡ₚ s.
Proof.
  unfold part. induction s as [|x s IH]; simpl; [reflexivity|].
  destruct (p x); simpl; [now rewrite IH|].
  now rewrite <- Permutation_middle, IH.
Qed.

(** A stable sort by [ahead p] is the stable partition by [p]. *)
Lemma insertionSort_part p l :
  insertionSort (byElems (ahead p)) l = part p l.
Proof.
  pose proof (ahead_strictWeak p) as Hsw.
  rewrite <- (ascending_part p (insertionSort _ l))
    by now apply insertionSort_ascending.
  unfold part. rewrite !insertionSort_filter by exact Hsw.
  now rewrite !insertionSort_sorted
    by auto using filter_ascending, filter_not_ascending.
Qed.

End SortFilter.

(** ** The comparisons of [dir.sort] *)

Lemma strictWeak_on {A B : Type} (lt : B -> B -> bool) (k : A -> B) :
  strictWeak lt -> strictWeak (fun x y => lt (k x) (k y)).
Proof.
  intros [Hasym Hneg]. split.
  - intros x y. apply Hasym.
  - intros x y z. apply Hneg.
Qed.

Lemma Zltb_strictWeak : strictWeak Z.ltb.
Proof. split; intros; lia. Qed.

Lemma String_ltb_lt a b : String.ltb a b = true <-> String_as_OT.lt a b.
Proof.
  rewrite <- String_as_OT.cmp_lt. unfold String.ltb, String_as_OT.cmp.
  destruct (String.compare a b); split; congruence.
Qed.

Lemma String_ltb_strictWeak : strictWeak String.ltb.
Proof.
  split.
  - intros a b. unfold String.ltb. rewrite (String.compare_antisym b a).
    destruct (String.compare a b); simpl; congruence.
  - intros a b c Hab Hbc.
    destruct (String.ltb a c) eqn:Hac; [exfalso|reflexivity].
    apply String_ltb_lt in Hac.
    destruct (String.compare a b) eqn:Hc.
    + apply String.compare_eq_iff in Hc. subst b.
      apply String_ltb_lt in Hac. congruence.
    + unfold String.ltb in Hab. rewrite Hc in Hab. discriminate.
    + assert (Hba : String_as_OT.lt b a).
      { apply String_ltb_lt. unfold String.ltb.
        rewrite String.compare_antisym, Hc. reflexivity. }
      pose proof (String_as_OT.lt_trans _ _ _ Hba Hac) as Hlt.
      apply String_ltb_lt in Hlt. congruence.
Qed.

Lemma never_strictWeak {A : Type} : strictWeak (fun _ _ : A => false).
Proof. split; reflexivity. Qed.

Section DirSort.

Context {E : Extern}.

Lemma keyLess_strictWeak key :
  (key = "natural" -> strictWeak naturalLess) -> strictWeak (keyLess key).
Proof.
  intros Hnat. unfold keyLess.
  destruct (String.eqb_spec key "natural") as [Hk|_].
  { apply (strictWeak_on naturalLess), Hnat, Hk. }
  destruct (String.eqb key "name").
  { apply (strictWeak_on String.ltb), String_ltb_strictWeak. }
  destruct (String.eqb key "size").
  { apply (strictWeak_on Z.ltb), Zltb_strictWeak. }
  destruct (String.eqb key "time").
  { apply (strictWeak_on Z.ltb), Zltb_strictWeak. }
  apply never_strictWeak.
Qed.

(** The [switch] of [dir.sort] is a stable sort by [keyLess]. *)
Lemma sortByKey_keyLess key s :
  dir.sortByKey key s = insertionSort (byElems (keyLess key)) s.
Proof.
  unfold dir.sortByKey, keyLess, sortFilesStable.
  destruct (String.eqb key "natural"); [reflexivity|].
  destruct (String.eqb key "name"); [reflexivity|].
  destruct (String.eqb key "size"); [reflexivity|].
  destruct (String.eqb key "time"); [reflexivity|].
  symmetry. apply insertionSort_sorted.
  induction s; constructor; [assumption|]. now apply Forall_forall.
Qed.

(** The sort asks [less] about a later and an earlier index only, where
    the [i < j] of the two tie-breaking closures is false. *)
Lemma lessDirFirst_agrees : agrees dir.lessDirFirst (ahead file.IsDir).
Proof.
  intros i x j y Hij. unfold dir.lessDirFirst, ahead.
  replace (i <? j)%nat with false by (symmetry; apply Nat.ltb_ge; lia).
  destruct (file.IsDir x), (file.IsDir y); reflexivity.
Qed.

Lemma lessHidden_agrees : agrees dir.lessHidden (ahead file.dot).
Proof.
  intros i x j y Hij. unfold dir.lessHidden, ahead.
  replace (i <? j)%nat with false by (symmetry; apply Nat.ltb_ge; lia).
  destruct (file.dot x), (file.dot y); reflexivity.
Qed.

Lemma sortFilesStable_dirfirst s :
  sortFilesStable s dir.lessDirFirst = part file.IsDir s.
Proof.
  unfold sortFilesStable.
  rewrite (insertionSort_agrees _ _ _ lessDirFirst_agrees).
  apply insertionSort_part.
Qed.

Lemma sortFilesStable_hidden s :
  sortFilesStable s dir.lessHidden = part file.dot s.
Proof.
  unfold sortFilesStable.
  rewrite (insertionSort_agrees _ _ _ lessHidden_agrees).
  apply insertionSort_part.
Qed.

End DirSort.

(** ** The passes of [dir.sort] as one pipeline *)

Section Pipeline.

Context {A : Type}.
Implicit Types (p q r : A -> bool) (s l : list A) (K : list A -> list A).

Lemma part_true s : part (fun _ => true) s = s.
Proof.
  unfold part. rewrite List.filter_true. simpl.
  enough (List.filter (fun _ : A => false) s = []) as -> by apply app_nil_r.
  induction s; auto.
Qed.

Lemma part_part q p s :
  part q (part p s)
  = (List.filter q (List.filter p s)
     ++ List.filter q (List.filter (fun x => negb (p x)) s))
    ++ (List.filter (fun x => negb (q x)) (List.filter p s)
        ++ List.filter (fun x => negb (q x))
             (List.filter (fun x => negb (p x)) s)).
Proof.
  unfold part at 1. unfold part. now rewrite !List.filter_app.
Qed.

(** One of the four classes of entries, after a second run. *)
Lemma class_again K p q p' q' l :
  (forall r s, List.filter r (K s) = K (List.filter r s)) ->
  (forall r1 r2, K (K (List.filter r1 (List.filter r2 l)))
                 = K (List.filter r1 (List.filter r2 l))) ->
  (forall s, List.filter p' (part p s) = List.filter p' s) ->
  (forall s, List.filter q' (part q s) = List.filter q' s) ->
  List.filter q' (List.filter p' (K (part q (part p (K l)))))
  = List.filter q' (List.filter p' (K l)).
Proof.
  intros Hfilter Hidem Hp Hq.
  rewrite !Hfilter, filter_part, Hq, Hp, !Hfilter.
  apply Hidem.
Qed.

Lemma pipeline_again K p q l :
  (forall r s, List.filter r (K s) = K (List.filter r s)) ->
  (forall r1 r2, K (K (List.filter r1 (List.filter r2 l)))
                 = K (List.filter r1 (List.filter r2 l))) ->
  part q (part p (K (part q (part p (K l))))) = part q (part p (K l)).
Proof.
  intros Hfilter Hidem.
  rewrite (part_part q p (K (part q (part p (K l))))).
  rewrite !(class_again K p q) by
    auto using filter_part_same, filter_part_other.
  symmetry. apply part_part.
Qed.

Lemma noTies_filter lt r s : noTies lt s -> noTies lt (List.filter r s).
Proof.
  intros H x y Hx Hy. apply List.filter_In in Hx as [Hx _].
  apply List.filter_In in Hy as [Hy _]. now apply H.
Qed.

(** With no ties there is only one way to put a slice in order. *)
Lemma ascending_unique lt s l1 l2 :
  noTies lt s -> l1 ≡ₚ s -> l2 ≡ₚ s ->
  ascending lt l1 -> ascending lt l2 -> l1 = l2.
Proof.
  intros Hs H1 H2 Ha1 Ha2.
  apply (StronglySorted_unique_strong (fun x y => lt y x = false));
    [|assumption|assumption|now rewrite H1, H2].
  intros x y Hx Hy Hxy Hyx.
  rewrite H1 in Hx. rewrite H2 in Hy.
  apply list_elem_of_In in Hx, Hy.
  destruct (Hs x y Hx Hy) as [|[|]]; [assumption|congruence..].
Qed.

(** Sorting and reversing twice: as once, when there are no ties. *)
Lemma sort_rev_again lt l :
  strictWeak lt -> noTies lt l ->
  rev (insertionSort (byElems lt) (rev (insertionSort (byElems lt) l)))
  = rev (insertionSort (byElems lt) l).
Proof.
  intros Hsw Hl. f_equal.
  apply (ascending_unique lt l); auto using insertionSort_ascending.
  - now rewrite insertionSort_Permutation, <- Permutation_rev,
      insertionSort_Permutation.
  - apply insertionSort_Permutation.
Qed.

End Pipeline.

(** ** [dir.sort] *)

Section SortListing.

Context {E : Extern}.
Implicit Types (o : opts) (d : dir.t) (s : list file.t).

(** The key sort followed by the optional reversal. *)
Let keyed o s : list file.t :=
  let s1 := insertionSort (byElems (keyLess (sortby o))) s in
  if reverse o then rev s1 else s1.
Let dirPred o : file.t -> bool :=
  if dirfirst o then file.IsDir else fun _ => true.
Let hidPred o : file.t -> bool :=
  if hidden o then fun _ => true else file.dot.

Lemma arrayAfterSort_pipeline o s :
  arrayAfterSort o s = part (hidPred o) (part (dirPred o) (keyed o s)).
Proof.
  unfold arrayAfterSort, dir.arrange, hidPred, dirPred, keyed.
  rewrite sortByKey_keyLess.
  destruct (hidden o), (dirfirst o);
    now rewrite ?sortFilesStable_hidden, ?sortFilesStable_dirfirst, ?part_true.
Qed.

Lemma keyed_Permutation o s : keyed o s ≡ₚ s.
Proof.
  unfold keyed. destruct (reverse o);
    now rewrite <- ?Permutation_rev, insertionSort_Permutation.
Qed.

Lemma arrayAfterSort_Permutation o s : arrayAfterSort o s ≡ₚ s.
Proof.
  rewrite arrayAfterSort_pipeline.
  now rewrite !part_Permutation, keyed_Permutation.
Qed.

Lemma arrange_Permutation o s : dir.arrange o s ≡ₚ s.
Proof.
  pose proof (arrayAfterSort_Permutation
                (mkOpts (sortby o) (reverse o) (dirfirst o) true
                        (scrolloff o) (previewer o)) s) as H.
  exact H.
Qed.

(** What [dir.sort] leaves behind on a listing whose entries have names. *)
Lemma sort_wellNamed o d :
  wellNamed d ->
  dir.sort o d
  = Some (dir.setFiles d
            (if hidden o then arrayAfterSort o (dir.all d)
             else dropHidden (arrayAfterSort o (dir.all d)))
            (arrayAfterSort o (dir.all d))).
Proof.
  intros Hd. unfold dir.sort, arrayAfterSort.
  destruct (hidden o); [reflexivity|].
  replace (forallb file.named (dir.arrange o (dir.all d))) with true;
    [reflexivity|].
  symmetry. apply forallb_forall. intros f Hf.
  unfold wellNamed in Hd. rewrite Forall_forall in Hd.
  apply Hd. rewrite <- (arrange_Permutation o).
  now apply list_elem_of_In.
Qed.

Lemma dropHidden_suffix s :
  exists hid, s = hid ++ dropHidden s /\ Forall (fun f => file.dot f = true) hid.
Proof.
  induction s as [|f s (hid & Hs & Hhid)]; simpl.
  - exists []. split; [reflexivity|constructor].
  - destruct (file.dot f) eqn:Hf.
    + exists (f :: hid). split; [simpl; congruence|now constructor].
    + exists []. split; [reflexivity|constructor].
Qed.

Lemma dropHidden_part s :
  dropHidden (part file.dot s)
  = List.filter (fun f => negb (file.dot f)) s.
Proof.
  unfold part.
  assert (H1 : forall a b, Forall (fun f => file.dot f = true) a ->
                           dropHidden (a ++ b) = dropHidden b).
  { intros a b Ha. induction Ha as [|f a Hf Ha IH]; simpl; [reflexivity|].
    now rewrite Hf. }
  rewrite H1.
  - induction s as [|f s IH]; simpl; [reflexivity|].
    destruct (file.dot f) eqn:Hf; simpl; [exact IH|]. now rewrite Hf.
  - apply Forall_forall. intros f Hf.
    now apply list_elem_of_In, List.filter_In in Hf as [_ Hf].
Qed.

Lemma wellNamed_setFiles d fi' all' :
  all' ≡ₚ dir.all d -> wellNamed d -> wellNamed (dir.setFiles d fi' all').
Proof. unfold wellNamed. simpl. now intros ->. Qed.

Lemma dot_false_name f :
  file.dot f = false -> forall rest, file.Name f <> String "." rest.
Proof.
  unfold file.dot. intros H rest Hn. rewrite Hn in H.
  now rewrite Ascii.eqb_refl in H.
Qed.

(** C2, as the code has it: [dir.sort] reorders [all] in place, since
    [fi] and [all] are one array. Afterwards [all] holds the entries it
    held, in some order (a permutation). With [hidden] on, [fi] is that
    whole array; with [hidden] off, the array is the dotted entries
    followed by [fi], and no entry of [fi] is dotted: [fi] is the part of
    the array after the hidden entries at its front. Both are computed from
    [all] alone: a listing with the same [all] and any other [fi] gets the
    same result. *)
Theorem sort_permutes_all o d :
  wellNamed d ->
  exists d',
    dir.sort o d = Some d' /\
    dir.all d' ≡ₚ dir.all d /\
    (if hidden o then dir.fi d' = dir.all d'
     else exists hid,
         dir.all d' = hid ++ dir.fi d' /\
         Forall (fun f => file.dot f = true) hid /\
         Forall (fun f => file.dot f = false) (dir.fi d')) /\
    (forall d0, dir.all d0 = dir.all d ->
       exists d0', dir.sort o d0 = Some d0' /\
                   dir.fi d0' = dir.fi d' /\ dir.all d0' = dir.all d').
Proof.
  intros Hd. eexists. split; [apply (sort_wellNamed o d Hd)|]. simpl.
  split; [apply arrayAfterSort_Permutation|]. split.
  - destruct (hidden o) eqn:Hhid; [reflexivity|].
    destruct (dropHidden_suffix (arrayAfterSort o (dir.all d)))
      as (hid & Hs & Hdots).
    exists hid. split; [exact Hs|]. split; [exact Hdots|].
    rewrite arrayAfterSort_pipeline. unfold hidPred. rewrite Hhid.
    rewrite dropHidden_part. apply Forall_forall. intros f Hf.
    apply list_elem_of_In, List.filter_In in Hf as [_ Hf].
    now apply negb_true_iff.
  - intros d0 Hall. eexists. split.
    + apply sort_wellNamed. unfold wellNamed. now rewrite Hall.
    + simpl. now rewrite Hall.
Qed.

(** C7: after [dir.sort] with [hidden] off no visible entry has a name
    that starts with a dot, and the visible entries are the entries of
    [all] without a dot, in the order they have in [all]: they are what
    follows the dotted entries at the front of [all]. (It is also the order
    they had before the hidden pass moved the dotted entries to the
    front.) *)
Theorem sort_hides_dotfiles o d :
  hidden o = false -> wellNamed d ->
  exists d',
    dir.sort o d = Some d' /\
    (forall f, In f (dir.fi d') ->
               forall rest, file.Name f <> String "." rest) /\
    dir.fi d' = List.filter (fun f => negb (file.dot f)) (dir.all d') /\
    dir.fi d'
    = List.filter (fun f => negb (file.dot f)) (dir.arrange o (dir.all d)) /\
    (exists hid, dir.all d' = hid ++ dir.fi d' /\
                 Forall (fun f => file.dot f = true) hid).
Proof.
  intros Hhid Hd. eexists. split; [apply (sort_wellNamed o d Hd)|].
  rewrite Hhid. simpl.
  assert (Hfi : dropHidden (arrayAfterSort o (dir.all d))
                = List.filter (fun f => negb (file.dot f))
                    (arrayAfterSort o (dir.all d))).
  { rewrite arrayAfterSort_pipeline. unfold hidPred. rewrite Hhid.
    now rewrite dropHidden_part, filter_part_other. }
  split; [|split; [|split]].
  - intros f Hf. apply dot_false_name.
    rewrite Hfi in Hf. apply List.filter_In in Hf as [_ Hf].
    now apply negb_true_iff.
  - exact Hfi.
  - unfold arrayAfterSort. rewrite Hhid.
    now rewrite sortFilesStable_hidden, dropHidden_part.
  - destruct (dropHidden_suffix (arrayAfterSort o (dir.all d)))
      as (hid & Hs & Hdots). now exists hid.
Qed.

Lemma keyed_filter o r s :
  (sortby o = "natural" -> strictWeak naturalLess) ->
  List.filter r (keyed o s) = keyed o (List.filter r s).
Proof.
  intros Hnat. apply keyLess_strictWeak in Hnat. unfold keyed.
  destruct (reverse o);
    now rewrite ?List.filter_rev, insertionSort_filter.
Qed.

Lemma keyed_again o s :
  (sortby o = "natural" -> strictWeak naturalLess) ->
  reverse o = false \/ noTies (keyLess (sortby o)) s ->
  keyed o (keyed o s) = keyed o s.
Proof.
  intros Hnat Hrev. apply keyLess_strictWeak in Hnat. unfold keyed.
  destruct (reverse o).
  - destruct Hrev as [|Hties]; [discriminate|]. now apply sort_rev_again.
  - now apply insertionSort_idem.
Qed.

Lemma arrayAfterSort_again o s :
  (sortby o = "natural" -> strictWeak naturalLess) ->
  reverse o = false \/ noTies (keyLess (sortby o)) s ->
  arrayAfterSort o (arrayAfterSort o s) = arrayAfterSort o s.
Proof.
  intros Hnat Hrev. rewrite !arrayAfterSort_pipeline.
  apply pipeline_again.
  - intros r s'. now apply keyed_filter.
  - intros r1 r2. apply keyed_again; [assumption|].
    destruct Hrev as [|Hties]; [now left|right].
    now apply noTies_filter, noTies_filter.
Qed.

(** C3, as the code has it: on a listing whose entries have names, a
    second [dir.sort] leaves the listing ([fi] and [all]) as the first one
    left it when [reverse] is off, and also with [reverse] on when no two
    different entries tie under the sort key. (The sort works in place on
    the array behind [all], so the second run starts from the order the
    first one made, and the reversal can turn tied entries around.) For
    the natural order, [naturalLess] is taken to be a strict weak order, as
    [sort.Stable] requires. *)
Theorem sort_twice o d :
  (sortby o = "natural" -> strictWeak naturalLess) ->
  wellNamed d ->
  reverse o = false \/ noTies (keyLess (sortby o)) (dir.all d) ->
  exists d1, dir.sort o d = Some d1 /\ dir.sort o d1 = Some d1.
Proof.
  intros Hnat Hd Hrev. eexists. split; [apply (sort_wellNamed o d Hd)|].
  rewrite sort_wellNamed
    by (apply wellNamed_setFiles;
        [apply arrayAfterSort_Permutation|assumption]).
  simpl. now rewrite arrayAfterSort_again.
Qed.

End SortListing.

Lemma sort_permutes_all_witness :
  wellNamed home /\
  exists d',
    dir.sort (E := posix) (byName false) home = Some d' /\
    dir.all d' ≡ₚ dir.all home /\
    (if hidden (byName false) then dir.fi d' = dir.all d'
     else exists hid,
         dir.all d' = hid ++ dir.fi d' /\
         Forall (fun f => file.dot f = true) hid /\
         Forall (fun f => file.dot f = false) (dir.fi d')) /\
    (forall d0, dir.all d0 = dir.all home ->
       exists d0', dir.sort (E := posix) (byName false) d0 = Some d0' /\
                   dir.fi d0' = dir.fi d' /\ dir.all d0' = dir.all d').
Proof.
  assert (H : wellNamed home) by (repeat constructor).
  split; [exact H|].
  apply (sort_permutes_all (E := posix) (byName false) home H).
Defined.

(** C2 as stated fails: sorting [b.txt; a.txt; .hidden] by name leaves
    [all] in another order than it was. *)
Lemma sort_reorders_all :
  exists d',
    dir.sort (E := posix) (byName false) home = Some d' /\
    dir.all d' <> dir.all home.
Proof.
  eexists. split; [vm_compute; reflexivity|]. vm_compute. discriminate.
Qed.

Lemma sort_twice_witness :
  (sortby natural = "natural" -> strictWeak (naturalLess (Extern := posix))) /\
  wellNamed home /\
  (reverse natural = false \/
   noTies (keyLess (E := posix) (sortby natural)) (dir.all home)) /\
  exists d1, dir.sort (E := posix) natural home = Some d1 /\
             dir.sort (E := posix) natural d1 = Some d1.
Proof.
  assert (H1 : sortby natural = "natural" ->
               strictWeak (naturalLess (Extern := posix)))
    by (intros _; exact String_ltb_strictWeak).
  assert (H2 : wellNamed home) by (repeat constructor).
  assert (H3 : reverse natural = false \/
               noTies (keyLess (E := posix) (sortby natural)) (dir.all home)).
  { right. intros x y Hx Hy. simpl in Hx, Hy.
    destruct Hx as [<-|[<-|[<-|[]]]]; destruct Hy as [<-|[<-|[<-|[]]]];
      vm_compute; auto. }
  split; [exact H1|]. split; [exact H2|]. split; [exact H3|].
  apply (sort_twice (E := posix) natural home H1 H2 H3).
Defined.

(** C3 as stated fails: with [reverse] on, two entries of the same size
    change places on every sort. *)
Lemma sort_twice_differs :
  exists d1 d2,
    dir.sort (E := posix) (bySize true) twins = Some d1 /\
    dir.sort (E := posix) (bySize true) d1 = Some d2 /\
    dir.fi d2 <> dir.fi d1.
Proof.
  do 2 eexists. split; [vm_compute; reflexivity|].
  split; [vm_compute; reflexivity|]. vm_compute. discriminate.
Qed.

Lemma sort_hides_dotfiles_witness :
  hidden (byName false) = false /\ wellNamed home /\
  exists d',
    dir.sort (E := posix) (byName false) home = Some d' /\
    (forall f, In f (dir.fi d') ->
               forall rest, file.Name f <> String "." rest) /\
    dir.fi d' = List.filter (fun f => negb (file.dot f)) (dir.all d') /\
    dir.fi d'
    = List.filter (fun f => negb (file.dot f))
        (dir.arrange (E := posix) (byName false) (dir.all home)) /\
    (exists hid, dir.all d' = hid ++ dir.fi d' /\
                 Forall (fun f => file.dot f = true) hid).
Proof.
  assert (H : wellNamed home) by (repeat constructor).
  split; [reflexivity|]. split; [exact H|].
  apply (sort_hides_dotfiles (E := posix) (byName false) home eq_refl H).
Defined.

(** The example of the specification: [b.txt], [a.txt], [.hidden] sorted by
    name with hidden entries off shows [a.txt], [b.txt]. *)
Example sort_home :
  option_map (fun d => file.Name <$> dir.fi d)
             (dir.sort (E := posix) (byName false) home)
  = Some ["a.txt"; "b.txt"].
Proof. vm_compute. reflexivity. Qed.

(** ** The cursor *)

Lemma wrap_id x : isInt x -> wrap x = x.
Proof.
  unfold isInt, intMin, intMax, wrap. intros H.
  rewrite Z.mod_small; lia.
Qed.

Lemma min_Zmin a b : min a b = Z.min a b.
Proof. unfold min. destruct (Z.ltb_spec a b); lia. Qed.

Lemma max_Zmax a b : max a b = Z.max a b.
Proof. unfold max. destruct (Z.ltb_spec a b); lia. Qed.

Lemma len_nonneg {A : Type} (s : list A) : 0 <= len s.
Proof. unfold len. lia. Qed.

Lemma len_nil {A : Type} (s : list A) : len s = 0 <-> s = [].
Proof.
  unfold len. destruct s; simpl; split; intros H; try reflexivity;
    try discriminate; lia.
Qed.

Lemma index_Some {A : Type} (s : list A) i :
  0 <= i < len s -> exists x, index s i = Some x.
Proof.
  unfold index, len. intros H.
  destruct (Z.ltb_spec i 0); [lia|].
  destruct (lookup_lt_is_Some_2 s (Z.to_nat i)) as [x Hx]; [lia|eauto].
Qed.

Lemma lookFor_bounds name s i0 i :
  dir.lookFor name s i0 = Some i -> i0 <= i < i0 + len s.
Proof.
  revert i0. induction s as [|f s IH]; simpl; intros i0 H; [discriminate|].
  unfold len in *. simpl List.length.
  destruct (String.eqb (file.Name f) name).
  - injection H as <-. lia.
  - apply IH in H. lia.
Qed.

(** Removes the wrap-around from sums and differences that stay in range,
    innermost first. *)
Ltac int_arith :=
  unfold addi, subi; rewrite ?min_Zmin, ?max_Zmax;
  repeat match goal with
         | |- context [wrap ?x] =>
             lazymatch x with
             | context [wrap _] => fail
             | _ => rewrite (wrap_id x)
                      by (unfold isInt, intMin, intMax in *; lia)
             end
         end.

Section Cursor.

Implicit Types (o : opts) (d : dir.t) (height dist : Z).

Lemma topOn_inv height d :
  cursorInv height d -> cursorInv height (nav.topOn d).
Proof.
  unfold cursorInv. simpl. intros (He & Hn & Hp).
  split; [auto|]. split; [|lia]. intros H. specialize (Hn H). lia.
Qed.

Lemma botOn_inv height d :
  cursorInv height d -> isInt height -> len (dir.fi d) <= intMax ->
  dir.fi d <> [] -> cursorInv height (nav.botOn height d).
Proof.
  unfold cursorInv, nav.botOn. simpl. intros (He & Hn & Hp) Hh Hlen Hfi.
  specialize (Hn Hfi). pose proof (len_nonneg (dir.fi d)).
  unfold isInt, intMin, intMax in *.
  split; [intros; contradiction|].
  int_arith. lia.
Qed.

Lemma upOn_inv o height dist d :
  cursorInv height d -> isInt height -> len (dir.fi d) <= intMax ->
  0 <= scrolloff o <= height - 1 -> 0 <= dist <= intMax ->
  cursorInv height (nav.upOn o dist d).
Proof.
  unfold nav.upOn. intros Hinv Hh Hlen Hso Hdist.
  destruct (Z.eqb_spec (dir.ind d) 0); [exact Hinv|].
  destruct Hinv as (He & Hn & Hp). unfold cursorInv. simpl.
  destruct (dir.fi d) as [|f s] eqn:Hfi.
  { destruct (He eq_refl). contradiction. }
  assert (Hne : f :: s <> []) by discriminate. specialize (Hn Hne).
  unfold isInt, intMin, intMax in *.
  split; [intros; contradiction|].
  int_arith. lia.
Qed.

Lemma downOn_inv o height dist d :
  cursorInv height d -> isInt height -> len (dir.fi d) <= intMax ->
  0 <= scrolloff o -> 0 <= dist -> dir.ind d + dist <= intMax ->
  cursorInv height (nav.downOn o height dist d).
Proof.
  unfold nav.downOn. intros Hinv Hh Hlen Hso Hdist Hsum.
  pose proof (len_nonneg (dir.fi d)) as Hlen0.
  unfold isInt, intMin, intMax in *.
  replace (subi (len (dir.fi d)) 1) with (len (dir.fi d) - 1)
    by (int_arith; reflexivity).
  destruct (Z.leb_spec (len (dir.fi d) - 1) (dir.ind d)); [exact Hinv|].
  destruct Hinv as (He & Hn & Hp). unfold cursorInv. simpl.
  destruct (dir.fi d) as [|f s] eqn:Hfi.
  { destruct (He eq_refl). unfold len in *. simpl in *. lia. }
  assert (Hne : f :: s <> []) by discriminate. specialize (Hn Hne).
  split; [intros; contradiction|].
  assert (Hq : 0 <= Z.quot height 2 + Z.rem height 2 - 1 <= height - 1).
  { rewrite Z.quot_div_nonneg, Z.rem_mod_nonneg by lia.
    pose proof (Z.div_mod height 2 ltac:(lia)).
    pose proof (Z.mod_pos_bound height 2 ltac:(lia)). lia. }
  int_arith. lia.
Qed.

Lemma find_inv o name height d :
  cursorInv height d -> isInt height -> len (dir.fi d) <= intMax ->
  0 <= scrolloff o <= height - 1 ->
  exists d', dir.find o name height d = Ok d' /\ cursorInv height d'.
Proof.
  unfold dir.find. intros (He & Hn & Hp) Hh Hlen Hso.
  pose proof (len_nonneg (dir.fi d)) as Hlen0.
  unfold isInt, intMin, intMax in *.
  destruct (Z.eqb_spec (len (dir.fi d)) 0) as [Hz|Hz].
  { eexists. split; [reflexivity|]. unfold cursorInv. simpl.
    apply len_nil in Hz. split; [auto|]. split; [intros; contradiction|lia]. }
  assert (Hfi : dir.fi d <> []) by (now rewrite <- len_nil).
  specialize (Hn Hfi).
  replace (min (dir.ind d) (subi (len (dir.fi d)) 1)) with (dir.ind d)
    by (int_arith; lia).
  destruct (index_Some (dir.fi d) (dir.ind d) Hn) as [f ->].
  eexists. split; [reflexivity|]. unfold cursorInv. simpl.
  split; [intros; contradiction|].
  set (ind2 := if negb (String.eqb (file.Name f) name)
               then match dir.lookFor name (dir.fi d) 0 with
                    | Some i => i
                    | None => dir.ind d
                    end
               else dir.ind d).
  assert (Hind2 : 0 <= ind2 < len (dir.fi d)).
  { unfold ind2. destruct (negb _); [|exact Hn].
    destruct (dir.lookFor name (dir.fi d) 0) eqn:Hl; [|exact Hn].
    apply lookFor_bounds in Hl. lia. }
  clearbody ind2. int_arith. lia.
Qed.

(** A cursor operation of [nav] works on the listing on top of the
    stack. *)
Lemma onCurrDir_currDir (f : dir.t -> dir.t) n d :
  nav.currDir n = Some d ->
  exists n', nav.onCurrDir f n = Ok n' /\
             nav.currDir n' = Some (f d) /\
             nav.height n' = nav.height n /\ nav.dirs n' = nav.dirs n.
Proof.
  unfold nav.currDir, nav.onCurrDir. intros H.
  destruct (last (nav.dirs n)) as [p|] eqn:Hlast; [|discriminate].
  rewrite H. eexists. split; [reflexivity|]. simpl. rewrite Hlast.
  split; [|auto]. apply list_lookup_insert_eq.
  now apply lookup_lt_Some in H.
Qed.

End Cursor.

Lemma keepsCursor_onCurrDir (f : dir.t -> dir.t) n d :
  nav.currDir n = Some d -> cursorInv (nav.height n) (f d) ->
  keepsCursor (nav.onCurrDir f n).
Proof.
  intros Hd Hinv.
  destruct (onCurrDir_currDir f n d Hd) as (n' & Hn' & Hcur & Hh & _).
  exists n', (f d). rewrite Hh. auto.
Qed.

(** C6, as the code has it: on a listing that satisfies the cursor
    invariants, [down] keeps them for every distance [dist >= 0] that does
    not take [ind + dist] beyond the largest [int], given [scrolloff >= 0];
    [up] (for every [dist >= 0]) and [find] keep them given
    [0 <= scrolloff <= height-1]; [top] keeps them; [bot] keeps them on a
    listing that is not empty. ([height] and the length of the listing are
    Go [int]s.) *)
Theorem cursor_ops_keep_invariants o n d :
  nav.currDir n = Some d ->
  cursorInv (nav.height n) d ->
  isInt (nav.height n) -> len (dir.fi d) <= intMax ->
  0 <= scrolloff o ->
  (forall dist, 0 <= dist -> dir.ind d + dist <= intMax ->
     keepsCursor (nav.down o dist n)) /\
  (scrolloff o <= nav.height n - 1 ->
     (forall dist, 0 <= dist <= intMax -> keepsCursor (nav.up o dist n)) /\
     (forall name, exists d', dir.find o name (nav.height n) d = Ok d' /\
                              cursorInv (nav.height n) d')) /\
  keepsCursor (nav.top n) /\
  (dir.fi d <> [] -> keepsCursor (nav.bot n)).
Proof.
  intros Hd Hinv Hh Hlen Hso.
  unfold nav.down, nav.up, nav.top, nav.bot. split; [|split; [|split]].
  - intros dist H0 Hsum. apply (keepsCursor_onCurrDir _ n d Hd).
    now apply downOn_inv.
  - intros Hso'. split.
    + intros dist Hdist. apply (keepsCursor_onCurrDir _ n d Hd).
      now apply upOn_inv.
    + intros name. now apply find_inv.
  - apply (keepsCursor_onCurrDir _ n d Hd). now apply topOn_inv.
  - intros Hfi. apply (keepsCursor_onCurrDir _ n d Hd). now apply botOn_inv.
Qed.

Lemma cursor_ops_keep_invariants_witness :
  nav.currDir (browsing shelf 5) = Some shelf /\
  cursorInv (nav.height (browsing shelf 5)) shelf /\
  isInt (nav.height (browsing shelf 5)) /\ len (dir.fi shelf) <= intMax /\
  0 <= scrolloff (margin 2) /\
  (forall dist, 0 <= dist -> dir.ind shelf + dist <= intMax ->
     keepsCursor (nav.down (margin 2) dist (browsing shelf 5))) /\
  (scrolloff (margin 2) <= nav.height (browsing shelf 5) - 1 ->
     (forall dist, 0 <= dist <= intMax ->
        keepsCursor (nav.up (margin 2) dist (browsing shelf 5))) /\
     (forall name,
        exists d', dir.find (margin 2) name
                     (nav.height (browsing shelf 5)) shelf = Ok d' /\
                   cursorInv (nav.height (browsing shelf 5)) d')) /\
  keepsCursor (nav.top (browsing shelf 5)) /\
  (dir.fi shelf <> [] -> keepsCursor (nav.bot (browsing shelf 5))).
Proof.
  assert (H1 : nav.currDir (browsing shelf 5) = Some shelf) by reflexivity.
  assert (H2 : cursorInv (nav.height (browsing shelf 5)) shelf).
  { unfold cursorInv. simpl. split; [discriminate|]. split; [|lia].
    intros _. vm_compute. split; [discriminate|reflexivity]. }
  assert (H3 : isInt (nav.height (browsing shelf 5)))
    by (vm_compute; split; discriminate).
  assert (H4 : len (dir.fi shelf) <= intMax) by (vm_compute; discriminate).
  assert (H5 : 0 <= scrolloff (margin 2)) by (simpl; lia).
  split; [exact H1|]. split; [exact H2|]. split; [exact H3|].
  split; [exact H4|]. split; [exact H5|].
  apply (cursor_ops_keep_invariants (margin 2) (browsing shelf 5) shelf
           H1 H2 H3 H4 H5).
Defined.

(** C6 as stated fails in three ways: with [scrolloff] above [height-1],
    [up] moves [pos] below the viewport; [bot] on an empty listing sets
    [ind] to [-1]; [up] by a negative distance moves [ind] past the end. *)
Lemma cursor_ops_break_invariants :
  (cursorInv 5 shelf /\
   exists n' d',
     nav.up (margin 10) 1 (browsing shelf 5) = Ok n' /\
     nav.currDir n' = Some d' /\ dir.pos d' = 7 /\ ~ cursorInv 5 d') /\
  (cursorInv 5 (listing "/empty" [] 0 0) /\
   exists n' d',
     nav.bot (browsing (listing "/empty" [] 0 0) 5) = Ok n' /\
     nav.currDir n' = Some d' /\ dir.ind d' = -1 /\ ~ cursorInv 5 d') /\
  (exists n' d',
     nav.up (margin 2) (-5) (browsing shelf 5) = Ok n' /\
     nav.currDir n' = Some d' /\ dir.ind d' = 13 /\ ~ cursorInv 5 d').
Proof.
  split; [|split].
  - split.
    + unfold cursorInv. simpl. split; [discriminate|]. split; [|lia].
      intros _. vm_compute. split; [discriminate|reflexivity].
    + eexists _, _. split; [vm_compute; reflexivity|].
      split; [reflexivity|]. split; [reflexivity|].
      unfold cursorInv. simpl. lia.
  - split.
    + unfold cursorInv. simpl. split; [auto|]. split; [congruence|lia].
    + eexists _, _. split; [vm_compute; reflexivity|].
      split; [reflexivity|]. split; [reflexivity|].
      unfold cursorInv. simpl. intros (H & _). destruct (H eq_refl). lia.
  - eexists _, _. split; [vm_compute; reflexivity|].
    split; [reflexivity|]. split; [reflexivity|].
    unfold cursorInv. simpl. intros (_ & H & _).
    assert (Hne : ten <> []) by discriminate. specialize (H Hne).
    vm_compute in H. destruct H as [_ H]. discriminate.
Qed.

(** ** [nav.open] *)

(** Whenever the cursor is on an entry, [open] has pushed a listing by the
    time it asks the system to change directory. *)
Lemma open_pushes_first fs n curr e :
  nav.currFile n = Ok curr -> fs_chdir fs (file.path curr) = Some e ->
  exists d n' acts,
    nav.open fs n = (Err ("open: " +:+ Error e), n', acts) /\
    nav.dirs n' = nav.dirs n ++ [d].
Proof.
  intros Hcurr Hcd. unfold nav.open. rewrite Hcurr.
  unfold nav.loadDir. destruct (nav.dirCache n !! file.path curr) as [p|];
    rewrite Hcd; eexists _, _, _; split; reflexivity.
Qed.

(** C1, on the code: with the cursor on the regular file [/home/a.txt],
    [open] returns the error of [os.Chdir], and by then it has made a
    placeholder listing for the file, started a scan of it and pushed it:
    the stack has two levels where it had one. *)
Theorem open_file_changes_stack :
  nav.currFile (browsing desk 5) = Ok (regular "a.txt" 12 7) /\
  file.IsDir (regular "a.txt" 12 7) = false /\
  exists n',
    nav.open disk (browsing desk 5)
    = (Err "open: chdir /home/a.txt: not a directory", n',
       [Go (LoadDirWorker "/home/a.txt"); PutDirCache "/home/a.txt"]) /\
    nav.dirs (browsing desk 5) = [0%nat] /\
    nav.dirs n' = [0%nat; 1%nat] /\
    nav.heap n' !! 1%nat = Some (dir.mk true 0 0 0 "/home/a.txt" [] []).
Proof.
  split; [reflexivity|]. split; [reflexivity|].
  eexists. split; [vm_compute; reflexivity|].
  split; [reflexivity|]. split; reflexivity.
Qed.

(** ** [nav.loadDir] *)

Lemma started_app path a b :
  started path (a ++ b) = (started path a + started path b)%nat.
Proof. unfold started. now rewrite List.filter_app, length_app. Qed.

Lemma loadDir_hit path n p :
  nav.dirCache n !! path = Some p -> nav.loadDir path n = (p, n, []).
Proof. unfold nav.loadDir. now intros ->. Qed.

Lemma loadDir_miss path n :
  nav.dirCache n !! path = None ->
  nav.loadDir path n
  = (List.length (nav.heap n),
     nav.setDirCache
       (nav.setHeap n (nav.heap n ++ [dir.mk true 0 0 0 path [] []]))
       (<[path := List.length (nav.heap n)]> (nav.dirCache n)),
     [Go (LoadDirWorker path); PutDirCache path]).
Proof. unfold nav.loadDir. now intros ->. Qed.

(** A path that is cached stays cached, and no request starts a scan of
    it. *)
Lemma requests_cached path paths n :
  is_Some (nav.dirCache n !! path) ->
  started path (requests paths n).2 = 0%nat /\
  is_Some (nav.dirCache (requests paths n).1 !! path).
Proof.
  revert n. induction paths as [|q rest IH]; intros n Hc; simpl; [auto|].
  destruct (nav.dirCache n !! q) as [p|] eqn:Hq.
  - rewrite (loadDir_hit q n p Hq).
    destruct (requests rest n) as [n2 acts2] eqn:Hr. simpl.
    specialize (IH n Hc). now rewrite Hr in IH.
  - rewrite (loadDir_miss q n Hq).
    assert (Hne : q <> path) by (intros ->; rewrite Hq in Hc; now destruct Hc).
    match goal with |- context [requests rest ?m] => set (n1 := m) end.
    assert (Hc1 : is_Some (nav.dirCache n1 !! path)).
    { unfold n1. simpl. now rewrite lookup_insert_ne. }
    specialize (IH n1 Hc1).
    destruct (requests rest n1) as [n2 acts2]. simpl in *.
    destruct IH as [IH1 IH2]. split; [|exact IH2].
    change (started path ([Go (LoadDirWorker q); PutDirCache q] ++ acts2) = 0%nat).
    rewrite started_app, IH1. unfold started. simpl.
    apply String.eqb_neq in Hne. now rewrite Hne.
Qed.

Lemma requests_once path paths n :
  (started path (requests paths n).2 <= 1)%nat.
Proof.
  revert n. induction paths as [|q rest IH]; intros n; simpl;
    [unfold started; simpl; lia|].
  destruct (nav.dirCache n !! q) as [p|] eqn:Hq.
  - rewrite (loadDir_hit q n p Hq).
    destruct (requests rest n) as [n2 acts2] eqn:Hr. simpl.
    specialize (IH n). now rewrite Hr in IH.
  - rewrite (loadDir_miss q n Hq).
    match goal with |- context [requests rest ?m] => set (n1 := m) end.
    destruct (String.eqb_spec q path) as [->|Hne].
    + assert (Hc1 : is_Some (nav.dirCache n1 !! path)).
      { unfold n1. simpl. rewrite lookup_insert_eq. eauto. }
      destruct (requests_cached path rest n1 Hc1) as [H0 _].
      destruct (requests rest n1) as [n2 acts2]. simpl in *.
      change (started path ([Go (LoadDirWorker path); PutDirCache path] ++ acts2)
              <= 1)%nat.
      rewrite started_app, H0. unfold started. simpl.
      rewrite String.eqb_refl. simpl. lia.
    + specialize (IH n1).
      destruct (requests rest n1) as [n2 acts2]. simpl in *.
      change (started path ([Go (LoadDirWorker q); PutDirCache q] ++ acts2)
              <= 1)%nat.
      rewrite started_app. unfold started at 1. simpl.
      apply String.eqb_neq in Hne. rewrite Hne. simpl. lia.
Qed.

(** C4, as the code has it: a [loadDir] request for a path that is not
    cached starts the worker and then, before it returns, stores a
    placeholder with [loading = true] under the path; a request for a cached
    path, placeholder or not, returns the cached listing and starts
    nothing; so no run of [loadDir] requests starts more than one scan of a
    path (as long as the cache is not rebuilt in between). *)
Theorem loadDir_starts_one_scan path n :
  (nav.dirCache n !! path = None ->
   exists p n' d,
     nav.loadDir path n = (p, n', [Go (LoadDirWorker path); PutDirCache path]) /\
     nav.dirCache n' !! path = Some p /\
     nav.heap n' !! p = Some d /\
     dir.loading d = true /\ dir.path d = path /\ dir.fi d = []) /\
  (forall p, nav.dirCache n !! path = Some p ->
             nav.loadDir path n = (p, n, [])) /\
  (forall paths, (started path (requests paths n).2 <= 1)%nat).
Proof.
  split; [|split].
  - intros Hmiss. eexists _, _, _.
    split; [apply (loadDir_miss path n Hmiss)|].
    simpl. split; [apply lookup_insert_eq|].
    split; [rewrite lookup_app_r by lia; now rewrite Nat.sub_diag|].
    repeat split.
  - intros p. apply loadDir_hit.
  - intros paths. apply requests_once.
Qed.

(** C4 as stated fails in two ways. The worker is started before the
    placeholder is stored, not after. And a second scan of a path can be
    under way while the first still is: after [open] on [/home/sub] the
    placeholder is on the stack with its scan started, and [renew] starts a
    worker for it that finds its load time older than the directory and
    scans [/home/sub] again. *)
Lemma loadDir_second_scan :
  (exists p n',
     nav.loadDir "/home/sub" (browsing deskSub 5)
     = (p, n', [Go (LoadDirWorker "/home/sub"); PutDirCache "/home/sub"]) /\
     ~ precedes (PutDirCache "/home/sub") (Go (LoadDirWorker "/home/sub"))
         [Go (LoadDirWorker "/home/sub"); PutDirCache "/home/sub"]) /\
  (exists n1 n2 n3 nd,
     nav.open disk (browsing deskSub 5)
     = (Ok tt, n1, [Go (LoadDirWorker "/home/sub"); PutDirCache "/home/sub";
                    Chdir "/home/sub"]) /\
     nav.renew disk 5 n1 = (n2, [Go (RenewWorker 0); Go (RenewWorker 1)]) /\
     nav.renewWorker (E := posix) disk (byName true) 100 101 1 n2
     = (Ok n3, [SendDir nd]) /\
     dir.path nd = "/home/sub").
Proof.
  split.
  - eexists _, _. split; [vm_compute; reflexivity|].
    intros (l1 & l2 & l3 & H).
    destruct l1 as [|a [|b l1]]; simplify_eq/=.
    + destruct l2; discriminate.
    + destruct l1; discriminate.
  - eexists _, _, _, _. split; [vm_compute; reflexivity|].
    split; [vm_compute; reflexivity|]. split; [vm_compute; reflexivity|].
    reflexivity.
Qed.

(** ** Panics of the workers *)

(** After a failed [os.Stat] the renew worker writes its log line and then
    calls [s.ModTime()] on the nil [s]. *)
Lemma renewWorker_stat_fails {E : Extern} fs o time1 time2 d n dd err :
  nav.heap n !! d = Some dd -> fs_stat fs (dir.path dd) = StatErr err ->
  nav.renewWorker fs o time1 time2 d n
  = (Panic "invalid memory address or nil pointer dereference",
     [Log ("getting directory info: " +:+ Error err)]).
Proof. unfold nav.renewWorker. now intros -> ->. Qed.

(** After a failed [StdoutPipe] the preview worker writes its log line,
    starts the command all the same, and panics on the nil pipe before it
    reads or sends anything. *)
Lemma preview_pipe_fails o sys n curr err :
  previewer o <> "" -> nav.currFile n = Ok curr ->
  run_pipe (pv_cmd sys (previewer o) (file.path curr) (nav.height n))
  = Some err ->
  exists logs,
    nav.preview o sys n
    = (Panic "invalid memory address or nil pointer dereference",
       Log ("previewing file: " +:+ Error err) :: (Log <$> logs)).
Proof.
  intros Hpv Hcurr Hpipe. unfold nav.preview, nav.previewReader.
  rewrite Hcurr, Hpipe.
  destruct (previewer o) as [|c rest] eqn:Hp; [contradiction|].
  simpl. destruct (run_start _) as [e|];
    [now exists ["previewing file: " +:+ Error e]|now exists []].
Qed.

(** C5, on the code: [renew] starts a worker for the stacked listing of
    [/gone]; [os.Stat] fails there, the worker logs the error and goes on
    to use the nil result, which is a panic in a goroutine and ends the
    process. [preview] with a previewer whose pipe cannot be made logs the
    error and panics on the nil pipe in the same way. *)
Theorem renew_and_preview_panic :
  fs_stat disk (dir.path gone) = StatErr (PathError "stat" "/gone" ENOENT) /\
  snd (nav.renew disk 5 (browsing gone 5)) = [Go (RenewWorker 0)] /\
  nav.renewWorker (E := posix) disk (byName true) 100 101 0
    (fst (nav.renew disk 5 (browsing gone 5)))
  = (Panic "invalid memory address or nil pointer dereference",
     [Log "getting directory info: stat /gone: no such file or directory"])
  /\
  nav.preview withPreviewer noPipe (browsing desk 5)
  = (Panic "invalid memory address or nil pointer dereference",
     [Log "previewing file: pipe2: too many open files"]).
Proof. repeat split; vm_compute; reflexivity. Qed.

(** ** [readdir] *)

Section Scan.

Context {E : Extern}.
Variable fs : filesys.

Lemma scan_all path names err fi logs :
  (forall x, In x names -> stopsAt fs path x = None) ->
  scan fs path names err fi logs
  = (fi ++ omap (entryOf fs path) names, err,
     logs ++ flat_map (logOf fs path) names).
Proof.
  revert fi logs. induction names as [|x names IH]; intros fi logs Hok; simpl.
  - now rewrite !app_nil_r.
  - assert (Hx : stopsAt fs path x = None) by (apply Hok; now left).
    assert (Hrest : forall y, In y names -> stopsAt fs path y = None)
      by (intros y Hy; apply Hok; now right).
    unfold stopsAt in Hx. unfold entryOf, logOf.
    destruct (fs_lstat fs (Join path x)) as [lstat|e].
    + destruct (negb (Z.land (Mode lstat) ModeSymlink =? 0)).
      * destruct (fs_stat fs (Join path x)) as [stat|serr];
          rewrite (IH _ _ Hrest); now rewrite <- !app_assoc.
      * rewrite (IH _ _ Hrest). now rewrite <- !app_assoc.
    + destruct e as [op p []|msg]; simpl in Hx; try discriminate.
      apply IH, Hrest.
Qed.

Lemma scan_stops path pre x post e err fi logs :
  (forall y, In y pre -> stopsAt fs path y = None) ->
  stopsAt fs path x = Some e ->
  scan fs path (pre ++ x :: post) err fi logs
  = (fi ++ omap (entryOf fs path) pre, Some e,
     logs ++ flat_map (logOf fs path) pre).
Proof.
  revert fi logs. induction pre as [|y pre IH]; intros fi logs Hok Hx; simpl.
  - rewrite !app_nil_r. unfold stopsAt in Hx.
    destruct (fs_lstat fs (Join path x)) as [lstat|e']; [discriminate|].
    destruct e' as [op p []|msg]; simpl in Hx; now simplify_eq.
  - assert (Hy : stopsAt fs path y = None) by (apply Hok; now left).
    assert (Hrest : forall z, In z pre -> stopsAt fs path z = None)
      by (intros z Hz; apply Hok; now right).
    unfold stopsAt in Hy. unfold entryOf, logOf.
    destruct (fs_lstat fs (Join path y)) as [lstat|e'].
    + destruct (negb (Z.land (Mode lstat) ModeSymlink =? 0)).
      * destruct (fs_stat fs (Join path y)) as [stat|serr];
          rewrite (IH _ _ Hrest Hx); now rewrite <- !app_assoc.
      * rewrite (IH _ _ Hrest Hx). now rewrite <- !app_assoc.
    + destruct e' as [op p []|msg]; simpl in Hy; try discriminate.
      now apply IH.
Qed.

(** C8, as the code has it, in a directory that can be opened. A name
    whose [Lstat] says not-found gives no entry and no log line, and does
    not stop the scan. A symbolic link whose target [Stat] cannot examine
    gives a broken link with the data of the link's own [Lstat] and one log
    line, and does not stop the scan. When no [Lstat] fails otherwise,
    every name is gone through: the entries and the log lines are those of
    the names, in order, and the error returned is the one of the
    enumeration. The first [Lstat] that fails with any other error ends the
    scan: [readdir] returns the entries and has logged the lines of the
    names before it, returns that error, which its caller [newDir] logs,
    and does not go through the names after it. *)
Theorem readdir_outcome path names err :
  fs_open fs path = None -> fs_names fs path = (names, err) ->
  (forall x e,
     fs_lstat fs (Join path x) = StatErr e -> IsNotExist (Some e) = true ->
     entryOf fs path x = None /\ logOf fs path x = [] /\
     stopsAt fs path x = None) /\
  (forall x lstat serr,
     fs_lstat fs (Join path x) = StatOk lstat ->
     Z.land (Mode lstat) ModeSymlink <> 0 ->
     fs_stat fs (Join path x) = StatErr serr ->
     entryOf fs path x = Some (file.mk lstat broken (Join path x) (-1)) /\
     logOf fs path x = ["getting link destination info: " +:+ Error serr] /\
     stopsAt fs path x = None) /\
  ((forall x, In x names -> stopsAt fs path x = None) ->
   readdir fs path
   = (omap (entryOf fs path) names, err, flat_map (logOf fs path) names)) /\
  (forall pre x post e,
     names = pre ++ x :: post ->
     (forall y, In y pre -> stopsAt fs path y = None) ->
     stopsAt fs path x = Some e ->
     readdir fs path
     = (omap (entryOf fs path) pre, Some e, flat_map (logOf fs path) pre) /\
     forall time,
       (dir.newDir fs time path).2
       = flat_map (logOf fs path) pre ++ ["reading directory: " +:+ Error e]).
Proof.
  intros Hopen Hnames. unfold dir.newDir, readdir. rewrite Hopen, Hnames.
  split; [|split; [|split]].
  - intros x e Hl He. unfold entryOf, logOf, stopsAt. rewrite Hl, He.
    now repeat split.
  - intros x lstat serr Hl Hlink Hs. unfold entryOf, logOf, stopsAt.
    rewrite Hl, Hs. apply Z.eqb_neq in Hlink. rewrite Hlink. simpl.
    now repeat split.
  - intros Hok. apply (scan_all path names err [] [] Hok).
  - intros pre x post e -> Hok Hx.
    rewrite (scan_stops path pre x post e err [] [] Hok Hx).
    split; reflexivity.
Qed.

End Scan.

Lemma readdir_outcome_witness :
  fs_open disk "/home" = None /\
  fs_names disk "/home"
  = (["a.txt"; "ghost"; "dangling"; "locked"; "sub"], None) /\
  (forall x e,
     fs_lstat disk (Join (Extern := posix) "/home" x) = StatErr e ->
     IsNotExist (Some e) = true ->
     entryOf (E := posix) disk "/home" x = None /\
     logOf (E := posix) disk "/home" x = [] /\
     stopsAt (E := posix) disk "/home" x = None) /\
  (forall x lstat serr,
     fs_lstat disk (Join (Extern := posix) "/home" x) = StatOk lstat ->
     Z.land (Mode lstat) ModeSymlink <> 0 ->
     fs_stat disk (Join (Extern := posix) "/home" x) = StatErr serr ->
     entryOf (E := posix) disk "/home" x
     = Some (file.mk lstat broken (Join (Extern := posix) "/home" x) (-1)) /\
     logOf (E := posix) disk "/home" x
     = ["getting link destination info: " +:+ Error serr] /\
     stopsAt (E := posix) disk "/home" x = None) /\
  ((forall x, In x ["a.txt"; "ghost"; "dangling"; "locked"; "sub"] ->
              stopsAt (E := posix) disk "/home" x = None) ->
   readdir (E := posix) disk "/home"
   = (omap (entryOf (E := posix) disk "/home")
           ["a.txt"; "ghost"; "dangling"; "locked"; "sub"], None,
      flat_map (logOf (E := posix) disk "/home")
           ["a.txt"; "ghost"; "dangling"; "locked"; "sub"])) /\
  (forall pre x post e,
     ["a.txt"; "ghost"; "dangling"; "locked"; "sub"] = pre ++ x :: post ->
     (forall y, In y pre -> stopsAt (E := posix) disk "/home" y = None) ->
     stopsAt (E := posix) disk "/home" x = Some e ->
     readdir (E := posix) disk "/home"
     = (omap (entryOf (E := posix) disk "/home") pre, Some e,
        flat_map (logOf (E := posix) disk "/home") pre) /\
     forall time,
       (dir.newDir (E := posix) disk time "/home").2
       = flat_map (logOf (E := posix) disk "/home") pre ++
         ["reading directory: " +:+ Error e]).
Proof.
  assert (H1 : fs_open disk "/home" = None) by reflexivity.
  assert (H2 : fs_names disk "/home"
               = (["a.txt"; "ghost"; "dangling"; "locked"; "sub"], None))
    by reflexivity.
  split; [exact H1|]. split; [exact H2|].
  apply (readdir_outcome (E := posix) disk "/home" _ _ H1 H2).
Defined.

(** C8 as stated fails: in [/home] the [Lstat] of [locked] fails with an
    input/output error. The vanished [ghost] is dropped without a log line
    and the broken link [dangling] is kept and logged, but the scan ends
    at [locked], and [sub], which comes after it and could be examined, is
    not listed. *)
Lemma readdir_stops_at_error :
  readdir (E := posix) disk "/home"
  = ([file.mk (mkInfo "a.txt" 12 420 7) notLink "/home/a.txt" (-1);
      file.mk (mkInfo "dangling" 9 (Z.lor ModeSymlink 511) 8) broken
              "/home/dangling" (-1)],
     Some (PathError "lstat" "/home/locked" EIO),
     ["getting link destination info: " +:+
      "stat /home/dangling: no such file or directory"]) /\
  Error (PathError "lstat" "/home/locked" EIO)
  = "lstat /home/locked: input/output error" /\
  entryOf (E := posix) disk "/home" "sub"
  = Some (file.mk (mkInfo "sub" 4096 (Z.lor ModeDir 493) 5) notLink
                  "/home/sub" (-1)).
Proof. repeat split; vm_compute; reflexivity. Qed.

(** ** Marks *)

Lemma toggleMark_on path n :
  nav.marks n !! path = None ->
  nav.marks (nav.toggleMark path n) = <[path := nav.markInd n]> (nav.marks n) /\
  nav.markInd (nav.toggleMark path n) = addi (nav.markInd n) 1.
Proof. unfold nav.toggleMark. now intros ->. Qed.

Lemma toggleMark_off path n i :
  nav.marks n !! path = Some i ->
  nav.marks (nav.toggleMark path n) = delete path (nav.marks n) /\
  nav.markInd (nav.toggleMark path n)
  = if Nat.eqb (size (delete path (nav.marks n))) 0 then 0 else nav.markInd n.
Proof. unfold nav.toggleMark. now intros ->. Qed.

Lemma byIndex_strictWeak :
  strictWeak (fun x y : string * Z => x.2 <? y.2).
Proof. apply (strictWeak_on Z.ltb snd), Zltb_strictWeak. Qed.

(** Whatever the order in which the marks are met, [currMarks] gives them
    by ascending index when the indices differ. *)
Lemma currMarks_sorted (ranged byIndex : list (string * Z)) :
  ranged ≡ₚ byIndex ->
  ascending (fun x y : string * Z => x.2 <? y.2) byIndex ->
  noTies (fun x y : string * Z => x.2 <? y.2) byIndex ->
  nav.currMarks ranged = byIndex.*1.
Proof.
  intros Hperm Hasc Hties. unfold nav.currMarks. f_equal.
  change nav.lessIndex with (byElems (fun x y : string * Z => x.2 <? y.2)).
  apply (ascending_unique (fun x y : string * Z => x.2 <? y.2) byIndex);
    auto.
  - now rewrite insertionSort_Permutation.
  - apply insertionSort_ascending, byIndex_strictWeak.
Qed.

(** C9: from an empty mark set, toggling [A], [B], [C] makes [currMarks]
    return [A; B; C], and toggling [B] off and on again makes it return
    [A; C; B], in whatever order the [range] over the map meets the
    marks. *)
Theorem marks_in_toggle_order (A B C : string) n :
  A <> B -> A <> C -> B <> C ->
  nav.marks n = ∅ -> nav.markInd n = 0 ->
  (forall ranged, nav.ranges (toggles [A; B; C] n) ranged ->
                  nav.currMarks ranged = [A; B; C]) /\
  (forall ranged, nav.ranges (toggles [A; B; C; B; B] n) ranged ->
                  nav.currMarks ranged = [A; C; B]).
Proof.
  intros HAB HAC HBC Hm Hi.
  (* the marks after [A], [B], [C] *)
  destruct (toggleMark_on A n) as [Hm1 Hi1]; [now rewrite Hm|].
  rewrite Hm, Hi in *. change (addi 0 1) with 1 in Hi1.
  destruct (toggleMark_on B (nav.toggleMark A n)) as [Hm2 Hi2].
  { rewrite Hm1. now rewrite lookup_insert_ne. }
  rewrite Hm1, Hi1 in *. change (addi 1 1) with 2 in Hi2.
  destruct (toggleMark_on C (nav.toggleMark B (nav.toggleMark A n)))
    as [Hm3 Hi3].
  { rewrite Hm2. now rewrite !lookup_insert_ne. }
  rewrite Hm2, Hi2 in *. change (addi 2 1) with 3 in Hi3.
  set (n3 := nav.toggleMark C (nav.toggleMark B (nav.toggleMark A n))) in *.
  assert (Hl3 : map_to_list (nav.marks n3) ≡ₚ [(A, 0); (B, 1); (C, 2)]).
  { rewrite Hm3. rewrite map_to_list_insert by now rewrite !lookup_insert_ne.
    rewrite map_to_list_insert by now rewrite lookup_insert_ne.
    rewrite map_to_list_insert, map_to_list_empty by apply lookup_empty.
    rewrite (Permutation_rev [(A, 0); (B, 1); (C, 2)]). reflexivity. }
  (* ... and after [B] off and on *)
  destruct (toggleMark_off B n3 1) as [Hm4 Hi4].
  { rewrite Hm3. rewrite lookup_insert_ne by congruence.
    apply lookup_insert_eq. }
  assert (Hm4' : nav.marks (nav.toggleMark B n3) = <[C := 2]> (<[A := 0]> ∅)).
  { rewrite Hm4, Hm3. rewrite delete_insert_ne by congruence.
    rewrite delete_insert_eq. rewrite delete_insert_ne by congruence.
    now rewrite delete_empty. }
  assert (Hi4' : nav.markInd (nav.toggleMark B n3) = 3).
  { rewrite Hi4, Hi3, <- Hm4, Hm4'.
    destruct (Nat.eqb_spec (size (<[C := 2]> (<[A := 0]> (∅ : gmap string Z)))) 0)
      as [Hz|]; [|reflexivity].
    apply map_size_empty_iff in Hz.
    apply (f_equal (fun m => m !! C)) in Hz.
    rewrite lookup_insert_eq, lookup_empty in Hz. discriminate. }
  destruct (toggleMark_on B (nav.toggleMark B n3)) as [Hm5 Hi5].
  { rewrite Hm4. apply lookup_delete_eq. }
  rewrite Hm4', Hi4' in Hm5.
  assert (Hl5 : map_to_list (nav.marks (nav.toggleMark B (nav.toggleMark B n3)))
                ≡ₚ [(A, 0); (C, 2); (B, 3)]).
  { rewrite Hm5.
    rewrite map_to_list_insert
      by (rewrite !lookup_insert_ne by congruence; apply lookup_empty).
    rewrite map_to_list_insert by now rewrite lookup_insert_ne.
    rewrite map_to_list_insert, map_to_list_empty by apply lookup_empty.
    rewrite (Permutation_rev [(A, 0); (C, 2); (B, 3)]). reflexivity. }
  split; intros ranged Hr; unfold nav.ranges, toggles in Hr; simpl in Hr.
  - fold n3 in Hr. rewrite Hl3 in Hr.
    rewrite (currMarks_sorted ranged [(A, 0); (B, 1); (C, 2)] Hr);
      [reflexivity| |].
    + repeat constructor.
    + intros x y Hx Hy. simpl in Hx, Hy.
      destruct Hx as [<-|[<-|[<-|[]]]]; destruct Hy as [<-|[<-|[<-|[]]]];
        simpl; auto.
  - fold n3 in Hr. rewrite Hl5 in Hr.
    rewrite (currMarks_sorted ranged [(A, 0); (C, 2); (B, 3)] Hr);
      [reflexivity| |].
    + repeat constructor.
    + intros x y Hx Hy. simpl in Hx, Hy.
      destruct Hx as [<-|[<-|[<-|[]]]]; destruct Hy as [<-|[<-|[<-|[]]]];
        simpl; auto.
Qed.

Lemma marks_in_toggle_order_witness :
  "/a" <> "/b" /\ "/a" <> "/c" /\ "/b" <> "/c" /\
  nav.marks (browsing desk 5) = ∅ /\ nav.markInd (browsing desk 5) = 0 /\
  (forall ranged,
     nav.ranges (toggles ["/a"; "/b"; "/c"] (browsing desk 5)) ranged ->
     nav.currMarks ranged = ["/a"; "/b"; "/c"]) /\
  (forall ranged,
     nav.ranges (toggles ["/a"; "/b"; "/c"; "/b"; "/b"] (browsing desk 5))
                ranged ->
     nav.currMarks ranged = ["/a"; "/c"; "/b"]).
Proof.
  assert (H1 : "/a" <> "/b") by discriminate.
  assert (H2 : "/a" <> "/c") by discriminate.
  assert (H3 : "/b" <> "/c") by discriminate.
  assert (H4 : nav.marks (browsing desk 5) = ∅) by reflexivity.
  assert (H5 : nav.markInd (browsing desk 5) = 0) by reflexivity.
  split; [exact H1|]. split; [exact H2|]. split; [exact H3|].
  split; [exact H4|]. split; [exact H5|].
  apply (marks_in_toggle_order "/a" "/b" "/c" (browsing desk 5)
           H1 H2 H3 H4 H5).
Defined.

(** ** Preview registers *)

(** The loop of [nav.preview] keeps the first [n] lines, gives up at a NUL
    among them, and meets the scanner's error only when the lines run out
    before [n] rounds are done. *)
Lemma readLines_take n rd err acc :
  nav.readLines n rd err acc
  = if existsb nav.hasNul (take n rd) then (None, None)
    else (Some (acc ++ take n rd),
          if (List.length rd <? n)%nat then err else None).
Proof.
  revert rd acc. induction n as [|n IH]; intros rd acc; simpl.
  - now rewrite app_nil_r.
  - destruct rd as [|text rd]; simpl; [now rewrite app_nil_r|].
    destruct (nav.hasNul text); [reflexivity|]. simpl.
    rewrite IH. destruct (existsb nav.hasNul (take n rd)); [reflexivity|].
    now rewrite <- app_assoc.
Qed.

(** Where the pipe could be made, the reader is the stream behind the
    preview of the path, and nothing but log lines is written. *)
Lemma previewReader_piped o sys path height :
  piped o sys path height ->
  exists logs,
    nav.previewReader o sys path height
    = (Some (previewed o sys path height), Log <$> logs).
Proof.
  unfold piped, nav.previewReader, previewed.
  destruct (previewer o) as [|c rest] eqn:Hp; simpl.
  - intros _. destruct (pv_open sys path) as [e|];
      [now exists ["opening file: " +:+ Error e]|now exists []].
  - intros [Hno|Hpipe]; [discriminate|]. rewrite Hpipe. simpl.
    destruct (run_start _) as [e|];
      [now exists ["previewing file: " +:+ Error e]|now exists []].
Qed.

(** Every register [nav.preview] sends is keyed by the path of the entry
    under the cursor of the state it runs on. *)
Lemma preview_sends_current o sys n r :
  In (SendReg r) (nav.preview o sys n).2 ->
  exists curr, nav.currFile n = Ok curr /\ reg.path r = file.path curr.
Proof.
  unfold nav.preview. destruct (nav.currFile n) as [curr|e|msg]; simpl;
    [|contradiction..].
  intros Hin. exists curr. split; [reflexivity|].
  assert (Hlogs : forall acts,
             (nav.previewReader o sys (file.path curr) (nav.height n)).2
             = acts -> ~ In (SendReg r) acts).
  { intros acts <-. unfold nav.previewReader.
    destruct (negb _); [|destruct (pv_open sys _); simpl;
                         intuition discriminate].
    destruct (run_pipe _), (run_start _); simpl; intuition discriminate. }
  destruct (nav.previewReader o sys _ _) as [reader logs].
  specialize (Hlogs logs eq_refl).
  destruct reader as [st|]; [|contradiction].
  destruct (nav.readLines _ _ _ []) as [[ls|] e]; simpl in Hin;
    rewrite !in_app_iff in Hin; simpl in Hin.
  - destruct Hin as [?|[He|[Hr|[]]]]; [contradiction| |now inversion Hr].
    destruct e; simpl in He; intuition discriminate.
  - destruct Hin as [?|[Hr|[]]]; [contradiction|now inversion Hr].
Qed.

(** With an entry under the cursor and a reader to read from, the worker
    returns, and after its log lines it sends one register: what is shown
    of the stream behind that entry's path, under that entry's path. *)
Lemma preview_delivers o sys n curr :
  nav.currFile n = Ok curr ->
  piped o sys (file.path curr) (nav.height n) ->
  exists logs,
    nav.preview o sys n
    = (Ok tt,
       (Log <$> logs) ++
       [SendReg (reg.mk (file.path curr)
                   (shown (nav.height n)
                      (previewed o sys (file.path curr) (nav.height n))))]).
Proof.
  intros Hcurr Hpiped. unfold nav.preview. rewrite Hcurr.
  destruct (previewReader_piped o sys _ _ Hpiped) as [logs ->].
  rewrite readLines_take. unfold shown.
  destruct (existsb nav.hasNul _); [now exists logs|]. simpl.
  destruct (_ <? _)%nat; [|now exists logs].
  destruct (st_err _) as [msg|]; [|now exists logs].
  exists (logs ++ ["loading file: " +:+ msg]).
  now rewrite fmap_app, <- app_assoc.
Qed.

(** Cursor moves leave the cache of registers alone. *)
Lemma down_regCache o dist n n' :
  nav.down o dist n = Ok n' -> nav.regCache n' = nav.regCache n.
Proof.
  unfold nav.down, nav.onCurrDir. destruct (last (nav.dirs n)); [|discriminate].
  destruct (nav.heap n !! _); [|discriminate]. now intros [= <-].
Qed.

(** C10, as the code has it: for a path that is not cached, [loadReg]
    stores a "loading" register under that path and starts the preview
    worker, which is given no path. On whatever state the worker runs:
    with an entry under the cursor and, where a previewer is configured,
    its pipe made, the worker sends one register, keyed by the path of
    that entry and holding what is shown of the stream behind that path;
    on an empty listing it sends nothing; with a previewer whose pipe
    cannot be made it panics and sends nothing. So every register it sends
    is keyed by the path of the entry under the cursor; after a cursor
    move from the state [loadReg] left, on to an entry of another path,
    the worker sends the register of that other path, and the cache still
    holds the "loading" register for the path asked for. *)
Theorem loadReg_previews_current path n :
  nav.regCache n !! path = None ->
  exists r n',
    nav.loadReg path n = (r, n', [Go PreviewWorker; PutRegCache path]) /\
    nav.regCache n' !! path = Some r /\
    r = reg.mk path [esc +:+ "[1mloading..." +:+ esc +:+ "[0m"] /\
    (forall o sys n2 curr,
       nav.currFile n2 = Ok curr ->
       piped o sys (file.path curr) (nav.height n2) ->
       exists logs,
         nav.preview o sys n2
         = (Ok tt,
            (Log <$> logs) ++
            [SendReg (reg.mk (file.path curr)
                        (shown (nav.height n2)
                           (previewed o sys (file.path curr)
                                      (nav.height n2))))])) /\
    (forall o sys n2 e,
       nav.currFile n2 = Err e -> nav.preview o sys n2 = (Ok tt, [])) /\
    (forall o sys n2 curr err,
       nav.currFile n2 = Ok curr -> previewer o <> "" ->
       run_pipe (pv_cmd sys (previewer o) (file.path curr) (nav.height n2))
       = Some err ->
       exists logs,
         nav.preview o sys n2
         = (Panic "invalid memory address or nil pointer dereference",
            Log <$> logs)) /\
    (forall o sys n2 r2,
       In (SendReg r2) (nav.preview o sys n2).2 ->
       exists curr, nav.currFile n2 = Ok curr /\
                    reg.path r2 = file.path curr) /\
    (forall o sys dist n2 curr,
       nav.down o dist n' = Ok n2 -> nav.currFile n2 = Ok curr ->
       file.path curr <> path ->
       piped o sys (file.path curr) (nav.height n2) ->
       exists acts r2,
         nav.preview o sys n2 = (Ok tt, acts ++ [SendReg r2]) /\
         reg.path r2 = file.path curr /\ reg.path r2 <> path /\
         nav.regCache n2 !! path = Some r).
Proof.
  intros Hmiss. unfold nav.loadReg. rewrite Hmiss.
  eexists _, _. split; [reflexivity|]. simpl.
  split; [apply lookup_insert_eq|]. split; [reflexivity|].
  split; [intros o sys n2 curr; apply preview_delivers|].
  split; [intros o sys n2 e He; unfold nav.preview; now rewrite He|].
  split.
  { intros o sys n2 curr err Hcurr Hpv Hpipe.
    destruct (preview_pipe_fails o sys n2 curr err Hpv Hcurr Hpipe)
      as [logs ->].
    now exists (("previewing file: " +:+ Error err) :: logs). }
  split; [intros o sys n2 r2; apply preview_sends_current|].
  intros o sys dist n2 curr Hdown Hcurr Hne Hpiped.
  destruct (preview_delivers o sys n2 curr Hcurr Hpiped) as [logs ->].
  eexists _, _. split; [reflexivity|]. simpl.
  split; [reflexivity|]. split; [exact Hne|].
  rewrite (down_regCache _ _ _ _ Hdown). simpl. apply lookup_insert_eq.
Qed.

Lemma loadReg_previews_current_witness :
  nav.regCache (browsing desk 5) !! "/home/a.txt" = None /\
  exists r n',
    nav.loadReg "/home/a.txt" (browsing desk 5)
    = (r, n', [Go PreviewWorker; PutRegCache "/home/a.txt"]) /\
    nav.regCache n' !! "/home/a.txt" = Some r /\
    r = reg.mk "/home/a.txt" [esc +:+ "[1mloading..." +:+ esc +:+ "[0m"] /\
    (forall o sys n2 curr,
       nav.currFile n2 = Ok curr ->
       piped o sys (file.path curr) (nav.height n2) ->
       exists logs,
         nav.preview o sys n2
         = (Ok tt,
            (Log <$> logs) ++
            [SendReg (reg.mk (file.path curr)
                        (shown (nav.height n2)
                           (previewed o sys (file.path curr)
                                      (nav.height n2))))])) /\
    (forall o sys n2 e,
       nav.currFile n2 = Err e -> nav.preview o sys n2 = (Ok tt, [])) /\
    (forall o sys n2 curr err,
       nav.currFile n2 = Ok curr -> previewer o <> "" ->
       run_pipe (pv_cmd sys (previewer o) (file.path curr) (nav.height n2))
       = Some err ->
       exists logs,
         nav.preview o sys n2
         = (Panic "invalid memory address or nil pointer dereference",
            Log <$> logs)) /\
    (forall o sys n2 r2,
       In (SendReg r2) (nav.preview o sys n2).2 ->
       exists curr, nav.currFile n2 = Ok curr /\
                    reg.path r2 = file.path curr) /\
    (forall o sys dist n2 curr,
       nav.down o dist n' = Ok n2 -> nav.currFile n2 = Ok curr ->
       file.path curr <> "/home/a.txt" ->
       piped o sys (file.path curr) (nav.height n2) ->
       exists acts r2,
         nav.preview o sys n2 = (Ok tt, acts ++ [SendReg r2]) /\
         reg.path r2 = file.path curr /\ reg.path r2 <> "/home/a.txt" /\
         nav.regCache n2 !! "/home/a.txt" = Some r).
Proof.
  assert (H : nav.regCache (browsing desk 5) !! "/home/a.txt" = None)
    by reflexivity.
  split; [exact H|].
  apply (loadReg_previews_current "/home/a.txt" (browsing desk 5) H).
Defined.

(** C10 as stated fails: asked for [/home/a.txt], the worker runs after
    the cursor has gone down to [sub] and [open] has entered it. The
    listing of [/home/sub] is still the empty placeholder, there is no
    entry under the cursor, and the worker returns without a register;
    the cache keeps the "loading" register of [/home/a.txt]. *)
Lemma loadReg_worker_sends_nothing :
  exists r n1 n2 n3 acts,
    nav.regCache (browsing desk 5) !! "/home/a.txt" = None /\
    nav.loadReg "/home/a.txt" (browsing desk 5)
    = (r, n1, [Go PreviewWorker; PutRegCache "/home/a.txt"]) /\
    nav.down (byName true) 1 n1 = Ok n2 /\
    nav.open disk n2 = (Ok tt, n3, acts) /\
    nav.currFile n3 = Err "empty directory" /\
    nav.preview (byName true) files n3 = (Ok tt, []) /\
    nav.regCache n3 !! "/home/a.txt"
    = Some (reg.mk "/home/a.txt"
              [esc +:+ "[1mloading..." +:+ esc +:+ "[0m"]).
Proof.
  eexists _, _, _, _, _. split; [reflexivity|].
  split; [vm_compute; reflexivity|]. split; [vm_compute; reflexivity|].
  split; [vm_compute; reflexivity|]. split; [vm_compute; reflexivity|].
  split; [vm_compute; reflexivity|]. vm_compute. reflexivity.
Qed.

(** The worker asked for [/home/a.txt], on the state [loadReg] left and
    under five rows, sends the three lines of that file; under two rows,
    the first two. *)
Example loadReg_then_preview :
  exists r n1,
    nav.loadReg "/home/a.txt" (browsing desk 5)
    = (r, n1, [Go PreviewWorker; PutRegCache "/home/a.txt"]) /\
    nav.preview (byName true) files n1
    = (Ok tt, [SendReg (reg.mk "/home/a.txt" ["one"; "two"; "three"])]) /\
    nav.preview (byName true) files (nav.setHeight n1 2)
    = (Ok tt, [SendReg (reg.mk "/home/a.txt" ["one"; "two"])]).
Proof.
  eexists _, _. split; [vm_compute; reflexivity|].
  split; vm_compute; reflexivity.
Qed.

(** The cursor moves on while the worker is under way: asked for
    [/home/a.txt], the worker that runs after a [down] sends the register
    of [/home/sub], a directory, of which nothing can be read. *)
Example loadReg_then_down :
  exists r n1 n2,
    nav.loadReg "/home/a.txt" (browsing desk 5)
    = (r, n1, [Go PreviewWorker; PutRegCache "/home/a.txt"]) /\
    nav.down (byName true) 1 n1 = Ok n2 /\
    nav.preview (byName true) files n2
    = (Ok tt, [Log "loading file: read /home/sub: is a directory";
               SendReg (reg.mk "/home/sub" [])]).
Proof.
  eexists _, _, _. split; [vm_compute; reflexivity|].
  split; vm_compute; reflexivity.
Qed.

(** * Further properties of [nav.go] *)

(** ** The mark set *)

Section Marks.

Implicit Types (n : nav.t) (path : string).

Lemma marksInv_unmark n : marksInv (nav.unmark n).
Proof.
  unfold marksInv, nav.unmark. simpl. split; [lia|].
  split; intros *; rewrite lookup_empty; discriminate.
Qed.

Lemma toggleMark_marksInv path n :
  marksInv n -> nav.markInd n < intMax -> marksInv (nav.toggleMark path n).
Proof.
  intros (H0 & Hlt & Hinj) Hmax. unfold marksInv.
  destruct (nav.marks n !! path) as [i|] eqn:Hp.
  - destruct (toggleMark_off path n i Hp) as [-> ->].
    destruct (Nat.eqb_spec (size (delete path (nav.marks n))) 0) as [Hz|Hz].
    + apply map_size_empty_iff in Hz. rewrite Hz.
      split; [lia|]. split; intros *; rewrite lookup_empty; discriminate.
    + split; [exact H0|]. split.
      * intros p j Hj. apply lookup_delete_Some in Hj as [_ Hj]. eauto.
      * intros p q j Hpj Hqj. apply lookup_delete_Some in Hpj as [_ Hpj].
        apply lookup_delete_Some in Hqj as [_ Hqj]. eauto.
  - destruct (toggleMark_on path n Hp) as [-> ->].
    assert (Hadd : addi (nav.markInd n) 1 = nav.markInd n + 1).
    { unfold addi. apply wrap_id. unfold isInt, intMin, intMax in *. lia. }
    rewrite Hadd. split; [lia|]. split.
    + intros p j Hj. apply lookup_insert_Some in Hj as [[_ <-]|[_ Hj]];
        [lia|]. specialize (Hlt p j Hj). lia.
    + intros p q j Hpj Hqj.
      apply lookup_insert_Some in Hpj as [[<- <-]|[Hne Hpj]];
        apply lookup_insert_Some in Hqj as [[<- Hq]|[Hne' Hqj]];
        try reflexivity.
      * specialize (Hlt q _ Hqj). lia.
      * specialize (Hlt p _ Hpj). lia.
      * eauto.
Qed.

Lemma toggleMark_markInd path n :
  0 <= nav.markInd n < intMax ->
  0 <= nav.markInd (nav.toggleMark path n) <= nav.markInd n + 1.
Proof.
  intros Hi. unfold nav.toggleMark.
  destruct (nav.marks n !! path); simpl.
  - destruct (Nat.eqb _ 0); lia.
  - unfold addi. rewrite wrap_id; [lia|].
    unfold isInt, intMin, intMax in *. lia.
Qed.

(** X1: any run of mark toggles keeps the marks' indices different from
    each other, non-negative and below the counter, as long as the counter
    cannot reach the largest [int] on the way; the counter grows by at most
    one per toggle. *)
Theorem toggles_keep_indices paths n :
  marksInv n -> nav.markInd n + len paths <= intMax ->
  marksInv (toggles paths n) /\
  nav.markInd (toggles paths n) <= nav.markInd n + len paths.
Proof.
  unfold toggles, len. revert n.
  induction paths as [|path paths IH]; intros n Hinv Hmax; simpl fold_left.
  - split; [exact Hinv|]. simpl. lia.
  - simpl List.length in *.
    assert (H0 : 0 <= nav.markInd n) by apply Hinv.
    pose proof (toggleMark_markInd path n ltac:(lia)) as Hstep.
    destruct (IH (nav.toggleMark path n)) as [IH1 IH2].
    + apply toggleMark_marksInv; [exact Hinv|lia].
    + lia.
    + split; [exact IH1|lia].
Qed.

Lemma marksInv_start d height : marksInv (browsing d height).
Proof.
  split; [simpl; lia|].
  split; intros *; simpl; rewrite lookup_empty; discriminate.
Qed.

Lemma toggles_keep_indices_witness :
  marksInv (browsing desk 5) /\
  nav.markInd (browsing desk 5) + len ["/a"; "/b"; "/a"] <= intMax /\
  marksInv (toggles ["/a"; "/b"; "/a"] (browsing desk 5)) /\
  nav.markInd (toggles ["/a"; "/b"; "/a"] (browsing desk 5))
  <= nav.markInd (browsing desk 5) + len ["/a"; "/b"; "/a"].
Proof.
  assert (H0 : marksInv (browsing desk 5)) by apply marksInv_start.
  assert (H1 : nav.markInd (browsing desk 5) + len ["/a"; "/b"; "/a"]
               <= intMax) by (vm_compute; discriminate).
  split; [exact H0|]. split; [exact H1|].
  apply (toggles_keep_indices ["/a"; "/b"; "/a"] (browsing desk 5) H0 H1).
Defined.

Lemma marks_noTies n :
  marksInv n ->
  noTies (fun x y : string * Z => x.2 <? y.2) (map_to_list (nav.marks n)).
Proof.
  intros (_ & _ & Hinj) [p i] [q j] Hx Hy. simpl.
  apply list_elem_of_In, elem_of_map_to_list in Hx.
  apply list_elem_of_In, elem_of_map_to_list in Hy.
  destruct (Z.lt_trichotomy i j) as [Hlt|[->|Hlt]].
  - right. left. now apply Z.ltb_lt.
  - left. f_equal. eauto.
  - right. right. now apply Z.ltb_lt.
Qed.

Lemma noTies_Permutation {A : Type} (lt : A -> A -> bool) (s s' : list A) :
  s ≡ₚ s' -> noTies lt s -> noTies lt s'.
Proof.
  intros Hp H x y Hx Hy. apply H; eapply Permutation_in;
    try eassumption; now symmetry.
Qed.

(** X2: when the marks' indices differ, [currMarks] does not depend on the
    order in which the [range] over the map meets the marks, and it lists
    the marked paths, each once. *)
Theorem currMarks_any_order n ranged ranged' :
  marksInv n -> nav.ranges n ranged -> nav.ranges n ranged' ->
  nav.currMarks ranged = nav.currMarks ranged' /\
  nav.currMarks ranged ≡ₚ (map_to_list (nav.marks n)).*1.
Proof.
  unfold nav.ranges. intros Hinv Hr Hr'.
  pose proof byIndex_strictWeak as Hsw.
  split.
  - apply currMarks_sorted.
    + now rewrite insertionSort_Permutation, Hr, Hr'.
    + apply (insertionSort_ascending _ ranged' Hsw).
    + eapply noTies_Permutation; [|apply (marks_noTies n Hinv)].
      now rewrite insertionSort_Permutation, Hr'.
  - unfold nav.currMarks. now rewrite insertionSort_Permutation, Hr.
Qed.

Lemma currMarks_any_order_witness :
  marksInv (toggles ["/a"; "/b"] (browsing desk 5)) /\
  nav.ranges (toggles ["/a"; "/b"] (browsing desk 5)) [("/a", 0); ("/b", 1)] /\
  nav.ranges (toggles ["/a"; "/b"] (browsing desk 5)) [("/b", 1); ("/a", 0)] /\
  nav.currMarks [("/a", 0); ("/b", 1)] = nav.currMarks [("/b", 1); ("/a", 0)] /\
  nav.currMarks [("/a", 0); ("/b", 1)]
  ≡ₚ (map_to_list (nav.marks (toggles ["/a"; "/b"] (browsing desk 5)))).*1.
Proof.
  assert (H1 : marksInv (toggles ["/a"; "/b"] (browsing desk 5))).
  { unfold toggles. simpl.
    apply toggleMark_marksInv; [|vm_compute; reflexivity].
    apply toggleMark_marksInv; [apply marksInv_start|vm_compute; reflexivity]. }
  assert (H2 : nav.ranges (toggles ["/a"; "/b"] (browsing desk 5))
                 [("/b", 1); ("/a", 0)])
    by (unfold nav.ranges; vm_compute; (reflexivity || apply perm_swap)).
  assert (H3 : nav.ranges (toggles ["/a"; "/b"] (browsing desk 5))
                 [("/a", 0); ("/b", 1)])
    by (unfold nav.ranges; vm_compute; (reflexivity || apply perm_swap)).
  split; [exact H1|]. split; [exact H3|]. split; [exact H2|].
  apply (currMarks_any_order _ _ _ H1 H3 H2).
Defined.

Lemma ascending_filter {A : Type} (lt : A -> A -> bool) (r : A -> bool) s :
  ascending lt s -> ascending lt (List.filter r s).
Proof.
  intros Hs. induction Hs as [|x s Hs IH Hx]; simpl; [constructor|].
  destruct (r x); [|exact IH]. constructor; [exact IH|].
  apply Forall_forall. intros y Hy.
  apply list_elem_of_In, List.filter_In in Hy as [Hy _].
  rewrite Forall_forall in Hx. now apply Hx, list_elem_of_In.
Qed.

Lemma filter_Permutation {A : Type} (r : A -> bool) (s s' : list A) :
  s ≡ₚ s' -> List.filter r s ≡ₚ List.filter r s'.
Proof.
  induction 1 as [|x s s' _ IH|x y s|s s' s'' _ IH1 _ IH2]; simpl.
  - reflexivity.
  - destruct (r x); now rewrite IH.
  - destruct (r x), (r y); try reflexivity. apply perm_swap.
  - now rewrite IH1.
Qed.

Lemma fmap_filter_fst (path : string) (s : list (string * Z)) :
  (List.filter (fun x : string * Z => negb (String.eqb x.1 path)) s).*1
  = List.filter (fun q => negb (String.eqb q path)) (s.*1).
Proof.
  induction s as [|[q i] s IH]; simpl; [reflexivity|].
  destruct (negb (String.eqb q path)); simpl; [f_equal|]; exact IH.
Qed.

(** X3: a path that is toggled on comes last in [currMarks], after the
    paths that were marked before, which keep their order. *)
Theorem toggleMark_on_appends path n ranged ranged' :
  marksInv n -> nav.markInd n < intMax ->
  nav.marks n !! path = None ->
  nav.ranges n ranged -> nav.ranges (nav.toggleMark path n) ranged' ->
  nav.currMarks ranged' = nav.currMarks ranged ++ [path].
Proof.
  unfold nav.ranges. intros Hinv Hmax Hp Hr Hr'.
  pose proof (toggleMark_marksInv path n Hinv Hmax) as Hinv'.
  destruct (toggleMark_on path n Hp) as [Hm _].
  set (S := insertionSort nav.lessIndex ranged).
  assert (HS : S ≡ₚ map_to_list (nav.marks n))
    by (unfold S; now rewrite insertionSort_Permutation).
  assert (Hperm : ranged' ≡ₚ S ++ [(path, nav.markInd n)]).
  { rewrite Hr', Hm, map_to_list_insert by exact Hp.
    now rewrite HS, Permutation_cons_append. }
  rewrite (currMarks_sorted ranged' (S ++ [(path, nav.markInd n)]) Hperm).
  - unfold nav.currMarks. fold S. now rewrite fmap_app.
  - apply StronglySorted_app; split_and!.
    + intros x y Hx Hy. apply list_elem_of_singleton in Hy. subst y. simpl.
      rewrite HS in Hx. destruct x as [q j].
      apply elem_of_map_to_list in Hx. destruct Hinv as (_ & Hlt & _).
      specialize (Hlt q j Hx). simpl. apply Z.ltb_ge. lia.
    + apply (insertionSort_ascending _ ranged byIndex_strictWeak).
    + repeat constructor.
  - eapply noTies_Permutation; [|apply (marks_noTies _ Hinv')].
    now rewrite <- Hperm, Hr'.
Qed.

Lemma toggleMark_on_appends_witness :
  marksInv (toggles ["/a"] (browsing desk 5)) /\
  nav.markInd (toggles ["/a"] (browsing desk 5)) < intMax /\
  nav.marks (toggles ["/a"] (browsing desk 5)) !! "/b" = None /\
  nav.ranges (toggles ["/a"] (browsing desk 5)) [("/a", 0)] /\
  nav.ranges (nav.toggleMark "/b" (toggles ["/a"] (browsing desk 5)))
             [("/b", 1); ("/a", 0)] /\
  nav.currMarks [("/b", 1); ("/a", 0)] = nav.currMarks [("/a", 0)] ++ ["/b"].
Proof.
  assert (H1 : marksInv (toggles ["/a"] (browsing desk 5))).
  { unfold toggles. simpl.
    apply toggleMark_marksInv; [apply marksInv_start|vm_compute; reflexivity]. }
  assert (H2 : nav.markInd (toggles ["/a"] (browsing desk 5)) < intMax)
    by (vm_compute; reflexivity).
  assert (H3 : nav.marks (toggles ["/a"] (browsing desk 5)) !! "/b" = None)
    by reflexivity.
  assert (H4 : nav.ranges (toggles ["/a"] (browsing desk 5)) [("/a", 0)])
    by (unfold nav.ranges; vm_compute; reflexivity).
  assert (H5 : nav.ranges (nav.toggleMark "/b"
                             (toggles ["/a"] (browsing desk 5)))
                 [("/b", 1); ("/a", 0)])
    by (unfold nav.ranges; vm_compute; (reflexivity || apply perm_swap)).
  split; [exact H1|]. split; [exact H2|]. split; [exact H3|].
  split; [exact H4|]. split; [exact H5|].
  apply (toggleMark_on_appends "/b" _ _ _ H1 H2 H3 H4 H5).
Defined.

(** X4: a path that is toggled off leaves [currMarks], and the other marked
    paths keep their order. *)
Theorem toggleMark_off_removes path n i ranged ranged' :
  marksInv n -> nav.marks n !! path = Some i ->
  nav.ranges n ranged -> nav.ranges (nav.toggleMark path n) ranged' ->
  nav.currMarks ranged'
  = List.filter (fun q => negb (String.eqb q path)) (nav.currMarks ranged).
Proof.
  unfold nav.ranges. intros Hinv Hp Hr Hr'.
  destruct (toggleMark_off path n i Hp) as [Hm _].
  set (S := insertionSort nav.lessIndex ranged).
  set (keep := fun x : string * Z => negb (String.eqb x.1 path)).
  assert (HS : S ≡ₚ map_to_list (nav.marks n))
    by (unfold S; now rewrite insertionSort_Permutation).
  assert (Hperm : ranged' ≡ₚ List.filter keep S).
  { rewrite Hr', Hm. symmetry.
    etransitivity; [apply filter_Permutation, HS|].
    etransitivity;
      [apply filter_Permutation; symmetry;
       apply (map_to_list_delete (nav.marks n) path i Hp)|].
    simpl. unfold keep at 1. simpl. rewrite String.eqb_refl. simpl.
    rewrite forallb_filter_id; [reflexivity|].
    apply forallb_forall. intros [q j] Hq.
    apply list_elem_of_In, elem_of_map_to_list, lookup_delete_Some in Hq.
    unfold keep. simpl. apply negb_true_iff, String.eqb_neq. intuition. }
  rewrite (currMarks_sorted ranged' (List.filter keep S) Hperm).
  - unfold nav.currMarks. fold S. apply fmap_filter_fst.
  - apply ascending_filter.
    apply (insertionSort_ascending _ ranged byIndex_strictWeak).
  - apply noTies_filter.
    eapply noTies_Permutation; [|apply (marks_noTies _ Hinv)].
    now rewrite HS.
Qed.

Lemma toggleMark_off_removes_witness :
  marksInv (toggles ["/a"; "/b"] (browsing desk 5)) /\
  nav.marks (toggles ["/a"; "/b"] (browsing desk 5)) !! "/a" = Some 0 /\
  nav.ranges (toggles ["/a"; "/b"] (browsing desk 5))
             [("/b", 1); ("/a", 0)] /\
  nav.ranges (nav.toggleMark "/a" (toggles ["/a"; "/b"] (browsing desk 5)))
             [("/b", 1)] /\
  nav.currMarks [("/b", 1)]
  = List.filter (fun q => negb (String.eqb q "/a"))
                (nav.currMarks [("/b", 1); ("/a", 0)]).
Proof.
  assert (H1 : marksInv (toggles ["/a"; "/b"] (browsing desk 5))).
  { unfold toggles. simpl.
    apply toggleMark_marksInv; [|vm_compute; reflexivity].
    apply toggleMark_marksInv; [apply marksInv_start|vm_compute; reflexivity]. }
  assert (H2 : nav.marks (toggles ["/a"; "/b"] (browsing desk 5)) !! "/a"
               = Some 0) by reflexivity.
  assert (H3 : nav.ranges (toggles ["/a"; "/b"] (browsing desk 5))
                 [("/b", 1); ("/a", 0)])
    by (unfold nav.ranges; vm_compute; (reflexivity || apply perm_swap)).
  assert (H4 : nav.ranges (nav.toggleMark "/a"
                             (toggles ["/a"; "/b"] (browsing desk 5)))
                 [("/b", 1)])
    by (unfold nav.ranges; vm_compute; reflexivity).
  split; [exact H1|]. split; [exact H2|]. split; [exact H3|].
  split; [exact H4|].
  apply (toggleMark_off_removes "/a" _ 0 _ _ H1 H2 H3 H4).
Defined.

Lemma toggleMark_lookup path n q :
  nav.marks (nav.toggleMark path n) !! q
  = if decide (q = path) then
      match nav.marks n !! path with
      | Some _ => None
      | None => Some (nav.markInd n)
      end
    else nav.marks n !! q.
Proof.
  unfold nav.toggleMark. destruct (nav.marks n !! path) eqn:Hp; simpl;
    destruct (decide (q = path)) as [->|Hne].
  - apply lookup_delete_eq.
  - now apply lookup_delete_ne.
  - apply lookup_insert_eq.
  - now apply lookup_insert_ne.
Qed.

(** X5: toggling an unmarked path on and off again gives back the marks as
    they were; the counter has moved on by one, or is back at [0] when no
    mark is left. *)
Theorem toggleMark_on_off path n :
  nav.marks n !! path = None ->
  nav.marks (nav.toggleMark path (nav.toggleMark path n)) = nav.marks n /\
  nav.markInd (nav.toggleMark path (nav.toggleMark path n))
  = if Nat.eqb (size (nav.marks n)) 0 then 0 else addi (nav.markInd n) 1.
Proof.
  intros Hp. destruct (toggleMark_on path n Hp) as [Hm1 Hi1].
  destruct (toggleMark_off path (nav.toggleMark path n) (nav.markInd n))
    as [Hm2 Hi2].
  { rewrite Hm1. apply lookup_insert_eq. }
  rewrite Hm2, Hi2, Hm1, Hi1. now rewrite delete_insert_id.
Qed.

Lemma toggleMark_on_off_witness :
  nav.marks (toggles ["/a"] (browsing desk 5)) !! "/b" = None /\
  nav.marks (nav.toggleMark "/b"
               (nav.toggleMark "/b" (toggles ["/a"] (browsing desk 5))))
  = nav.marks (toggles ["/a"] (browsing desk 5)) /\
  nav.markInd (nav.toggleMark "/b"
                 (nav.toggleMark "/b" (toggles ["/a"] (browsing desk 5))))
  = if Nat.eqb (size (nav.marks (toggles ["/a"] (browsing desk 5)))) 0
    then 0 else addi (nav.markInd (toggles ["/a"] (browsing desk 5))) 1.
Proof.
  assert (H : nav.marks (toggles ["/a"] (browsing desk 5)) !! "/b" = None)
    by reflexivity.
  split; [exact H|].
  apply (toggleMark_on_off "/b" (toggles ["/a"] (browsing desk 5)) H).
Defined.

Lemma toggles_flip paths n q :
  NoDup paths ->
  is_Some (nav.marks (toggles paths n) !! q)
  <-> (In q paths /\ nav.marks n !! q = None) \/
      (~ In q paths /\ is_Some (nav.marks n !! q)).
Proof.
  unfold toggles. intros Hnd. revert n.
  induction Hnd as [|path paths Hnotin Hnd IH]; intros n; simpl.
  - intuition.
  - rewrite IH, toggleMark_lookup. rewrite list_elem_of_In in Hnotin.
    destruct (decide (q = path)) as [->|Hne].
    + destruct (nav.marks n !! path) eqn:Hp.
      * split; [intros [[? _]|[_ [? ?]]]; [contradiction|discriminate]|].
        intros [[_ ?]|[Hn _]]; [discriminate|]. exfalso. apply Hn. now left.
      * split; [intros _; left; auto|]. intros _. right. split; eauto.
    + split.
      * intros [[Hin Hq]|[Hin Hq]]; [left|right]; split; auto.
        intros [?|?]; [congruence|contradiction].
      * intros [[[?|Hin] Hq]|[Hin Hq]]; [congruence|left|right]; auto.
Qed.

(** X6: [invert] turns the marks of the visible entries around: when the
    entries' paths differ from each other, a path is marked afterwards
    exactly if it belongs to a visible entry that was not marked, or to no
    visible entry and was marked. The stack and the listings are left as
    they are. *)
Theorem invert_flips_visible {E : Extern} n d :
  nav.currDir n = Some d -> NoDup (visiblePaths d) ->
  exists n',
    nav.invert n = Ok n' /\
    nav.dirs n' = nav.dirs n /\ nav.heap n' = nav.heap n /\
    forall q,
      is_Some (nav.marks n' !! q)
      <-> (In q (visiblePaths d) /\ nav.marks n !! q = None) \/
          (~ In q (visiblePaths d) /\ is_Some (nav.marks n !! q)).
Proof.
  intros Hd Hnd. unfold nav.invert. rewrite Hd. eexists. split; [reflexivity|].
  assert (Hfold : forall s m,
             fold_left (fun m f => nav.toggleMark
                                     (Join (dir.path d) (file.Name f)) m) s m
             = toggles ((fun f => Join (dir.path d) (file.Name f)) <$> s) m).
  { unfold toggles. induction s as [|f s IH]; intros m; simpl; auto. }
  rewrite Hfold. fold (visiblePaths d).
  assert (Hsame : forall ps m, nav.dirs (toggles ps m) = nav.dirs m /\
                               nav.heap (toggles ps m) = nav.heap m).
  { unfold toggles. induction ps as [|q ps IH]; intros m; simpl; [auto|].
    destruct (IH (nav.toggleMark q m)) as [-> ->].
    unfold nav.toggleMark. destruct (nav.marks m !! q); auto. }
  destruct (Hsame (visiblePaths d) n) as [-> ->].
  split; [reflexivity|]. split; [reflexivity|].
  intros q. now apply toggles_flip.
Qed.

Lemma invert_flips_visible_witness :
  nav.currDir (toggles ["/home/a.txt"] (browsing desk 5)) = Some desk /\
  NoDup (visiblePaths (E := posix) desk) /\
  exists n',
    nav.invert (E := posix) (toggles ["/home/a.txt"] (browsing desk 5))
    = Ok n' /\
    nav.dirs n' = nav.dirs (toggles ["/home/a.txt"] (browsing desk 5)) /\
    nav.heap n' = nav.heap (toggles ["/home/a.txt"] (browsing desk 5)) /\
    forall q,
      is_Some (nav.marks n' !! q)
      <-> (In q (visiblePaths (E := posix) desk) /\
           nav.marks (toggles ["/home/a.txt"] (browsing desk 5)) !! q = None) \/
          (~ In q (visiblePaths (E := posix) desk) /\
           is_Some (nav.marks (toggles ["/home/a.txt"] (browsing desk 5))
                    !! q)).
Proof.
  assert (H1 : nav.currDir (toggles ["/home/a.txt"] (browsing desk 5))
               = Some desk) by reflexivity.
  assert (H2 : NoDup (visiblePaths (E := posix) desk)).
  { apply (bool_decide_unpack _). vm_compute. exact I. }
  split; [exact H1|]. split; [exact H2|].
  apply (invert_flips_visible (E := posix) _ desk H1 H2).
Defined.

End Marks.

(** ** [nav.renew] and the workers *)

Section Renew.

Context {E : Extern}.
Implicit Types (n : nav.t) (fs : filesys).

(** X7: [renew] keeps exactly the marks whose path [os.Stat] does not
    report as not found, with their indices; it sets the counter back to
    [0] when no mark is left; it keeps the marks' indices different and
    below the counter; and it leaves the stack and the listings alone,
    takes the new height, and starts one worker for each level of the
    stack. *)
Theorem renew_prunes_marks fs height n :
  (forall p i,
     nav.marks (nav.renew fs height n).1 !! p = Some i
     <-> nav.marks n !! p = Some i /\
         IsNotExist (statErr (fs_stat fs p)) = false) /\
  nav.markInd (nav.renew fs height n).1
  = (if Nat.eqb (size (nav.marks (nav.renew fs height n).1)) 0
     then 0 else nav.markInd n) /\
  (marksInv n -> marksInv (nav.renew fs height n).1) /\
  nav.dirs (nav.renew fs height n).1 = nav.dirs n /\
  nav.heap (nav.renew fs height n).1 = nav.heap n /\
  nav.height (nav.renew fs height n).1 = height /\
  (nav.renew fs height n).2 = (fun d => Go (RenewWorker d)) <$> nav.dirs n.
Proof.
  unfold nav.renew. simpl.
  set (live := filter _ (nav.marks n)).
  assert (Hlive : forall p i,
             live !! p = Some i
             <-> nav.marks n !! p = Some i /\
                 IsNotExist (statErr (fs_stat fs p)) = false).
  { intros p i. unfold live. now rewrite map_lookup_filter_Some. }
  split; [exact Hlive|]. split; [reflexivity|].
  split; [|repeat split].
  intros (H0 & Hlt & Hinj). unfold marksInv. simpl.
  destruct (Nat.eqb_spec (size live) 0) as [Hz|Hz].
  - apply map_size_empty_iff in Hz. rewrite Hz.
    split; [lia|]. split; intros *; rewrite lookup_empty; discriminate.
  - split; [exact H0|]. split.
    + intros p i Hp. apply Hlive in Hp as [Hp _]. eauto.
    + intros p q i Hp Hq. apply Hlive in Hp as [Hp _].
      apply Hlive in Hq as [Hq _]. eauto.
Qed.

Lemma renew_cache_fold (h : list dir.t) ds (c : gmap string nat) path p :
  fold_left (fun c d => match h !! d with
                        | Some dd => <[dir.path dd := d]> c
                        | None => c
                        end) ds c !! path = Some p ->
  (In p ds /\ exists d, h !! p = Some d /\ dir.path d = path) \/
  c !! path = Some p.
Proof.
  revert c. induction ds as [|x ds IH]; intros c; simpl; [auto|].
  intros H. apply IH in H as [[Hin Hd]|H]; [left; auto|].
  destruct (h !! x) as [dd|] eqn:Hx; [|auto].
  apply lookup_insert_Some in H as [[<- <-]|[_ H]]; [|auto].
  left. split; [now left|eauto].
Qed.

Lemma renew_cache_keeps (h : list dir.t) ds (c : gmap string nat) path :
  is_Some (c !! path) ->
  is_Some (fold_left (fun c d => match h !! d with
                                 | Some dd => <[dir.path dd := d]> c
                                 | None => c
                                 end) ds c !! path).
Proof.
  revert c. induction ds as [|x ds IH]; intros c Hc; simpl; [exact Hc|].
  apply IH. destruct (h !! x) as [dd|]; [|exact Hc].
  destruct (decide (dir.path dd = path)) as [<-|Hne].
  - rewrite lookup_insert_eq. eauto.
  - now rewrite lookup_insert_ne.
Qed.

(** X8: after [renew] the cache holds the listings of the stack and nothing
    else: a cached listing is a level of the stack, cached under its own
    path, and the path of every level of the stack is cached. *)
Theorem renew_rebuilds_cache fs height n :
  (forall path p,
     nav.dirCache (nav.renew fs height n).1 !! path = Some p ->
     In p (nav.dirs n) /\
     exists d, nav.heap n !! p = Some d /\ dir.path d = path) /\
  (forall p d,
     In p (nav.dirs n) -> nav.heap n !! p = Some d ->
     is_Some (nav.dirCache (nav.renew fs height n).1 !! dir.path d)).
Proof.
  unfold nav.renew. simpl. split.
  - intros path p H. apply renew_cache_fold in H as [H|H]; [exact H|].
    rewrite lookup_empty in H. discriminate.
  - intros p d Hin Hd. generalize (∅ : gmap string nat) as c.
    induction (nav.dirs n) as [|x ds IH]; intros c; [contradiction|].
    simpl. destruct Hin as [->|Hin]; [|now apply IH].
    rewrite Hd. apply renew_cache_keeps.
    rewrite lookup_insert_eq. eauto.
Qed.

(** What a worker gets from [newDir] and [dir.sort]. *)
Lemma newDir_sorted fs o time path :
  hidden o = true \/
  Forall (fun f => file.named f = true) (readdir fs path).1.1 ->
  exists d,
    dir.sort o (dir.newDir fs time path).1 = Some d /\
    dir.path d = path /\ dir.loading d = false /\ dir.loadTime d = time /\
    dir.ind d = 0 /\ dir.pos d = 0 /\
    dir.all d ≡ₚ (readdir fs path).1.1 /\
    (exists hid, dir.all d = hid ++ dir.fi d).
Proof.
  intros Hok. unfold dir.newDir.
  destruct (readdir fs path) as [[files err] logs]. simpl in *.
  destruct (hidden o) eqn:Hh.
  - unfold dir.sort. rewrite Hh. eexists. split; [reflexivity|]. simpl.
    repeat split; [apply arrange_Permutation|now exists []].
  - destruct Hok as [|Hok]; [discriminate|].
    rewrite sort_wellNamed by exact Hok. rewrite Hh.
    eexists. split; [reflexivity|]. simpl.
    repeat split; [apply arrayAfterSort_Permutation|].
    destruct (dropHidden_suffix
                (arrayAfterSort o files)) as (hid & Hs & _).
    now exists hid.
Qed.

(** X9: the worker of [loadDir] sends one listing and nothing else to the
    owner: the listing of the path it was started for, not loading, with
    the cursor at the top, holding the entries that [readdir] returned
    (when hidden entries are filtered, the entries must have names). *)
Theorem loadDirWorker_sends_listing fs o time path :
  hidden o = true \/
  Forall (fun f => file.named f = true) (readdir fs path).1.1 ->
  exists d logs,
    nav.loadDirWorker fs o time path = (Ok tt, (Log <$> logs) ++ [SendDir d]) /\
    dir.path d = path /\ dir.loading d = false /\
    dir.ind d = 0 /\ dir.pos d = 0 /\
    dir.all d ≡ₚ (readdir fs path).1.1 /\
    (exists hid, dir.all d = hid ++ dir.fi d).
Proof.
  intros Hok. unfold nav.loadDirWorker.
  destruct (newDir_sorted fs o time path Hok)
    as (d & Hsort & Hp & Hl & _ & _ & _ & Hall & Hfi).
  destruct (dir.newDir fs time path) as [d0 logs]. simpl in Hsort.
  rewrite Hsort. exists (dir.setCursor d 0 0), logs.
  split; [reflexivity|]. simpl. repeat split; assumption.
Qed.

End Renew.

Lemma loadDirWorker_sends_listing_witness :
  (hidden (byName false) = true \/
   Forall (fun f => file.named f = true)
          (readdir (E := posix) disk "/home").1.1) /\
  exists d logs,
    nav.loadDirWorker (E := posix) disk (byName false) 9 "/home"
    = (Ok tt, (Log <$> logs) ++ [SendDir d]) /\
    dir.path d = "/home" /\ dir.loading d = false /\
    dir.ind d = 0 /\ dir.pos d = 0 /\
    dir.all d ≡ₚ (readdir (E := posix) disk "/home").1.1 /\
    (exists hid, dir.all d = hid ++ dir.fi d).
Proof.
  assert (H : hidden (byName false) = true \/
              Forall (fun f => file.named f = true)
                     (readdir (E := posix) disk "/home").1.1)
    by (right; vm_compute; repeat constructor).
  split; [exact H|].
  apply (loadDirWorker_sends_listing (E := posix) disk (byName false) 9
           "/home" H).
Defined.


Section RenewWorker.

Context {E : Extern}.

(** X10: the worker of [renew], when [os.Stat] succeeds: it does nothing if
    the listing was loaded after the directory last changed; otherwise it
    stamps the stacked listing with the time and sends a fresh listing of
    the same path to the owner, without touching the stacked listing's
    entries or cursor. *)
Theorem renewWorker_reloads_stale fs o time1 time2 p n d s :
  nav.heap n !! p = Some d -> fs_stat fs (dir.path d) = StatOk s ->
  hidden o = true \/
  Forall (fun f => file.named f = true) (readdir fs (dir.path d)).1.1 ->
  (ModTime s < dir.loadTime d ->
   nav.renewWorker fs o time1 time2 p n = (Ok n, [])) /\
  (dir.loadTime d <= ModTime s ->
   exists nd logs,
     nav.renewWorker fs o time1 time2 p n
     = (Ok (nav.setHeap n (<[p := dir.setLoadTime d time1]> (nav.heap n))),
        (Log <$> logs) ++ [SendDir nd]) /\
     dir.path nd = dir.path d /\ dir.loading nd = false /\
     dir.loadTime nd = time2 /\
     dir.all nd ≡ₚ (readdir fs (dir.path d)).1.1).
Proof.
  intros Hd Hs Hok. unfold nav.renewWorker. rewrite Hd, Hs. split.
  - intros Hlt. now apply Z.ltb_lt in Hlt as ->.
  - intros Hge. apply Z.ltb_ge in Hge as ->.
    destruct (newDir_sorted fs o time2 (dir.path d) Hok)
      as (nd & Hsort & Hp & Hl & Ht & _ & _ & Hall & _).
    destruct (dir.newDir fs time2 (dir.path d)) as [d0 logs].
    simpl in Hsort. rewrite Hsort. exists nd, logs.
    split; [reflexivity|]. auto.
Qed.

Lemma scan_scanned fs path N names err fi logs :
  (forall x, In x names -> In x N) ->
  Forall (scanned fs path N) fi ->
  Forall (scanned fs path N) (scan fs path names err fi logs).1.1.
Proof.
  revert fi logs. induction names as [|x names IH]; intros fi logs HN Hfi;
    simpl; [exact Hfi|].
  assert (Hx : In x N) by (apply HN; now left).
  assert (Hrest : forall y, In y names -> In y N)
    by (intros y Hy; apply HN; now right).
  destruct (fs_lstat fs (Join path x)) as [lstat|e] eqn:Hl.
  - destruct (Z.eqb_spec (Z.land (Mode lstat) ModeSymlink) 0) as [Hz|Hz];
      simpl.
    + apply IH; [exact Hrest|]. apply Forall_app. split; [exact Hfi|].
      constructor; [|constructor]. exists x, lstat. simpl.
      repeat split; auto.
    + destruct (fs_stat fs (Join path x)) as [stat|serr] eqn:Hs;
        (apply IH; [exact Hrest|]); apply Forall_app;
        (split; [exact Hfi|]); (constructor; [|constructor]);
        exists x, lstat; simpl; repeat split; eauto.
  - destruct e as [op p []|msg]; simpl; try exact Hfi. now apply IH.
Qed.

(** X11: every entry that [readdir] returns belongs to a name of the
    directory whose [Lstat] succeeded; it carries the joined path and the
    count [-1]; it is no link exactly when [Lstat] shows no symbolic link,
    and then carries the [Lstat] data; a working link carries the data of
    the target's [Stat]; a broken link carries the link's own [Lstat] data,
    and [Stat] failed on it. *)
Theorem readdir_entries fs path f :
  In f (readdir fs path).1.1 ->
  scanned fs path (fs_names fs path).1 f.
Proof.
  unfold readdir. destruct (fs_open fs path); [contradiction|].
  destruct (fs_names fs path) as [names err]. simpl.
  intros Hf. pose proof (scan_scanned fs path names names err [] []
                           (fun x H => H) (List.Forall_nil _)) as Hall.
  rewrite Forall_forall in Hall. now apply Hall, list_elem_of_In.
Qed.

End RenewWorker.

Lemma renewWorker_reloads_stale_witness :
  nav.heap (browsing desk 5) !! 0%nat = Some desk /\
  fs_stat disk (dir.path desk)
  = StatOk (mkInfo "home" 4096 (Z.lor ModeDir 493) 4) /\
  (hidden (byName true) = true \/
   Forall (fun f => file.named f = true)
          (readdir (E := posix) disk (dir.path desk)).1.1) /\
  (ModTime (mkInfo "home" 4096 (Z.lor ModeDir 493) 4) < dir.loadTime desk ->
   nav.renewWorker (E := posix) disk (byName true) 8 9 0 (browsing desk 5)
   = (Ok (browsing desk 5), [])) /\
  (dir.loadTime desk <= ModTime (mkInfo "home" 4096 (Z.lor ModeDir 493) 4) ->
   exists nd logs,
     nav.renewWorker (E := posix) disk (byName true) 8 9 0 (browsing desk 5)
     = (Ok (nav.setHeap (browsing desk 5)
              (<[0%nat := dir.setLoadTime desk 8]>
                 (nav.heap (browsing desk 5)))),
        (Log <$> logs) ++ [SendDir nd]) /\
     dir.path nd = dir.path desk /\ dir.loading nd = false /\
     dir.loadTime nd = 9 /\
     dir.all nd ≡ₚ (readdir (E := posix) disk (dir.path desk)).1.1).
Proof.
  assert (H1 : nav.heap (browsing desk 5) !! 0%nat = Some desk)
    by reflexivity.
  assert (H2 : fs_stat disk (dir.path desk)
               = StatOk (mkInfo "home" 4096 (Z.lor ModeDir 493) 4))
    by reflexivity.
  assert (H3 : hidden (byName true) = true \/
               Forall (fun f => file.named f = true)
                      (readdir (E := posix) disk (dir.path desk)).1.1)
    by (left; reflexivity).
  split; [exact H1|]. split; [exact H2|]. split; [exact H3|].
  apply (renewWorker_reloads_stale (E := posix) disk (byName true) 8 9 0%nat
           (browsing desk 5) desk _ H1 H2 H3).
Defined.

Lemma readdir_entries_witness :
  In (file.mk (mkInfo "dangling" 9 (Z.lor ModeSymlink 511) 8) broken
              "/home/dangling" (-1))
     (readdir (E := posix) disk "/home").1.1 /\
  scanned (E := posix) disk "/home" (fs_names disk "/home").1
    (file.mk (mkInfo "dangling" 9 (Z.lor ModeSymlink 511) 8) broken
             "/home/dangling" (-1)).
Proof.
  assert (H : In (file.mk (mkInfo "dangling" 9 (Z.lor ModeSymlink 511) 8)
                    broken "/home/dangling" (-1))
                 (readdir (E := posix) disk "/home").1.1)
    by (vm_compute; right; left; reflexivity).
  split; [exact H|].
  apply (readdir_entries (E := posix) disk "/home" _ H).
Defined.

(** ** The stack *)

Section Stack.

Context {E : Extern} {P : Filepath}.
Implicit Types (n : nav.t) (d : dir.t) (fs : filesys) (o : opts).

Lemma cursorOn_cases d :
  cursorOn d ->
  0 <= len (dir.fi d) <= intMax /\
  ((len (dir.fi d) = 0 /\ -1 <= dir.ind d <= 0) \/
   0 <= dir.ind d < len (dir.fi d)).
Proof.
  intros [Hlen H]. pose proof (len_nonneg (dir.fi d)).
  split; [lia|]. destruct H as [[Hfi Hi]|Hi]; [left|right; exact Hi].
  split; [now apply len_nil|exact Hi].
Qed.

Lemma cursorOn_intro d ind' pos' :
  0 <= len (dir.fi d) <= intMax ->
  (len (dir.fi d) = 0 /\ -1 <= ind' <= 0) \/ 0 <= ind' < len (dir.fi d) ->
  cursorOn (dir.setCursor d ind' pos').
Proof.
  intros Hlen H. split; simpl; [lia|].
  destruct H as [[Hz Hi]|Hi]; [left|right; exact Hi].
  split; [now apply len_nil|exact Hi].
Qed.

Lemma cursorOn_topOn d : cursorOn d -> cursorOn (nav.topOn d).
Proof.
  intros H. apply cursorOn_cases in H as [Hlen H].
  apply cursorOn_intro; [exact Hlen|lia].
Qed.

Lemma cursorOn_botOn height d : cursorOn d -> cursorOn (nav.botOn height d).
Proof.
  intros H. apply cursorOn_cases in H as [Hlen H]. unfold nav.botOn.
  apply cursorOn_intro; [exact Hlen|].
  unfold intMax in *. int_arith. lia.
Qed.

Lemma cursorOn_upOn o dist d :
  cursorOn d -> 0 <= dist <= intMax -> cursorOn (nav.upOn o dist d).
Proof.
  intros H Hdist. pose proof H as Hd.
  apply cursorOn_cases in H as [Hlen H]. unfold nav.upOn.
  destruct (dir.ind d =? 0); [exact Hd|].
  apply cursorOn_intro; [exact Hlen|].
  unfold intMax in *. int_arith. lia.
Qed.

Lemma cursorOn_downOn o height dist d :
  cursorOn d -> 0 <= dist -> dir.ind d + dist <= intMax ->
  cursorOn (nav.downOn o height dist d).
Proof.
  intros H Hdist Hsum. pose proof H as Hd.
  apply cursorOn_cases in H as [Hlen H]. unfold nav.downOn.
  unfold intMax in *.
  replace (subi (len (dir.fi d)) 1) with (len (dir.fi d) - 1)
    by (int_arith; reflexivity).
  destruct (Z.leb_spec (len (dir.fi d) - 1) (dir.ind d)); [exact Hd|].
  apply cursorOn_intro; [unfold intMax; exact Hlen|].
  int_arith. lia.
Qed.

Lemma sound_currDir n :
  sound n ->
  exists p d, last (nav.dirs n) = Some p /\ nav.heap n !! p = Some d /\
              nav.currDir n = Some d /\ cursorOn d.
Proof.
  intros (Hne & Hheap & Hdirs & _). unfold nav.currDir.
  destruct (last (nav.dirs n)) as [p|] eqn:Hlast.
  - assert (Hin : In p (nav.dirs n)).
    { apply list_elem_of_In. apply last_Some in Hlast as [l ->].
      apply elem_of_app. right. left. }
    destruct (lookup_lt_is_Some_2 (nav.heap n) p (Hdirs p Hin)) as [d Hd].
    exists p, d. split; [reflexivity|]. split; [exact Hd|].
    split; [exact Hd|].
    rewrite Forall_forall in Hheap. apply Hheap.
    eapply list_elem_of_lookup_2, Hd.
  - apply last_None in Hlast. contradiction.
Qed.

Lemma sound_setMarks n m i : sound n -> sound (nav.setMarks n m i).
Proof. now intros H. Qed.

Lemma sound_toggleMark path n : sound n -> sound (nav.toggleMark path n).
Proof.
  intros H. unfold nav.toggleMark.
  destruct (nav.marks n !! path); now apply sound_setMarks.
Qed.

Lemma sound_onCurrDir (f : dir.t -> dir.t) n :
  sound n -> (forall d, nav.currDir n = Some d -> cursorOn d -> cursorOn (f d)) ->
  exists n', nav.onCurrDir f n = Ok n' /\ sound n'.
Proof.
  intros Hs Hf. destruct (sound_currDir n Hs) as (p & d & Hlast & Hd & Hcur & Hon).
  unfold nav.onCurrDir. rewrite Hlast, Hd. eexists. split; [reflexivity|].
  destruct Hs as (Hne & Hheap & Hdirs & Hcache).
  split; [exact Hne|]. simpl. split; [|split].
  - apply Forall_insert; [exact Hheap|]. now apply Hf.
  - intros q Hq. rewrite length_insert. now apply Hdirs.
  - intros path q Hq. rewrite length_insert. now apply (Hcache path).
Qed.

Lemma currFile_sound n :
  sound n ->
  (exists curr d, nav.currFile n = Ok curr /\ nav.currDir n = Some d /\
                  0 <= dir.ind d < len (dir.fi d)) \/
  (exists e, nav.currFile n = Err e).
Proof.
  intros Hs. destruct (sound_currDir n Hs) as (p & d & _ & _ & Hcur & Hon).
  unfold nav.currFile. rewrite Hcur.
  apply cursorOn_cases in Hon as [Hlen [[Hz _]|Hi]].
  - right. rewrite Hz. simpl. eauto.
  - left. destruct (Z.eqb_spec (len (dir.fi d)) 0); [lia|].
    destruct (index_Some (dir.fi d) (dir.ind d) Hi) as [f ->]. eauto.
Qed.

Lemma sound_loadDir path n :
  sound n ->
  sound (nav.loadDir path n).1.2 /\
  ((nav.loadDir path n).1.1 < List.length (nav.heap (nav.loadDir path n).1.2))%nat /\
  nav.dirs (nav.loadDir path n).1.2 = nav.dirs n.
Proof.
  intros (Hne & Hheap & Hdirs & Hcache). unfold nav.loadDir.
  destruct (nav.dirCache n !! path) as [p|] eqn:Hp; simpl.
  - split; [now split|]. split; [now apply (Hcache path)|reflexivity].
  - rewrite length_app. simpl. split; [|split; [lia|reflexivity]].
    split; [exact Hne|]. simpl. split; [|split].
    + apply Forall_app. split; [exact Hheap|]. constructor; [|constructor].
      split; simpl; [unfold len, intMax; simpl; lia|left; split; [auto|lia]].
    + intros q Hq. rewrite length_app. specialize (Hdirs q Hq). lia.
    + intros path' q Hq. rewrite length_app. simpl.
      apply lookup_insert_Some in Hq as [[_ <-]|[_ Hq]]; [lia|].
      specialize (Hcache path' q Hq). lia.
Qed.

Lemma sound_open fs n :
  sound n -> returns (nav.open fs n).1.1 /\ sound (nav.open fs n).1.2.
Proof.
  intros Hs. unfold nav.open.
  destruct (currFile_sound n Hs) as [(curr & d & -> & _)|[e ->]];
    [|simpl; auto].
  destruct (sound_loadDir (file.path curr) n Hs) as (Hs1 & Hp & Hdirs).
  destruct (nav.loadDir (file.path curr) n) as [[p n1] acts]. simpl in *.
  assert (Hs2 : sound (nav.setDirs n1 (nav.dirs n1 ++ [p]))).
  { destruct Hs1 as (Hne & Hheap & Hd & Hc). split; [|split; [|split]]; simpl.
    - intros H. now apply app_eq_nil in H as [_ ?].
    - exact Hheap.
    - intros q Hq. apply in_app_iff in Hq as [Hq|[<-|[]]]; auto.
    - exact Hc. }
  destruct (fs_chdir fs (file.path curr)); simpl; auto.
Qed.

Lemma sound_updir fs n :
  sound n -> returns (nav.updir fs n).1.1 /\ sound (nav.updir fs n).1.2.
Proof.
  intros Hs. unfold nav.updir.
  destruct (Z.leb_spec (len (nav.dirs n)) 1) as [|Hlen]; [simpl; auto|].
  destruct (sound_currDir n Hs) as (p & d & _ & _ & -> & _).
  assert (Hs1 : sound (nav.setDirs n (take (List.length (nav.dirs n) - 1)
                                          (nav.dirs n)))).
  { destruct Hs as (Hne & Hheap & Hd & Hc). split; [|split; [|split]]; simpl.
    - unfold len in Hlen. destruct (nav.dirs n) as [|a [|b l]];
        simpl in *; try lia. discriminate.
    - exact Hheap.
    - intros q Hq. apply Hd. apply list_elem_of_In in Hq.
      apply list_elem_of_In. apply elem_of_take in Hq as (i & Hi & _).
      eapply list_elem_of_lookup_2, Hi.
    - exact Hc. }
  destruct (fs_chdir fs (Dir (dir.path d))); simpl; auto.
Qed.

Lemma sound_up o dist n :
  sound n -> 0 <= dist <= intMax ->
  exists n', nav.up o dist n = Ok n' /\ sound n'.
Proof.
  intros Hs Hdist. apply sound_onCurrDir; [exact Hs|].
  intros d _ Hd. now apply cursorOn_upOn.
Qed.

Lemma sound_down o dist n d :
  sound n -> nav.currDir n = Some d ->
  0 <= dist -> dir.ind d + dist <= intMax ->
  exists n', nav.down o dist n = Ok n' /\ sound n'.
Proof.
  intros Hs Hcur Hdist Hsum. apply sound_onCurrDir; [exact Hs|].
  intros d' Hd' Hon. rewrite Hcur in Hd'. injection Hd' as <-.
  now apply cursorOn_downOn.
Qed.

Lemma currDir_toggleMark path n :
  nav.currDir (nav.toggleMark path n) = nav.currDir n.
Proof. unfold nav.toggleMark. now destruct (nav.marks n !! path). Qed.

Lemma sound_toggle o n :
  sound n -> exists n', nav.toggle o n = Ok n' /\ sound n'.
Proof.
  intros Hs. unfold nav.toggle.
  destruct (currFile_sound n Hs) as [(curr & d & -> & Hcur & Hi)|[e ->]];
    [|eauto].
  destruct (sound_currDir n Hs) as (_ & d' & _ & _ & Hcur' & Hon).
  rewrite Hcur in Hcur'. injection Hcur' as <-. destruct Hon as [Hlen _].
  apply (sound_down o 1 _ d); [now apply sound_toggleMark| |lia|lia].
  now rewrite currDir_toggleMark.
Qed.

Lemma sound_invert n :
  sound n -> exists n', nav.invert n = Ok n' /\ sound n'.
Proof.
  intros Hs. unfold nav.invert.
  destruct (sound_currDir n Hs) as (_ & d & _ & _ & -> & _).
  eexists. split; [reflexivity|].
  revert n Hs. induction (dir.fi d) as [|f s IH]; intros n Hs; simpl;
    [exact Hs|]. now apply IH, sound_toggleMark.
Qed.

(** X12: from a state with a stack that is not empty and every cursor on an
    entry, the commands [open], [updir], [up], [down], [top], [bot],
    [toggle] and [invert] do not panic, whatever the file system answers,
    and they leave such a state behind ([up] and [down] for a distance that
    is not negative and does not overflow). In particular [updir] never
    empties the stack. *)
Theorem commands_never_panic fs o n :
  sound n ->
  (returns (nav.open fs n).1.1 /\ sound (nav.open fs n).1.2) /\
  (returns (nav.updir fs n).1.1 /\ sound (nav.updir fs n).1.2) /\
  (forall dist, 0 <= dist <= intMax ->
                exists n', nav.up o dist n = Ok n' /\ sound n') /\
  (forall dist d, nav.currDir n = Some d ->
                  0 <= dist -> dir.ind d + dist <= intMax ->
                  exists n', nav.down o dist n = Ok n' /\ sound n') /\
  (exists n', nav.top n = Ok n' /\ sound n') /\
  (exists n', nav.bot n = Ok n' /\ sound n') /\
  (exists n', nav.toggle o n = Ok n' /\ sound n') /\
  (exists n', nav.invert n = Ok n' /\ sound n').
Proof.
  intros Hs. split; [now apply sound_open|]. split; [now apply sound_updir|].
  split; [intros dist; now apply sound_up|].
  split; [intros dist d Hd H0 H1; now apply (sound_down o dist n d)|].
  split; [|split; [|split]].
  - apply sound_onCurrDir; [exact Hs|]. intros d _. apply cursorOn_topOn.
  - apply sound_onCurrDir; [exact Hs|]. intros d _. apply cursorOn_botOn.
  - now apply sound_toggle.
  - now apply sound_invert.
Qed.

Lemma setDirs_same n : nav.setDirs n (nav.dirs n) = n.
Proof. now destruct n. Qed.

Lemma setDirs_setDirs n ds ds' :
  nav.setDirs (nav.setDirs n ds) ds' = nav.setDirs n ds'.
Proof. reflexivity. Qed.

Lemma take_snoc {A : Type} (l : list A) (x : A) :
  take (List.length (l ++ [x]) - 1) (l ++ [x]) = l.
Proof.
  rewrite length_app. simpl.
  replace (List.length l + 1 - 1)%nat with (List.length l) by lia.
  now rewrite take_app_length.
Qed.

(** X13: [open] on an entry, [updir], and [open] on the same entry again:
    [updir] gives back the stack as it was, and the second [open] finds the
    listing in the cache, starts no worker, and gives the state the first
    [open] gave. *)
Theorem open_updir_open fs n curr :
  sound n -> nav.currFile n = Ok curr ->
  nav.dirs (nav.updir fs (nav.open fs n).1.2).1.2 = nav.dirs n /\
  nav.currFile (nav.updir fs (nav.open fs n).1.2).1.2 = Ok curr /\
  (nav.open fs (nav.updir fs (nav.open fs n).1.2).1.2).1.2
  = (nav.open fs n).1.2 /\
  (forall w, ~ In (Go w)
               (nav.open fs (nav.updir fs (nav.open fs n).1.2).1.2).2).
Proof.
  intros Hs Hcurr.
  destruct (sound_currDir n Hs) as (p0 & d & Hlast & Hd & Hcur & _).
  destruct (sound_loadDir (file.path curr) n Hs) as (Hs1 & Hp & Hdirs).
  (* the state after the first [open] *)
  assert (Hopen : exists p n1,
             (nav.open fs n).1.2 = n1 /\
             nav.dirs n1 = nav.dirs n ++ [p] /\
             nav.dirCache n1 !! file.path curr = Some p /\
             (p < List.length (nav.heap n1))%nat /\
             nav.heap n1 !! p0 = Some d).
  { unfold nav.open. rewrite Hcurr.
    unfold nav.loadDir in *.
    destruct (nav.dirCache n !! file.path curr) as [p|] eqn:Hc; simpl in *.
    - exists p. destruct (fs_chdir fs (file.path curr)); simpl;
        eexists; (split; [reflexivity|]); simpl; auto.
    - exists (List.length (nav.heap n)).
      destruct (fs_chdir fs (file.path curr)); simpl;
        eexists; (split; [reflexivity|]); simpl;
        (split; [reflexivity|]); (split; [apply lookup_insert_eq|]);
        (split; [exact Hp|]); rewrite lookup_app_l; auto;
        now apply lookup_lt_Some in Hd. }
  destruct Hopen as (p & n1 & -> & Hd1 & Hc1 & Hp1 & Hd0).
  destruct (lookup_lt_is_Some_2 (nav.heap n1) p Hp1) as [dd Hdd].
  (* [updir] *)
  assert (Hup : (nav.updir fs n1).1.2 = nav.setDirs n1 (nav.dirs n)).
  { unfold nav.updir, nav.currDir. rewrite Hd1, last_snoc, Hdd.
    replace (len (nav.dirs n ++ [p]) <=? 1) with false.
    - rewrite take_snoc.
      destruct (fs_chdir fs (Dir (dir.path dd))); reflexivity.
    - symmetry. apply Z.leb_gt. unfold len. rewrite length_app. simpl.
      destruct (nav.dirs n); [now destruct Hs|simpl; lia]. }
  rewrite Hup.
  assert (Hcurr2 : nav.currFile (nav.setDirs n1 (nav.dirs n)) = Ok curr).
  { unfold nav.currFile, nav.currDir in *. simpl. rewrite Hlast, Hd0.
    now rewrite Hlast, Hd in Hcurr. }
  split; [reflexivity|]. split; [exact Hcurr2|].
  unfold nav.open. rewrite Hcurr2. unfold nav.loadDir. simpl. rewrite Hc1.
  assert (Heq : nav.setDirs (nav.setDirs n1 (nav.dirs n)) (nav.dirs n ++ [p])
                = n1) by (rewrite <- Hd1; now destruct n1).
  destruct (fs_chdir fs (file.path curr)); simpl;
    (split; [exact Heq|]); intros w; intuition discriminate.
Qed.

Lemma sound_browsing d height : cursorOn d -> sound (browsing d height).
Proof.
  intros Hd. split; [discriminate|]. simpl. split; [|split].
  - now constructor.
  - intros p [<-|[]]. lia.
  - intros path p Hp. apply lookup_singleton_Some in Hp as [_ <-]. lia.
Qed.

Lemma cursorOn_desk : cursorOn desk /\ cursorOn deskSub.
Proof.
  split; (split; [vm_compute; discriminate|]); right; vm_compute;
    (split; [discriminate|reflexivity]).
Qed.

End Stack.

Lemma commands_never_panic_witness :
  sound (browsing desk 5) /\
  (returns (nav.open disk (browsing desk 5)).1.1 /\
   sound (nav.open disk (browsing desk 5)).1.2) /\
  (returns (nav.updir (P := plain)
              disk (browsing desk 5)).1.1 /\
   sound (nav.updir (P := plain)
            disk (browsing desk 5)).1.2) /\
  (forall dist, 0 <= dist <= intMax ->
     exists n', nav.up (margin 2) dist (browsing desk 5) = Ok n' /\ sound n') /\
  (forall dist d, nav.currDir (browsing desk 5) = Some d ->
                  0 <= dist -> dir.ind d + dist <= intMax ->
     exists n', nav.down (margin 2) dist (browsing desk 5) = Ok n' /\
                sound n') /\
  (exists n', nav.top (browsing desk 5) = Ok n' /\ sound n') /\
  (exists n', nav.bot (browsing desk 5) = Ok n' /\ sound n') /\
  (exists n', nav.toggle (margin 2) (browsing desk 5) = Ok n' /\ sound n') /\
  (exists n', nav.invert (E := posix) (browsing desk 5) = Ok n' /\ sound n').
Proof.
  assert (H : sound (browsing desk 5))
    by (apply sound_browsing, cursorOn_desk).
  split; [exact H|].
  apply (commands_never_panic (E := posix) disk (margin 2) (browsing desk 5) H).
Defined.

Example plain_Dir :
  Dir (Filepath := plain) "/home/sub" = "/home" /\
  Dir (Filepath := plain) "/home" = "/".
Proof. split; reflexivity. Qed.

Lemma open_updir_open_witness :
  sound (browsing deskSub 5) /\
  nav.currFile (browsing deskSub 5) = Ok (folder "sub" 5) /\
  nav.dirs (nav.updir (P := plain) disk
              (nav.open disk (browsing deskSub 5)).1.2).1.2
  = nav.dirs (browsing deskSub 5) /\
  nav.currFile (nav.updir (P := plain) disk
                  (nav.open disk (browsing deskSub 5)).1.2).1.2
  = Ok (folder "sub" 5) /\
  (nav.open disk (nav.updir (P := plain) disk
                    (nav.open disk (browsing deskSub 5)).1.2).1.2).1.2
  = (nav.open disk (browsing deskSub 5)).1.2 /\
  (forall w, ~ In (Go w)
               (nav.open disk
                  (nav.updir (P := plain) disk
                     (nav.open disk (browsing deskSub 5)).1.2).1.2).2).
Proof.
  assert (H1 : sound (browsing deskSub 5))
    by (apply sound_browsing, cursorOn_desk).
  assert (H2 : nav.currFile (browsing deskSub 5) = Ok (folder "sub" 5))
    by reflexivity.
  split; [exact H1|]. split; [exact H2|].
  apply (open_updir_open (P := plain) disk (browsing deskSub 5) _ H1 H2).
Defined.

(** ** [dir.find] and [nav.sort] *)

Lemma lookFor_Some name s i0 i :
  dir.lookFor name s i0 = Some i ->
  exists f, s !! Z.to_nat (i - i0) = Some f /\ file.Name f = name.
Proof.
  revert i0. induction s as [|f s IH]; simpl; intros i0 H; [discriminate|].
  destruct (String.eqb_spec (file.Name f) name) as [Hn|Hn].
  - injection H as <-. exists f. now rewrite Z.sub_diag.
  - pose proof (lookFor_bounds _ _ _ _ H) as Hb.
    apply IH in H as (g & Hg & Hname). exists g. split; [|exact Hname].
    replace (Z.to_nat (i - i0)) with (S (Z.to_nat (i - (i0 + 1)))) by lia.
    exact Hg.
Qed.

Lemma lookFor_None name s i0 :
  dir.lookFor name s i0 = None ->
  forall f, In f s -> file.Name f <> name.
Proof.
  revert i0. induction s as [|g s IH]; simpl; intros i0 H f Hf;
    [contradiction|].
  destruct (String.eqb_spec (file.Name g) name) as [Hn|Hn]; [discriminate|].
  destruct Hf as [<-|Hf]; [exact Hn|]. now apply (IH (i0 + 1)).
Qed.

(** [find] on a listing that is not empty, with a cursor index that is not
    negative. *)
Lemma find_cursor o name height d :
  dir.fi d <> [] -> 0 <= dir.ind d -> len (dir.fi d) <= intMax ->
  exists d',
    dir.find o name height d = Ok d' /\
    dir.fi d' = dir.fi d /\ dir.all d' = dir.all d /\
    0 <= dir.ind d' < len (dir.fi d) /\
    ((exists f, In f (dir.fi d) /\ file.Name f = name) ->
     exists f, index (dir.fi d') (dir.ind d') = Some f /\ file.Name f = name) /\
    ((forall f, In f (dir.fi d) -> file.Name f <> name) ->
     dir.ind d' = Z.min (dir.ind d) (len (dir.fi d) - 1)).
Proof.
  intros Hfi Hind Hlen. unfold dir.find.
  pose proof (len_nonneg (dir.fi d)) as Hlen0.
  destruct (Z.eqb_spec (len (dir.fi d)) 0) as [Hz|Hz];
    [now apply len_nil in Hz|].
  assert (Hind1 : min (dir.ind d) (subi (len (dir.fi d)) 1)
                  = Z.min (dir.ind d) (len (dir.fi d) - 1))
    by (unfold intMax in *; int_arith; reflexivity).
  rewrite Hind1. set (ind1 := Z.min (dir.ind d) (len (dir.fi d) - 1)).
  assert (Hr1 : 0 <= ind1 < len (dir.fi d)) by (unfold ind1; lia).
  destruct (index_Some (dir.fi d) ind1 Hr1) as [f Hf]. rewrite Hf.
  eexists. split; [reflexivity|]. simpl.
  split; [reflexivity|]. split; [reflexivity|].
  destruct (String.eqb_spec (file.Name f) name) as [Hn|Hn]; simpl.
  - split; [exact Hr1|]. split; [eauto|]. intros Hno. exfalso.
    apply (Hno f); [|exact Hn]. unfold index in Hf.
    destruct (ind1 <? 0); [discriminate|].
    eapply list_elem_of_In, list_elem_of_lookup_2, Hf.
  - destruct (dir.lookFor name (dir.fi d) 0) as [i|] eqn:Hl.
    + pose proof (lookFor_bounds _ _ _ _ Hl) as Hb.
      apply lookFor_Some in Hl as (g & Hg & Hname).
      split; [lia|]. split.
      * intros _. exists g. split; [|exact Hname]. unfold index.
        destruct (Z.ltb_spec i 0); [lia|]. now rewrite Z.sub_0_r in Hg.
      * intros Hno. exfalso. apply (Hno g); [|exact Hname].
        eapply list_elem_of_In, list_elem_of_lookup_2, Hg.
    + split; [exact Hr1|]. split; [|reflexivity].
      intros (g & Hg & Hname). exfalso.
      now apply (lookFor_None _ _ _ Hl g Hg).
Qed.

(** X14: [find] on a listing that is not empty, with a cursor index that is
    not negative: the entries stay as they are and the cursor ends on an
    entry; that entry is called [name] exactly if some entry of the listing
    is; if none is, the cursor index is only brought back into the
    listing. *)
Theorem find_selects_name o name height d :
  dir.fi d <> [] -> 0 <= dir.ind d -> len (dir.fi d) <= intMax ->
  exists d' f,
    dir.find o name height d = Ok d' /\
    dir.fi d' = dir.fi d /\ dir.all d' = dir.all d /\
    index (dir.fi d') (dir.ind d') = Some f /\
    (file.Name f = name <->
     exists g, In g (dir.fi d) /\ file.Name g = name) /\
    ((forall g, In g (dir.fi d) -> file.Name g <> name) ->
     dir.ind d' = Z.min (dir.ind d) (len (dir.fi d) - 1)).
Proof.
  intros Hfi Hind Hlen.
  destruct (find_cursor o name height d Hfi Hind Hlen)
    as (d' & Hfind & Hfi' & Hall & Hrange & Hyes & Hno).
  rewrite <- Hfi' in Hrange.
  destruct (index_Some (dir.fi d') (dir.ind d') Hrange) as [f Hf].
  exists d', f. split; [exact Hfind|]. split; [exact Hfi'|].
  split; [exact Hall|]. split; [exact Hf|]. split; [|exact Hno].
  split.
  - intros Hname. exists f. split; [|exact Hname]. rewrite <- Hfi'.
    unfold index in Hf. destruct (dir.ind d' <? 0); [discriminate|].
    eapply list_elem_of_In, list_elem_of_lookup_2, Hf.
  - intros Hex. destruct (Hyes Hex) as (f' & Hf' & Hname).
    rewrite Hf in Hf'. now injection Hf' as <-.
Qed.

Lemma find_selects_name_witness :
  dir.fi shelf <> [] /\ 0 <= dir.ind shelf /\ len (dir.fi shelf) <= intMax /\
  exists d' f,
    dir.find (margin 2) "c" 5 shelf = Ok d' /\
    dir.fi d' = dir.fi shelf /\ dir.all d' = dir.all shelf /\
    index (dir.fi d') (dir.ind d') = Some f /\
    (file.Name f = "c" <->
     exists g, In g (dir.fi shelf) /\ file.Name g = "c") /\
    ((forall g, In g (dir.fi shelf) -> file.Name g <> "c") ->
     dir.ind d' = Z.min (dir.ind shelf) (len (dir.fi shelf) - 1)).
Proof.
  assert (H1 : dir.fi shelf <> []) by discriminate.
  assert (H2 : 0 <= dir.ind shelf) by (vm_compute; discriminate).
  assert (H3 : len (dir.fi shelf) <= intMax) by (vm_compute; discriminate).
  split; [exact H1|]. split; [exact H2|]. split; [exact H3|].
  apply (find_selects_name (margin 2) "c" 5 shelf H1 H2 H3).
Defined.

Section NavSort.

Context {E : Extern}.
Implicit Types (o : opts) (d : dir.t) (h : list dir.t).

Lemma sortOne_sameCursorName o height d :
  sortable d ->
  exists d', nav.sortOne o height d = Ok d' /\ sameCursorName d d'.
Proof.
  intros (Hnamed & Hlen & Hind & Hcur). unfold nav.sortOne, dir.name.
  pose proof (len_nonneg (dir.fi d)) as Hlen0.
  set (A := arrayAfterSort o (dir.all d)).
  set (F := if hidden o then A else dropHidden A).
  assert (HA : A ≡ₚ dir.all d) by apply arrayAfterSort_Permutation.
  assert (HF : len F <= intMax).
  { assert (Hsuf : exists hid, A = hid ++ F).
    { unfold F. destruct (hidden o); [now exists []|].
      destruct (dropHidden_suffix A) as (hid & Hs & _). now exists hid. }
    destruct Hsuf as (hid & Hs). unfold len in *.
    rewrite <- (Permutation_length HA), Hs, length_app in Hlen. lia. }
  (* the name under the cursor, found again in the sorted listing *)
  assert (Hfind : forall name,
             exists d', dir.find o name height (dir.setFiles d F A) = Ok d' /\
                        dir.all d' = A /\ dir.path d' = dir.path d /\
                        dir.fi d' = F /\
                        ((exists f, In f F /\ file.Name f = name) ->
                         exists f', index (dir.fi d') (dir.ind d') = Some f' /\
                                    file.Name f' = name)).
  { intros name. destruct F as [|g F'] eqn:HFeq.
    - unfold dir.find. simpl. eexists. split; [reflexivity|]. simpl.
      repeat split. intros (f & [] & _).
    - destruct (find_cursor o name height
                  (dir.setFiles d (g :: F') A))
        as (d' & Hf & Hfi & Hall & _ & Hyes & _);
        [simpl; discriminate|exact Hind|exact HF|].
      exists d'. split; [exact Hf|]. split; [exact Hall|].
      split; [|split; [exact Hfi|exact Hyes]].
      unfold dir.find in Hf.
      destruct (len (dir.fi _) =? 0); [now inversion Hf|].
      destruct (index _ _); [now inversion Hf|discriminate]. }
  rewrite (sort_wellNamed o d Hnamed). fold A. fold F.
  destruct (Z.eqb_spec (len (dir.fi d)) 0) as [Hz|Hz].
  - destruct (Hfind "") as (d' & -> & Hall & Hpath & _).
    exists d'. split; [reflexivity|]. split; [now rewrite Hall|].
    split; [exact Hpath|]. intros f0 Hne. now apply len_nil in Hz.
  - destruct Hcur as [Hfi|Hcur]; [now apply len_nil in Hfi|].
    destruct (index_Some (dir.fi d) (dir.ind d) (conj Hind Hcur)) as [f0 Hf0].
    rewrite Hf0. destruct (Hfind (file.Name f0))
      as (d' & -> & Hall & Hpath & Hfi' & Hyes).
    exists d'. split; [reflexivity|]. split; [now rewrite Hall|].
    split; [exact Hpath|]. intros f1 _ Hf1. rewrite Hf0 in Hf1.
    injection Hf1 as <-. intros Hex. rewrite Hfi' in Hex. exact (Hyes Hex).
Qed.

Lemma sortEach_each o height ds h :
  NoDup ds ->
  (forall p, In p ds -> exists d, h !! p = Some d /\ sortable d) ->
  exists h',
    nav.sortEach o height ds h = Ok h' /\
    forall p d, In p ds -> h !! p = Some d ->
                exists d', h' !! p = Some d' /\ sameCursorName d d'.
Proof.
  intros Hnd. revert h.
  induction Hnd as [|p ds Hnotin Hnd IH]; intros h Hall; simpl.
  - exists h. split; [reflexivity|]. intros p d [].
  - destruct (Hall p (or_introl eq_refl)) as (d & Hd & Hsortable).
    rewrite Hd.
    destruct (sortOne_sameCursorName o height d Hsortable) as (d' & -> & Hsame).
    rewrite list_elem_of_In in Hnotin.
    destruct (IH (<[p := d']> h)) as (h' & Hh' & Heach).
    { intros q Hq. destruct (Hall q (or_intror Hq)) as (dq & Hdq & Hs).
      exists dq. split; [|exact Hs].
      rewrite list_lookup_insert_ne; [exact Hdq|]. intros ->. contradiction. }
    exists h'. split; [exact Hh'|].
    intros q dq [<-|Hq] Hdq.
    + rewrite Hd in Hdq. injection Hdq as <-.
      exists d'. split; [|exact Hsame].
      assert (Hkeep : forall ds0 h0,
                 ~ In p ds0 -> forall h1,
                 nav.sortEach o height ds0 h0 = Ok h1 -> h1 !! p = h0 !! p).
      { clear. induction ds0 as [|x ds0 IH0]; intros h0 Hp h1; simpl.
        - now intros [= <-].
        - destruct (h0 !! x) as [dx|]; [|discriminate].
          destruct (nav.sortOne o height dx) as [dx'| |]; try discriminate.
          intros H. rewrite (IH0 _ (fun Hin => Hp (or_intror Hin)) _ H).
          apply list_lookup_insert_ne. intros ->. apply Hp. now left. }
      rewrite (Hkeep ds _ Hnotin _ Hh').
      apply list_lookup_insert_eq. now apply lookup_lt_Some in Hd.
    + apply (Heach q dq Hq).
      rewrite list_lookup_insert_ne; [exact Hdq|]. intros ->. contradiction.
Qed.

(** X15: [nav.sort] on a stack of different listings, each with names for
    its entries and its cursor on an entry: it does not panic, it leaves
    the stack as it is, every listing keeps its entries, and the cursor of
    every listing stays on an entry with the name it was on, if an entry
    with that name is still visible. *)
Theorem sort_keeps_cursor_name o n :
  NoDup (nav.dirs n) ->
  (forall p, In p (nav.dirs n) ->
             exists d, nav.heap n !! p = Some d /\ sortable d) ->
  exists n',
    nav.sort o n = Ok n' /\ nav.dirs n' = nav.dirs n /\
    forall p d, In p (nav.dirs n) -> nav.heap n !! p = Some d ->
                exists d', nav.heap n' !! p = Some d' /\ sameCursorName d d'.
Proof.
  intros Hnd Hall. unfold nav.sort.
  destruct (sortEach_each o (nav.height n) (nav.dirs n) (nav.heap n) Hnd Hall)
    as (h' & -> & Heach).
  eexists. split; [reflexivity|]. split; [reflexivity|]. exact Heach.
Qed.

End NavSort.

Lemma sort_keeps_cursor_name_witness :
  NoDup (nav.dirs (browsing home 5)) /\
  (forall p, In p (nav.dirs (browsing home 5)) ->
             exists d, nav.heap (browsing home 5) !! p = Some d /\
                       sortable d) /\
  exists n',
    nav.sort (E := posix) (byName false) (browsing home 5) = Ok n' /\
    nav.dirs n' = nav.dirs (browsing home 5) /\
    forall p d, In p (nav.dirs (browsing home 5)) ->
                nav.heap (browsing home 5) !! p = Some d ->
                exists d', nav.heap n' !! p = Some d' /\ sameCursorName d d'.
Proof.
  assert (H1 : NoDup (nav.dirs (browsing home 5)))
    by (apply (bool_decide_unpack _); vm_compute; exact I).
  assert (H2 : forall p, In p (nav.dirs (browsing home 5)) ->
                         exists d, nav.heap (browsing home 5) !! p = Some d /\
                                   sortable d).
  { intros p [<-|[]]. exists home. split; [reflexivity|].
    split; [repeat constructor|]. split; [vm_compute; discriminate|].
    split; [vm_compute; discriminate|]. right. vm_compute. reflexivity. }
  split; [exact H1|]. split; [exact H2|].
  apply (sort_keeps_cursor_name (E := posix) (byName false)
           (browsing home 5) H1 H2).
Defined.

(** Sorting [b.txt], [a.txt], [.hidden] by name with the cursor on [b.txt]:
    the cursor follows [b.txt] to the second row. *)
Example sort_follows_cursor :
  exists n' d',
    nav.sort (E := posix) (byName false) (browsing home 5) = Ok n' /\
    nav.currDir n' = Some d' /\ dir.ind d' = 1 /\
    option_map file.Name (index (dir.fi d') (dir.ind d')) = Some "b.txt".
Proof.
  eexists _, _. split; [vm_compute; reflexivity|].
  split; [reflexivity|]. split; reflexivity.
Qed.

(** ** [nav.searchNext] and [nav.searchPrev] *)

Section Search.

Context {E : Extern} {P : Filepath}.
Implicit Types (o : opts) (so : searchopts) (d : dir.t) (n : nav.t).
Implicit Types (rest before : list file.t) (pattern : string).

Lemma seek_hit so pattern rest :
  forall i bound (k : nat) f,
    rest !! k = Some f -> i + Z.of_nat k < bound ->
    matches so pattern f ->
    (forall (j : nat) g, (j < k)%nat -> rest !! j = Some g ->
                         misses so pattern g) ->
    nav.seek so pattern rest i bound = Ok (Some (i + Z.of_nat k)).
Proof.
  induction rest as [|f0 rest IH]; intros i bound k f Hk Hlt Hyes Hno;
    [discriminate|]. simpl.
  destruct (Z.leb_spec bound i); [lia|].
  destruct k as [|k].
  - injection Hk as ->. unfold matches in Hyes. rewrite Hyes.
    do 2 f_equal. lia.
  - assert (H0 : misses so pattern f0) by (apply (Hno 0%nat); [lia|reflexivity]).
    unfold misses in H0. rewrite H0.
    rewrite (IH (i + 1) bound k f Hk); [do 2 f_equal; lia|lia|exact Hyes|].
    intros j g Hj Hg. apply (Hno (S j)); [lia|exact Hg].
Qed.

Lemma seek_miss so pattern rest :
  forall i bound,
    bound <= i + len rest ->
    (forall (j : nat) g, rest !! j = Some g -> i + Z.of_nat j < bound ->
                         misses so pattern g) ->
    nav.seek so pattern rest i bound = Ok None.
Proof.
  unfold len.
  induction rest as [|f0 rest IH]; intros i bound Hlen Hno; simpl in *.
  - destruct (Z.leb_spec bound i); [reflexivity|lia].
  - destruct (Z.leb_spec bound i); [reflexivity|].
    assert (H0 : misses so pattern f0) by (apply (Hno 0%nat); [reflexivity|lia]).
    unfold misses in H0. rewrite H0. apply IH; [lia|].
    intros j g Hg Hj. apply (Hno (S j)); [exact Hg|lia].
Qed.

Lemma match_returns so pattern name msg :
  nav.match_ so pattern name <> Panic msg.
Proof.
  unfold nav.match_. destruct (globsearch so); [|discriminate].
  destruct (Match _ _) as [b [e|]]; discriminate.
Qed.

Lemma seek_returns so pattern rest :
  forall i bound msg,
    bound <= i + len rest -> nav.seek so pattern rest i bound <> Panic msg.
Proof.
  unfold len.
  induction rest as [|f0 rest IH]; intros i bound msg Hlen; simpl in *.
  - destruct (Z.leb_spec bound i); [discriminate|lia].
  - destruct (Z.leb_spec bound i); [discriminate|].
    pose proof (match_returns so pattern (file.Name f0)) as Hm.
    destruct (nav.match_ so pattern (file.Name f0)) as [[|]|e|s];
      try discriminate; [apply IH; lia|]. exfalso. now apply (Hm s).
Qed.

Lemma seek_in_range so pattern rest :
  forall i bound r,
    nav.seek so pattern rest i bound = Ok (Some r) -> i <= r < bound.
Proof.
  induction rest as [|f0 rest IH]; intros i bound r; simpl.
  - destruct (bound <=? i); discriminate.
  - destruct (Z.leb_spec bound i); [discriminate|].
    destruct (nav.match_ so pattern (file.Name f0)) as [[|]| |];
      try discriminate.
    + intros [= <-]. lia.
    + intros Hr. apply IH in Hr. lia.
Qed.

Lemma seekBack_hit so pattern before :
  forall i lower (k : nat) f,
    before !! k = Some f -> lower < i - Z.of_nat k ->
    matches so pattern f ->
    (forall (j : nat) g, (j < k)%nat -> before !! j = Some g ->
                         misses so pattern g) ->
    nav.seekBack so pattern before i lower = Ok (Some (i - Z.of_nat k)).
Proof.
  induction before as [|f0 before IH]; intros i lower k f Hk Hlt Hyes Hno;
    [discriminate|]. simpl.
  destruct (Z.leb_spec i lower); [lia|].
  destruct k as [|k].
  - injection Hk as ->. unfold matches in Hyes. rewrite Hyes.
    do 2 f_equal. lia.
  - assert (H0 : misses so pattern f0) by (apply (Hno 0%nat); [lia|reflexivity]).
    unfold misses in H0. rewrite H0.
    rewrite (IH (i - 1) lower k f Hk); [do 2 f_equal; lia|lia|exact Hyes|].
    intros j g Hj Hg. apply (Hno (S j)); [lia|exact Hg].
Qed.

Lemma seekBack_miss so pattern before :
  forall i lower,
    i - len before <= lower ->
    (forall (j : nat) g, before !! j = Some g -> lower < i - Z.of_nat j ->
                         misses so pattern g) ->
    nav.seekBack so pattern before i lower = Ok None.
Proof.
  unfold len.
  induction before as [|f0 before IH]; intros i lower Hlen Hno; simpl in *.
  - destruct (Z.leb_spec i lower); [reflexivity|lia].
  - destruct (Z.leb_spec i lower); [reflexivity|].
    assert (H0 : misses so pattern f0) by (apply (Hno 0%nat); [reflexivity|lia]).
    unfold misses in H0. rewrite H0. apply IH; [lia|].
    intros j g Hg Hj. apply (Hno (S j)); [exact Hg|lia].
Qed.

Lemma seekBack_returns so pattern before :
  forall i lower msg,
    i - len before <= lower ->
    nav.seekBack so pattern before i lower <> Panic msg.
Proof.
  unfold len.
  induction before as [|f0 before IH]; intros i lower msg Hlen; simpl in *.
  - destruct (Z.leb_spec i lower); [discriminate|lia].
  - destruct (Z.leb_spec i lower); [discriminate|].
    pose proof (match_returns so pattern (file.Name f0)) as Hm.
    destruct (nav.match_ so pattern (file.Name f0)) as [[|]|e|s];
      try discriminate; [apply IH; lia|]. exfalso. now apply (Hm s).
Qed.

Lemma seekBack_in_range so pattern before :
  forall i lower r,
    nav.seekBack so pattern before i lower = Ok (Some r) -> lower < r <= i.
Proof.
  induction before as [|f0 before IH]; intros i lower r; simpl.
  - destruct (i <=? lower); discriminate.
  - destruct (Z.leb_spec i lower); [discriminate|].
    destruct (nav.match_ so pattern (file.Name f0)) as [[|]| |];
      try discriminate.
    + intros [= <-]. lia.
    + intros Hr. apply IH in Hr. lia.
Qed.

(** [last.fi[m-1-k]], read from the reversed prefix [last.fi[:m]]. *)
Lemma rev_take_lookup (s : list file.t) (m k : nat) :
  (k < m)%nat -> (m <= List.length s)%nat ->
  rev (take m s) !! k = s !! (m - 1 - k)%nat.
Proof.
  intros Hk Hm. rewrite rev_alt.
  etransitivity;
    [apply (reverse_lookup (take m s) k); rewrite length_take; lia|].
  rewrite length_take, lookup_take_lt by lia. f_equal. lia.
Qed.

Lemma rev_lookup (s : list file.t) (k : nat) :
  (k < List.length s)%nat -> rev s !! k = s !! (List.length s - 1 - k)%nat.
Proof.
  intros Hk. rewrite <- (firstn_all s) at 1.
  now apply rev_take_lookup.
Qed.

Lemma index_lookup (s : list file.t) i f :
  index s i = Some f <-> 0 <= i /\ s !! Z.to_nat i = Some f.
Proof.
  unfold index. destruct (Z.ltb_spec i 0); split.
  - discriminate.
  - intros [? _]. lia.
  - auto.
  - now intros [_ ?].
Qed.

Lemma index_in_range (s : list file.t) i f :
  index s i = Some f -> 0 <= i < len s.
Proof.
  intros [Hi H]%index_lookup. apply lookup_lt_Some in H. unfold len. lia.
Qed.

Lemma down_to o n d i :
  nav.currDir n = Some d ->
  0 <= dir.ind d -> dir.ind d < i -> i < len (dir.fi d) ->
  len (dir.fi d) <= intMax ->
  exists n', nav.down o (subi i (dir.ind d)) n = Ok n' /\
             cursorAt n' (dir.fi d) i.
Proof.
  intros Hcur H0 Hi Hlen Hmax. unfold nav.down.
  destruct (onCurrDir_currDir
              (nav.downOn o (nav.height n) (subi i (dir.ind d))) n d Hcur)
    as (n' & Hn' & Hcur' & _).
  exists n'. split; [exact Hn'|]. eexists. split; [exact Hcur'|].
  unfold nav.downOn. unfold intMax in *.
  replace (subi (len (dir.fi d)) 1) with (len (dir.fi d) - 1)
    by (int_arith; reflexivity).
  destruct (Z.leb_spec (len (dir.fi d) - 1) (dir.ind d)); [lia|].
  simpl. split; [reflexivity|]. int_arith. lia.
Qed.

Lemma up_to o n d i :
  nav.currDir n = Some d ->
  0 <= i -> i < dir.ind d -> dir.ind d <= intMax ->
  exists n', nav.up o (subi (dir.ind d) i) n = Ok n' /\
             cursorAt n' (dir.fi d) i.
Proof.
  intros Hcur H0 Hi Hmax. unfold nav.up.
  destruct (onCurrDir_currDir (nav.upOn o (subi (dir.ind d) i)) n d Hcur)
    as (n' & Hn' & Hcur' & _).
  exists n'. split; [exact Hn'|]. eexists. split; [exact Hcur'|].
  unfold nav.upOn. unfold intMax in *.
  destruct (Z.eqb_spec (dir.ind d) 0); [lia|].
  simpl. split; [reflexivity|]. int_arith. lia.
Qed.

(** The first loop of [nav.searchNext] when no entry after the cursor
    matches. *)
Lemma searchNext_ahead_miss so pattern d :
  -1 <= dir.ind d < intMax ->
  (forall j g, dir.ind d < j -> index (dir.fi d) j = Some g ->
               misses so pattern g) ->
  (if addi (dir.ind d) 1 <? 0 then
     if addi (dir.ind d) 1 <? len (dir.fi d)
     then Panic "index out of range" else Ok None
   else nav.seek so pattern
          (drop (Z.to_nat (addi (dir.ind d) 1)) (dir.fi d))
          (addi (dir.ind d) 1) (len (dir.fi d))) = Ok None.
Proof.
  intros H0 Hno. unfold intMax in *.
  replace (addi (dir.ind d) 1) with (dir.ind d + 1) by (int_arith; reflexivity).
  destruct (Z.ltb_spec (dir.ind d + 1) 0); [lia|].
  apply seek_miss.
  - unfold len in *. rewrite length_drop. lia.
  - intros j g Hg Hj. rewrite lookup_drop in Hg.
    apply (Hno (dir.ind d + 1 + Z.of_nat j)); [lia|].
    apply index_lookup. split; [lia|].
    rewrite <- Hg. f_equal. lia.
Qed.

Lemma searchPrev_behind_miss so pattern d :
  -1 <= dir.ind d -> dir.ind d <= len (dir.fi d) ->
  len (dir.fi d) <= intMax ->
  (forall j g, j < dir.ind d -> index (dir.fi d) j = Some g ->
               misses so pattern g) ->
  (if subi (dir.ind d) 1 <? 0 then Ok None
   else if len (dir.fi d) <=? subi (dir.ind d) 1
        then Panic "index out of range"
        else nav.seekBack so pattern
               (rev (take (Z.to_nat (subi (dir.ind d) 1) + 1) (dir.fi d)))
               (subi (dir.ind d) 1) (-1)) = Ok None.
Proof.
  intros H0 Hlen Hmax Hno. pose proof (len_nonneg (dir.fi d)) as Hl.
  unfold len in *.
  replace (subi (dir.ind d) 1) with (dir.ind d - 1)
    by (unfold intMax in *; int_arith; reflexivity).
  destruct (Z.ltb_spec (dir.ind d - 1) 0); [reflexivity|].
  destruct (Z.leb_spec (Z.of_nat (List.length (dir.fi d))) (dir.ind d - 1));
    [lia|].
  apply seekBack_miss.
  - unfold len. rewrite length_rev, length_take. lia.
  - intros j g Hg Hj.
    assert (Hjl : (j < Z.to_nat (dir.ind d - 1) + 1)%nat).
    { apply lookup_lt_Some in Hg. rewrite length_rev, length_take in Hg. lia. }
    rewrite rev_take_lookup in Hg by lia.
    apply (Hno (dir.ind d - 1 - Z.of_nat j)); [lia|].
    apply index_lookup. split; [lia|]. rewrite <- Hg. f_equal. lia.
Qed.

(** X16: [searchNext] moves the cursor to the nearest entry after it whose
    name matches the pattern. *)
Theorem searchNext_next_match o so n d i f :
  nav.currDir n = Some d ->
  0 <= dir.ind d -> len (dir.fi d) <= intMax ->
  dir.ind d < i -> index (dir.fi d) i = Some f ->
  matches so (nav.search n) f ->
  (forall j g, dir.ind d < j < i -> index (dir.fi d) j = Some g ->
               misses so (nav.search n) g) ->
  exists n', nav.searchNext o so n = Ok n' /\ cursorAt n' (dir.fi d) i.
Proof.
  intros Hcur H0 Hmax Hi Hf Hyes Hno.
  pose proof (index_in_range _ _ _ Hf) as Hrange.
  apply index_lookup in Hf as [_ Hf].
  unfold nav.searchNext. rewrite Hcur.
  replace (addi (dir.ind d) 1) with (dir.ind d + 1)
    by (unfold intMax in *; int_arith; reflexivity).
  destruct (Z.ltb_spec (dir.ind d + 1) 0); [lia|].
  rewrite (seek_hit so (nav.search n) _ (dir.ind d + 1) (len (dir.fi d))
             (Z.to_nat (i - dir.ind d - 1)) f).
  - replace (dir.ind d + 1 + Z.of_nat (Z.to_nat (i - dir.ind d - 1)))
      with i by lia.
    now apply down_to.
  - rewrite lookup_drop, <- Hf. f_equal. lia.
  - lia.
  - exact Hyes.
  - intros j g Hj Hg. rewrite lookup_drop in Hg.
    apply (Hno (dir.ind d + 1 + Z.of_nat j)); [lia|].
    apply index_lookup. split; [lia|]. rewrite <- Hg. f_equal. lia.
Qed.

(** X17: with [wrapscan], when no entry after the cursor matches,
    [searchNext] moves the cursor to the first matching entry of the
    listing that is before it. *)
Theorem searchNext_wraps o so n d i f :
  wrapscan so = true ->
  nav.currDir n = Some d ->
  dir.ind d < len (dir.fi d) -> len (dir.fi d) <= intMax ->
  0 <= i < dir.ind d -> index (dir.fi d) i = Some f ->
  matches so (nav.search n) f ->
  (forall j g, j < i \/ dir.ind d < j -> index (dir.fi d) j = Some g ->
               misses so (nav.search n) g) ->
  exists n', nav.searchNext o so n = Ok n' /\ cursorAt n' (dir.fi d) i.
Proof.
  intros Hwrap Hcur Hlen Hmax Hi Hf Hyes Hno.
  apply index_lookup in Hf as [_ Hf].
  unfold nav.searchNext. rewrite Hcur.
  rewrite searchNext_ahead_miss; [|lia|intros j g Hj; apply Hno; now right].
  rewrite Hwrap.
  rewrite (seek_hit so (nav.search n) _ 0 (dir.ind d) (Z.to_nat i) f).
  - replace (0 + Z.of_nat (Z.to_nat i)) with i by lia.
    apply up_to; [exact Hcur|lia|lia|lia].
  - exact Hf.
  - lia.
  - exact Hyes.
  - intros j g Hj Hg. apply (Hno (Z.of_nat j)); [lia|].
    apply index_lookup. split; [lia|]. now rewrite Nat2Z.id.
Qed.

(** X18: when no entry that [searchNext] looks at matches (the entries
    after the cursor and, with [wrapscan], those before it), the state is
    left as it is; the entry under the cursor is not looked at. *)
Theorem searchNext_no_match o so n d :
  nav.currDir n = Some d -> cursorOn d ->
  (forall j g, index (dir.fi d) j = Some g ->
               dir.ind d < j \/ (wrapscan so = true /\ j < dir.ind d) ->
               misses so (nav.search n) g) ->
  nav.searchNext o so n = Ok n.
Proof.
  intros Hcur Hon Hno. apply cursorOn_cases in Hon as [Hlen Hon].
  unfold nav.searchNext. rewrite Hcur.
  rewrite searchNext_ahead_miss;
    [|unfold intMax in *; lia|intros j g Hj Hg; apply (Hno j g Hg); now left].
  destruct (wrapscan so) eqn:Hwrap; [|reflexivity].
  rewrite seek_miss; [reflexivity|lia|].
  intros j g Hg Hj. apply (Hno (Z.of_nat j)).
  - apply index_lookup. split; [lia|]. now rewrite Nat2Z.id.
  - right. split; [reflexivity|lia].
Qed.

(** X19: [searchPrev] moves the cursor to the nearest entry before it whose
    name matches the pattern. *)
Theorem searchPrev_prev_match o so n d i f :
  nav.currDir n = Some d ->
  dir.ind d < len (dir.fi d) -> len (dir.fi d) <= intMax ->
  0 <= i < dir.ind d -> index (dir.fi d) i = Some f ->
  matches so (nav.search n) f ->
  (forall j g, i < j < dir.ind d -> index (dir.fi d) j = Some g ->
               misses so (nav.search n) g) ->
  exists n', nav.searchPrev o so n = Ok n' /\ cursorAt n' (dir.fi d) i.
Proof.
  intros Hcur Hlen Hmax Hi Hf Hyes Hno.
  apply index_lookup in Hf as [_ Hf].
  unfold nav.searchPrev. rewrite Hcur.
  replace (subi (dir.ind d) 1) with (dir.ind d - 1)
    by (unfold intMax in *; int_arith; reflexivity).
  destruct (Z.ltb_spec (dir.ind d - 1) 0); [lia|].
  destruct (Z.leb_spec (len (dir.fi d)) (dir.ind d - 1)); [lia|].
  unfold len in *.
  rewrite (seekBack_hit so (nav.search n) _ (dir.ind d - 1) (-1)
             (Z.to_nat (dir.ind d - 1 - i)) f).
  - replace (dir.ind d - 1 - Z.of_nat (Z.to_nat (dir.ind d - 1 - i)))
      with i by lia.
    apply up_to; [exact Hcur|lia|lia|lia].
  - rewrite rev_take_lookup by lia. rewrite <- Hf. f_equal. lia.
  - lia.
  - exact Hyes.
  - intros j g Hj Hg. rewrite rev_take_lookup in Hg by lia.
    apply (Hno (dir.ind d - 1 - Z.of_nat j)); [lia|].
    apply index_lookup. split; [lia|]. rewrite <- Hg. f_equal. lia.
Qed.

(** X20: with [wrapscan], when no entry before the cursor matches,
    [searchPrev] moves the cursor to the last matching entry of the listing
    that is after it. *)
Theorem searchPrev_wraps o so n d i f :
  wrapscan so = true ->
  nav.currDir n = Some d ->
  0 <= dir.ind d < i -> len (dir.fi d) <= intMax ->
  index (dir.fi d) i = Some f ->
  matches so (nav.search n) f ->
  (forall j g, j < dir.ind d \/ i < j -> index (dir.fi d) j = Some g ->
               misses so (nav.search n) g) ->
  exists n', nav.searchPrev o so n = Ok n' /\ cursorAt n' (dir.fi d) i.
Proof.
  intros Hwrap Hcur Hi Hmax Hf Hyes Hno.
  pose proof (index_in_range _ _ _ Hf) as Hrange.
  apply index_lookup in Hf as [_ Hf].
  unfold nav.searchPrev. rewrite Hcur.
  rewrite searchPrev_behind_miss;
    [|lia|lia|lia|intros j g Hj; apply Hno; now left].
  rewrite Hwrap.
  replace (subi (len (dir.fi d)) 1) with (len (dir.fi d) - 1)
    by (unfold intMax in *; int_arith; reflexivity).
  unfold len in *.
  rewrite (seekBack_hit so (nav.search n) _ _ (dir.ind d)
             (Z.to_nat (Z.of_nat (List.length (dir.fi d)) - 1 - i)) f).
  - replace (Z.of_nat (List.length (dir.fi d)) - 1 -
             Z.of_nat (Z.to_nat (Z.of_nat (List.length (dir.fi d)) - 1 - i)))
      with i by lia.
    apply down_to; [exact Hcur|lia|lia|unfold len; lia|exact Hmax].
  - rewrite rev_lookup by lia. rewrite <- Hf. f_equal. lia.
  - lia.
  - exact Hyes.
  - intros j g Hj Hg. rewrite rev_lookup in Hg by lia.
    apply (Hno (Z.of_nat (List.length (dir.fi d)) - 1 - Z.of_nat j)); [lia|].
    apply index_lookup. split; [lia|]. rewrite <- Hg. f_equal. lia.
Qed.

(** X21: when no entry that [searchPrev] looks at matches (the entries
    before the cursor and, with [wrapscan], those after it), the state is
    left as it is. *)
Theorem searchPrev_no_match o so n d :
  nav.currDir n = Some d -> cursorOn d ->
  (forall j g, index (dir.fi d) j = Some g ->
               j < dir.ind d \/ (wrapscan so = true /\ dir.ind d < j) ->
               misses so (nav.search n) g) ->
  nav.searchPrev o so n = Ok n.
Proof.
  intros Hcur Hon Hno. apply cursorOn_cases in Hon as [Hlen Hon].
  unfold nav.searchPrev. rewrite Hcur.
  rewrite searchPrev_behind_miss;
    [|lia|lia|lia|intros j g Hj Hg; apply (Hno j g Hg); now left].
  destruct (wrapscan so) eqn:Hwrap; [|reflexivity].
  replace (subi (len (dir.fi d)) 1) with (len (dir.fi d) - 1)
    by (unfold intMax in *; int_arith; reflexivity).
  rewrite seekBack_miss; [reflexivity|unfold len; rewrite length_rev; lia|].
  intros j g Hg Hj.
  assert (Hjl : (j < List.length (dir.fi d))%nat)
    by (apply lookup_lt_Some in Hg; now rewrite length_rev in Hg).
  rewrite rev_lookup in Hg by exact Hjl. unfold len in *.
  apply (Hno (Z.of_nat (List.length (dir.fi d)) - 1 - Z.of_nat j)).
  - apply index_lookup. split; [lia|]. rewrite <- Hg. f_equal. lia.
  - right. split; [reflexivity|lia].
Qed.

Lemma sound_searchNext o so n :
  sound n ->
  returns (nav.searchNext o so n) /\
  forall n', nav.searchNext o so n = Ok n' -> sound n'.
Proof.
  intros Hs. destruct (sound_currDir n Hs) as (_ & d & _ & _ & Hcur & Hon).
  apply cursorOn_cases in Hon as [Hlen Hon].
  unfold nav.searchNext. rewrite Hcur.
  replace (addi (dir.ind d) 1) with (dir.ind d + 1)
    by (unfold intMax in *; int_arith; reflexivity).
  destruct (Z.ltb_spec (dir.ind d + 1) 0); [lia|].
  pose proof (seek_returns so (nav.search n)
                (drop (Z.to_nat (dir.ind d + 1)) (dir.fi d))
                (dir.ind d + 1) (len (dir.fi d))) as Hret.
  pose proof (seek_in_range so (nav.search n)
                (drop (Z.to_nat (dir.ind d + 1)) (dir.fi d))
                (dir.ind d + 1) (len (dir.fi d))) as Hin.
  destruct (nav.seek _ _ (drop _ _) _ _) as [[r|]|e|msg].
  - specialize (Hin r eq_refl).
    destruct (sound_down o (subi r (dir.ind d)) n d Hs Hcur)
      as (n' & Hn' & Hs'); [unfold intMax in *; int_arith; lia..|].
    rewrite Hn'. split; [exact I|]. now intros ? [= <-].
  - destruct (wrapscan so); [|split; [exact I|now intros ? [= <-]]].
    pose proof (seek_returns so (nav.search n) (dir.fi d) 0 (dir.ind d))
      as Hret2.
    pose proof (seek_in_range so (nav.search n) (dir.fi d) 0 (dir.ind d))
      as Hin2.
    destruct (nav.seek _ _ (dir.fi d) _ _) as [[r|]|e|msg].
    + specialize (Hin2 r eq_refl).
      destruct (sound_up o (subi (dir.ind d) r) n Hs) as (n' & Hn' & Hs');
        [unfold intMax in *; int_arith; lia|].
      rewrite Hn'. split; [exact I|]. now intros ? [= <-].
    + split; [exact I|now intros ? [= <-]].
    + split; [exact I|discriminate].
    + exfalso. apply (Hret2 msg); [lia|reflexivity].
  - split; [exact I|discriminate].
  - exfalso. apply (Hret msg); [|reflexivity].
    unfold len in *. rewrite length_drop. lia.
Qed.

Lemma sound_searchPrev o so n :
  sound n ->
  returns (nav.searchPrev o so n) /\
  forall n', nav.searchPrev o so n = Ok n' -> sound n'.
Proof.
  intros Hs. destruct (sound_currDir n Hs) as (_ & d & _ & _ & Hcur & Hon).
  apply cursorOn_cases in Hon as [Hlen Hon].
  unfold nav.searchPrev. rewrite Hcur.
  replace (subi (dir.ind d) 1) with (dir.ind d - 1)
    by (unfold intMax in *; int_arith; reflexivity).
  replace (subi (len (dir.fi d)) 1) with (len (dir.fi d) - 1)
    by (unfold intMax in *; int_arith; reflexivity).
  assert (Hwrap :
            returns
              match nav.seekBack so (nav.search n) (rev (dir.fi d))
                      (len (dir.fi d) - 1) (dir.ind d) with
              | Ok (Some i) => nav.down o (subi i (dir.ind d)) n
              | Ok None => Ok n
              | Err e => Err e
              | Panic msg => Panic msg
              end /\
            forall n',
              match nav.seekBack so (nav.search n) (rev (dir.fi d))
                      (len (dir.fi d) - 1) (dir.ind d) with
              | Ok (Some i) => nav.down o (subi i (dir.ind d)) n
              | Ok None => Ok n
              | Err e => Err e
              | Panic msg => Panic msg
              end = Ok n' -> sound n').
  { pose proof (seekBack_returns so (nav.search n) (rev (dir.fi d))
                  (len (dir.fi d) - 1) (dir.ind d)) as Hret2.
    pose proof (seekBack_in_range so (nav.search n) (rev (dir.fi d))
                  (len (dir.fi d) - 1) (dir.ind d)) as Hin2.
    destruct (nav.seekBack _ _ _ _ _) as [[r|]|e|msg].
    + specialize (Hin2 r eq_refl).
      destruct (sound_down o (subi r (dir.ind d)) n d Hs Hcur)
        as (n' & Hn' & Hs'); [unfold intMax in *; int_arith; lia..|].
      rewrite Hn'. split; [exact I|]. now intros ? [= <-].
    + split; [exact I|now intros ? [= <-]].
    + split; [exact I|discriminate].
    + exfalso. apply (Hret2 msg); [|reflexivity].
      unfold len. rewrite length_rev. lia. }
  destruct (Z.ltb_spec (dir.ind d - 1) 0).
  { destruct (wrapscan so); [exact Hwrap|].
    split; [exact I|now intros ? [= <-]]. }
  destruct (Z.leb_spec (len (dir.fi d)) (dir.ind d - 1)); [lia|].
  pose proof (seekBack_returns so (nav.search n)
                (rev (take (Z.to_nat (dir.ind d - 1) + 1) (dir.fi d)))
                (dir.ind d - 1) (-1)) as Hret.
  pose proof (seekBack_in_range so (nav.search n)
                (rev (take (Z.to_nat (dir.ind d - 1) + 1) (dir.fi d)))
                (dir.ind d - 1) (-1)) as Hin.
  destruct (nav.seekBack _ _ (rev (take _ _)) _ _) as [[r|]|e|msg].
  - specialize (Hin r eq_refl).
    destruct (sound_up o (subi (dir.ind d) r) n Hs) as (n' & Hn' & Hs');
      [unfold intMax in *; int_arith; lia|].
    rewrite Hn'. split; [exact I|]. now intros ? [= <-].
  - destruct (wrapscan so); [exact Hwrap|].
    split; [exact I|now intros ? [= <-]].
  - split; [exact I|discriminate].
  - exfalso. apply (Hret msg); [|reflexivity].
    unfold len in *. rewrite length_rev, length_take. lia.
Qed.

(** X22: from a state with a stack that is not empty and every cursor on an
    entry, [searchNext] and [searchPrev] do not panic, whatever the pattern
    and the answers of [filepath.Match]; when they return without an error
    they leave such a state behind. *)
Theorem searches_never_panic o so n :
  sound n ->
  (returns (nav.searchNext o so n) /\
   forall n', nav.searchNext o so n = Ok n' -> sound n') /\
  (returns (nav.searchPrev o so n) /\
   forall n', nav.searchPrev o so n = Ok n' -> sound n').
Proof.
  intros Hs. split; [now apply sound_searchNext|now apply sound_searchPrev].
Qed.

End Search.

(** Goes through the rows of [ten] that [Hg : index ten j = Some g] can be
    about. *)
Ltac each_row j Hg :=
  let Hr := fresh "Hr" in
  let Hc := fresh "Hc" in
  pose proof (index_in_range _ _ _ Hg) as Hr;
  change (len ten) with 10 in Hr;
  assert (Hc : j = 0 \/ j = 1 \/ j = 2 \/ j = 3 \/ j = 4 \/ j = 5 \/ j = 6 \/
               j = 7 \/ j = 8 \/ j = 9) by lia;
  repeat (destruct Hc as [Hc|Hc]; [subst j|]); [..|subst j];
  try lia; vm_compute in Hg; injection Hg as <-; reflexivity.

Lemma searchNext_next_match_witness :
  exists n',
    nav.searchNext (E := posix) (P := plain) (margin 0) literal
      (searching "f" 2) = Ok n' /\
    cursorAt n' ten 5.
Proof.
  apply (searchNext_next_match (E := posix) (P := plain) (margin 0) literal
           (searching "f" 2) (listing "/home" ten 2 0) 5 (regular "f" 1 1)).
  - reflexivity.
  - simpl. lia.
  - vm_compute. discriminate.
  - simpl. lia.
  - reflexivity.
  - reflexivity.
  - intros j g Hj Hg. simpl in Hj, Hg. each_row j Hg.
Defined.

Lemma searchNext_wraps_witness :
  exists n',
    nav.searchNext (E := posix) (P := plain) (margin 0) literal
      (searching "b" 4) = Ok n' /\
    cursorAt n' ten 1.
Proof.
  apply (searchNext_wraps (E := posix) (P := plain) (margin 0) literal
           (searching "b" 4) (listing "/home" ten 4 0) 1 (regular "b" 1 1)).
  - reflexivity.
  - reflexivity.
  - reflexivity.
  - vm_compute. discriminate.
  - simpl. lia.
  - reflexivity.
  - reflexivity.
  - intros j g Hj Hg. simpl in Hj, Hg. each_row j Hg.
Defined.

Lemma searchNext_no_match_witness :
  nav.searchNext (E := posix) (P := plain) (margin 0) literal
    (searching "z" 3) = Ok (searching "z" 3).
Proof.
  apply (searchNext_no_match (E := posix) (P := plain) (margin 0) literal
           (searching "z" 3) (listing "/home" ten 3 0)).
  - reflexivity.
  - split; [vm_compute; discriminate|]. right. simpl.
    change (len ten) with 10. lia.
  - intros j g Hg _. simpl in Hg. each_row j Hg.
Defined.

Lemma searchPrev_prev_match_witness :
  exists n',
    nav.searchPrev (E := posix) (P := plain) (margin 0) literal
      (searching "b" 4) = Ok n' /\
    cursorAt n' ten 1.
Proof.
  apply (searchPrev_prev_match (E := posix) (P := plain) (margin 0) literal
           (searching "b" 4) (listing "/home" ten 4 0) 1 (regular "b" 1 1)).
  - reflexivity.
  - reflexivity.
  - vm_compute. discriminate.
  - simpl. lia.
  - reflexivity.
  - reflexivity.
  - intros j g Hj Hg. simpl in Hj, Hg. each_row j Hg.
Defined.

Lemma searchPrev_wraps_witness :
  exists n',
    nav.searchPrev (E := posix) (P := plain) (margin 0) literal
      (searching "f" 2) = Ok n' /\
    cursorAt n' ten 5.
Proof.
  apply (searchPrev_wraps (E := posix) (P := plain) (margin 0) literal
           (searching "f" 2) (listing "/home" ten 2 0) 5 (regular "f" 1 1)).
  - reflexivity.
  - reflexivity.
  - simpl. lia.
  - vm_compute. discriminate.
  - reflexivity.
  - reflexivity.
  - intros j g Hj Hg. simpl in Hj, Hg. each_row j Hg.
Defined.

Lemma searchPrev_no_match_witness :
  nav.searchPrev (E := posix) (P := plain) (margin 0) literal
    (searching "z" 3) = Ok (searching "z" 3).
Proof.
  apply (searchPrev_no_match (E := posix) (P := plain) (margin 0) literal
           (searching "z" 3) (listing "/home" ten 3 0)).
  - reflexivity.
  - split; [vm_compute; discriminate|]. right. simpl.
    change (len ten) with 10. lia.
  - intros j g Hg _. simpl in Hg. each_row j Hg.
Defined.

Lemma sound_searching pattern ind :
  0 <= ind < 10 -> sound (searching pattern ind).
Proof.
  intros Hind. split; [discriminate|]. simpl. split; [|split].
  - constructor; [|constructor]. split; [vm_compute; discriminate|].
    right. simpl. change (len ten) with 10. exact Hind.
  - intros p [<-|[]]. lia.
  - intros path p Hp. apply lookup_singleton_Some in Hp as [_ <-]. lia.
Qed.

Lemma searches_never_panic_witness :
  sound (searching "[" 3) /\
  (returns (nav.searchNext (E := posix) (P := plain) (margin 0)
              (mkSearch false false true true) (searching "[" 3)) /\
   forall n', nav.searchNext (E := posix) (P := plain) (margin 0)
                (mkSearch false false true true) (searching "[" 3) = Ok n' ->
              sound n') /\
  (returns (nav.searchPrev (E := posix) (P := plain) (margin 0)
              (mkSearch false false true true) (searching "[" 3)) /\
   forall n', nav.searchPrev (E := posix) (P := plain) (margin 0)
                (mkSearch false false true true) (searching "[" 3) = Ok n' ->
              sound n').
Proof.
  assert (H : sound (searching "[" 3)) by (apply sound_searching; lia).
  split; [exact H|].
  apply (searches_never_panic (E := posix) (P := plain) (margin 0)
           (mkSearch false false true true) (searching "[" 3) H).
Defined.

(** A malformed glob pattern: the search returns the error of
    [filepath.Match] and the cursor stays. *)
Example search_bad_pattern :
  nav.searchNext (E := posix) (P := plain) (margin 0)
    (mkSearch false false true true) (searching "[" 3)
  = Err "syntax error in pattern".
Proof. vm_compute. reflexivity. Qed.

(** ** The order [dir.sort] leaves the visible entries in *)

Section SortOrder.

Context {E : Extern}.
Implicit Types (o : opts) (d : dir.t) (s : list file.t).

Lemma descending_filter {A : Type} (lt : A -> A -> bool) (r : A -> bool)
  (l : list A) :
  descending lt l -> descending lt (List.filter r l).
Proof.
  intros Hs. induction Hs as [|x l Hs IH Hx]; simpl; [constructor|].
  destruct (r x); [|exact IH]. constructor; [exact IH|].
  apply Forall_forall. intros y Hy.
  apply list_elem_of_In, List.filter_In in Hy as [Hy _].
  rewrite Forall_forall in Hx. now apply Hx, list_elem_of_In.
Qed.

Lemma inOrder_filter o (r : file.t -> bool) s :
  inOrder o s -> inOrder o (List.filter r s).
Proof.
  unfold inOrder. destruct (reverse o);
    [apply descending_filter|apply ascending_filter].
Qed.

(** The visible listing after [dir.sort], in closed form: the stable sort
    by the key, the reversal, the visible entries of that, directories
    first. *)
Lemma sort_visible o d :
  wellNamed d ->
  exists d',
    dir.sort o d = Some d' /\
    dir.fi d'
    = part (if dirfirst o then file.IsDir else fun _ => true)
        (List.filter (visible o)
           (let s1 := insertionSort (byElems (keyLess (sortby o)))
                        (dir.all d) in
            if reverse o then rev s1 else s1)).
Proof.
  intros Hd. eexists. split; [apply (sort_wellNamed o d Hd)|]. simpl.
  rewrite arrayAfterSort_pipeline. unfold visible.
  destruct (hidden o); simpl.
  - rewrite part_true. f_equal. symmetry. apply forallb_filter_id.
    now apply forallb_forall.
  - now rewrite dropHidden_part, filter_part.
Qed.

Lemma keyed_inOrder o s :
  (sortby o = "natural" -> strictWeak naturalLess) ->
  inOrder o (let s1 := insertionSort (byElems (keyLess (sortby o))) s in
             if reverse o then rev s1 else s1).
Proof.
  intros Hnat. unfold inOrder. simpl.
  pose proof (insertionSort_ascending (keyLess (sortby o)) s
                (keyLess_strictWeak _ Hnat)) as Hasc.
  destruct (reverse o); [now apply ascending_rev|exact Hasc].
Qed.

(** X23: after [dir.sort] the visible entries are in the order of the sort
    key (in the opposite order under [reverse]); with [dirfirst] they are
    the directories followed by the other entries, each group in that
    order. *)
Theorem sort_orders_by_key o d :
  (sortby o = "natural" -> strictWeak naturalLess) ->
  wellNamed d ->
  exists d',
    dir.sort o d = Some d' /\
    if dirfirst o then
      exists ds fs,
        dir.fi d' = ds ++ fs /\
        Forall (fun f => file.IsDir f = true) ds /\
        Forall (fun f => file.IsDir f = false) fs /\
        inOrder o ds /\ inOrder o fs
    else inOrder o (dir.fi d').
Proof.
  intros Hnat Hd. destruct (sort_visible o d Hd) as (d' & Hsort & Hfi).
  exists d'. split; [exact Hsort|]. rewrite Hfi.
  pose proof (inOrder_filter o (visible o) _ (keyed_inOrder o (dir.all d) Hnat))
    as Hord.
  destruct (dirfirst o).
  - eexists _, _. split; [reflexivity|]. split; [|split; [|split]].
    + apply Forall_forall. intros f Hf.
      now apply list_elem_of_In, List.filter_In in Hf as [_ Hf].
    + apply Forall_forall. intros f Hf.
      apply list_elem_of_In, List.filter_In in Hf as [_ Hf].
      now apply negb_true_iff.
    + now apply inOrder_filter.
    + now apply inOrder_filter.
  - now rewrite part_true.
Qed.

Lemma part_same (p r : file.t -> bool) (b : bool) s :
  (forall x, r x = true -> p x = b) ->
  part p (List.filter r s) = List.filter r s.
Proof.
  intros Hr. unfold part.
  assert (Hall : Forall (fun x => p x = b) (List.filter r s)).
  { apply Forall_forall. intros x Hx%list_elem_of_In.
    now apply List.filter_In in Hx as [_ Hx%Hr]. }
  revert Hall. generalize (List.filter r s). intros l Hall.
  induction Hall as [|x l Hx Hl IH]; [reflexivity|]. simpl. rewrite Hx.
  destruct b; simpl; [now rewrite IH|].
  assert (Hnil : List.filter p l = []).
  { clear -Hl. induction Hl as [|y l Hy Hl IH]; simpl; [reflexivity|].
    now rewrite Hy. }
  rewrite Hnil in *. simpl in *. now rewrite IH.
Qed.

(** X24: [dir.sort] is stable: entries of the same rank (neither below the
    other under the key, and of the same kind under [dirfirst]) stay in
    the order they have in [all]; under [reverse] they come out in the
    opposite order. *)
Theorem sort_is_stable o d x :
  (sortby o = "natural" -> strictWeak naturalLess) ->
  wellNamed d ->
  exists d',
    dir.sort o d = Some d' /\
    List.filter (sameRank o x) (dir.fi d')
    = let same := List.filter (sameRank o x)
                    (List.filter (visible o) (dir.all d)) in
      if reverse o then rev same else same.
Proof.
  intros Hnat Hd. destruct (sort_visible o d Hd) as (d' & Hsort & Hfi).
  exists d'. split; [exact Hsort|]. rewrite Hfi. clear Hfi Hsort.
  pose proof (keyLess_strictWeak _ Hnat) as Hsw.
  set (lt := keyLess (sortby o)) in *.
  rewrite filter_part.
  rewrite (part_same _ _ (if dirfirst o then file.IsDir x else true)).
  2:{ intros y Hy. unfold sameRank in Hy.
      destruct (dirfirst o); [|reflexivity].
      apply andb_prop in Hy as [_ Hy]. simpl in Hy.
      now apply eqb_prop in Hy. }
  simpl.
  assert (Hsame : List.filter (sameRank o x)
                    (List.filter (visible o)
                       (insertionSort (byElems lt) (dir.all d)))
                  = List.filter (sameRank o x)
                      (List.filter (visible o) (dir.all d))).
  { rewrite !insertionSort_filter by exact Hsw.
    apply insertionSort_sorted.
    set (l := List.filter (visible o) (dir.all d)).
    assert (Htied : forall a b, In a (List.filter (sameRank o x) l) ->
                                In b (List.filter (sameRank o x) l) ->
                                lt b a = false).
    { intros a b [_ Ha]%List.filter_In [_ Hb]%List.filter_In.
      unfold sameRank in Ha, Hb. fold lt in Ha, Hb.
      apply andb_prop in Ha as [[Ha1 Ha2]%andb_prop _].
      apply andb_prop in Hb as [[Hb1 Hb2]%andb_prop _].
      apply negb_true_iff in Ha1, Ha2, Hb1, Hb2.
      destruct Hsw as [_ Htrans]. exact (Htrans b x a Hb2 Ha1). }
    induction (List.filter (sameRank o x) l) as [|a l' IH]; constructor.
    - apply IH. intros a0 b Ha0 Hb. apply Htied; now right.
    - apply Forall_forall. intros b Hb%list_elem_of_In.
      apply Htied; [now left|now right]. }
  destruct (reverse o).
  - now rewrite !List.filter_rev, Hsame.
  - exact Hsame.
Qed.

End SortOrder.

Lemma sort_orders_by_key_witness :
  (sortby natural = "natural" -> strictWeak (naturalLess (Extern := posix))) /\
  wellNamed desk /\
  exists d',
    dir.sort (E := posix) natural desk = Some d' /\
    if dirfirst natural then
      exists ds fs,
        dir.fi d' = ds ++ fs /\
        Forall (fun f => file.IsDir f = true) ds /\
        Forall (fun f => file.IsDir f = false) fs /\
        inOrder (E := posix) natural ds /\ inOrder (E := posix) natural fs
    else inOrder (E := posix) natural (dir.fi d').
Proof.
  assert (H1 : sortby natural = "natural" ->
               strictWeak (naturalLess (Extern := posix)))
    by (intros _; exact String_ltb_strictWeak).
  assert (H2 : wellNamed desk) by (repeat constructor).
  split; [exact H1|]. split; [exact H2|].
  apply (sort_orders_by_key (E := posix) natural desk H1 H2).
Defined.

Lemma sort_is_stable_witness :
  (sortby (bySize true) = "natural" ->
   strictWeak (naturalLess (Extern := posix))) /\
  wellNamed twins /\
  exists d',
    dir.sort (E := posix) (bySize true) twins = Some d' /\
    List.filter (sameRank (E := posix) (bySize true) (regular "a" 1 10))
      (dir.fi d')
    = let same := List.filter
                    (sameRank (E := posix) (bySize true) (regular "a" 1 10))
                    (List.filter (visible (bySize true)) (dir.all twins)) in
      if reverse (bySize true) then rev same else same.
Proof.
  assert (H1 : sortby (bySize true) = "natural" ->
               strictWeak (naturalLess (Extern := posix)))
    by (intros _; exact String_ltb_strictWeak).
  assert (H2 : wellNamed twins) by (repeat constructor).
  split; [exact H1|]. split; [exact H2|].
  apply (sort_is_stable (E := posix) (bySize true) twins
           (regular "a" 1 10) H1 H2).
Defined.

(** Two entries of one size, sorted by size: they stay as they are read,
    and change places under [reverse]. *)
Example sort_twins :
  option_map (fun d => file.Name <$> dir.fi d)
    (dir.sort (E := posix) (bySize false) twins) = Some ["a"; "b"] /\
  option_map (fun d => file.Name <$> dir.fi d)
    (dir.sort (E := posix) (bySize true) twins) = Some ["b"; "a"].
Proof. split; vm_compute; reflexivity. Qed.

(** ** [nav.toggle] *)

Section Toggle.

Implicit Types (o : opts) (n : nav.t) (d : dir.t).

Lemma marks_onCurrDir (g : dir.t -> dir.t) n n' :
  nav.onCurrDir g n = Ok n' ->
  nav.marks n' = nav.marks n /\ nav.markInd n' = nav.markInd n.
Proof.
  unfold nav.onCurrDir. destruct (last (nav.dirs n)); [|discriminate].
  destruct (nav.heap n !! _); [|discriminate]. now intros [= <-].
Qed.

(** X25: [toggle] with the cursor on an entry toggles the mark of that
    entry's path and moves the cursor one entry down, staying on the last
    entry; on an empty listing it does nothing. *)
Theorem toggle_marks_and_steps o n d :
  nav.currDir n = Some d -> cursorOn d ->
  (dir.fi d = [] -> nav.toggle o n = Ok n) /\
  (forall curr,
      index (dir.fi d) (dir.ind d) = Some curr ->
      exists n',
        nav.toggle o n = Ok n' /\
        nav.marks n' = nav.marks (nav.toggleMark (file.path curr) n) /\
        nav.markInd n' = nav.markInd (nav.toggleMark (file.path curr) n) /\
        cursorAt n' (dir.fi d)
          (Z.min (dir.ind d + 1) (len (dir.fi d) - 1))).
Proof.
  intros Hcur Hon. apply cursorOn_cases in Hon as [Hlen Hon].
  unfold nav.toggle, nav.currFile. rewrite Hcur. split.
  - intros Hnil. now rewrite Hnil.
  - intros curr Hcurr. pose proof (index_in_range _ _ _ Hcurr) as Hi.
    destruct (Z.eqb_spec (len (dir.fi d)) 0); [lia|]. rewrite Hcurr.
    assert (Hcur' : nav.currDir (nav.toggleMark (file.path curr) n) = Some d)
      by now rewrite currDir_toggleMark.
    unfold nav.down.
    destruct (onCurrDir_currDir
                (nav.downOn o (nav.height (nav.toggleMark (file.path curr) n))
                   1) _ d Hcur') as (n' & Hn' & Hcurn' & _).
    exists n'. split; [exact Hn'|].
    destruct (marks_onCurrDir _ _ _ Hn') as [Hm Hmi].
    split; [exact Hm|]. split; [exact Hmi|].
    eexists. split; [exact Hcurn'|].
    unfold nav.downOn. unfold intMax in *.
    replace (subi (len (dir.fi d)) 1) with (len (dir.fi d) - 1)
      by (int_arith; reflexivity).
    destruct (Z.leb_spec (len (dir.fi d) - 1) (dir.ind d)); simpl.
    + split; [reflexivity|lia].
    + split; [reflexivity|]. int_arith. lia.
Qed.

End Toggle.

Lemma toggle_marks_and_steps_witness :
  nav.currDir (browsing desk 5) = Some desk /\ cursorOn desk /\
  (dir.fi desk = [] -> nav.toggle (margin 0) (browsing desk 5)
                       = Ok (browsing desk 5)) /\
  (forall curr,
      index (dir.fi desk) (dir.ind desk) = Some curr ->
      exists n',
        nav.toggle (margin 0) (browsing desk 5) = Ok n' /\
        nav.marks n'
        = nav.marks (nav.toggleMark (file.path curr) (browsing desk 5)) /\
        nav.markInd n'
        = nav.markInd (nav.toggleMark (file.path curr) (browsing desk 5)) /\
        cursorAt n' (dir.fi desk)
          (Z.min (dir.ind desk + 1) (len (dir.fi desk) - 1))).
Proof.
  assert (H1 : nav.currDir (browsing desk 5) = Some desk) by reflexivity.
  assert (H2 : cursorOn desk).
  { split; [vm_compute; discriminate|]. right. vm_compute.
    split; [discriminate|reflexivity]. }
  split; [exact H1|]. split; [exact H2|].
  apply (toggle_marks_and_steps (margin 0) (browsing desk 5) desk H1 H2).
Defined.
